(** * memorex: keyframe selection, transcript parsing and cost estimate

    A shallow embedding of the Go packages [internal/video],
    [internal/audio] and [internal/output], and of [formatDuration] of
    [cmd/memorex].

    - Go's [float64] is the kernel's binary64 [float]; [+ - * /], [sqrt] and
      the comparisons are the IEEE 754 operations the Go compiler emits on
      amd64 (no fused multiply-add).  Universal facts about them go through
      the specification [Prim2SF] of the Floats library.
    - Go's [int] and [time.Duration] are 64-bit two's complement integers:
      [Z] with the wrap-around written out ([wrap64]).
    - Go strings are byte sequences: [string] (one [ascii] per byte).
    - The file system, the image decoders and the recognizer process are
      inputs of the model: a loader function for frames, the bytes the
      recognizer printed, and the content of its output file; likewise the
      pixels of a resized image, the listing of the frame directory, the
      lines ffmpeg and the recognizer print about their progress, and the
      reads of the model download.
    - Bounds on float64 results are stated over the real numbers: [F2R x]
      is the real a finite float stands for, and [rounds] bounds the error
      of one operation. *)

From Stdlib Require Import Reals Lra.
From Stdlib Require Import ZArith Lia Bool Ascii String Floats.
From Stdlib Require Import DecimalString DecimalPos.
From stdpp Require Import base tactics option list sorting.

Set Warnings "-inexact-float".
Set Default Proof Using "Type".

Local Open Scope Z_scope.

(** ** Machine integers and float64 conversions *)

Module F64.

Definition min_int64 : Z := - 2 ^ 63.
Definition max_int64 : Z := 2 ^ 63 - 1.

(** Two's complement wrap-around of a 64-bit signed integer. *)
Definition wrap64 (z : Z) : Z := (z + 2 ^ 63) mod 2 ^ 64 - 2 ^ 63.

Definition in_int64 (z : Z) : bool := (min_int64 <=? z) && (z <=? max_int64).

(** [float64(n)] for a Go [int] [n >= 0] (a length): the nearest binary64,
    ties to even. *)
Definition float_of_int (n : Z) : float := PrimFloat.of_uint63 (Uint63.of_Z n).

(** [int(f)] for a [float64] [f]: truncation toward zero.  When the value
    does not fit (or is NaN or infinite) the Go specification leaves the
    result to the implementation; amd64 produces the smallest [int64]. *)
Definition int_of_float (f : float) : Z :=
  match Prim2SF f with
  | S754_zero _ => 0
  | S754_finite s m e =>
      let v := cond_Zopp s (Z.shiftl (Zpos m) e) in
      if in_int64 v then v else min_int64
  | S754_infinity _ | S754_nan => min_int64
  end.

(** A float that is neither NaN nor infinite. *)
Definition is_finite (f : float) : bool :=
  match Prim2SF f with
  | S754_zero _ | S754_finite _ _ _ => true
  | S754_infinity _ | S754_nan => false
  end.

(** The real number a power of two, a scaled integer and a float stand
    for; NaN and the infinities stand for nothing and read as 0. *)
Definition pow2 (e : Z) : R := powerRZ 2 e.

Definition SF2R (f : spec_float) : R :=
  match f with
  | S754_finite s m e => (IZR (cond_Zopp s (Zpos m)) * pow2 e)%R
  | _ => 0%R
  end.

Definition F2R (x : float) : R := SF2R (Prim2SF x).

(** The relative and the absolute error of one rounding. *)
(** Neither NaN nor infinite. *)
Definition finite (f : spec_float) : Prop :=
  match f with
  | S754_zero _ | S754_finite _ _ _ => True
  | _ => False
  end.

Definition eta : R := pow2 (-52).
Definition tau : R := pow2 (-1074).

(** One rounding of the real [V]: the float [f] is finite, has the sign of
    [V], and is within [eta * |V| + t] of it. *)
Definition rounds (f : spec_float) (V t : R) : Prop :=
  finite f
  /\ (Rabs (SF2R f - V) <= eta * Rabs V + t)%R
  /\ (0 <= V -> 0 <= SF2R f)%R
  /\ (V <= 0 -> SF2R f <= 0)%R.

(** [float64(n)] for any [int64] [n], negative ones included: the nearest
    binary64, ties to even. *)
Definition float_of_int64 (n : Z) : float :=
  SF2Prim (binary_normalize prec emax n 0 false).

End F64.

(** ** The Go library functions the packages call

    [strings.TrimSpace], [strings.Fields], [strings.Split], [strconv.Atoi],
    [bufio.Scanner] with its default line splitter, and the one regular
    expression of the transcript parser, as functions on byte strings. *)

Module GoLib.
Import F64.

Local Open Scope nat_scope.

Definition byte (n : nat) : ascii := ascii_of_nat n.
Definition code (c : ascii) : nat := nat_of_ascii c.

Fixpoint bytes (l : list nat) : string :=
  match l with
  | [] => EmptyString
  | n :: l' => String (byte n) (bytes l')
  end.

Fixpoint rev_append (s acc : string) : string :=
  match s with
  | EmptyString => acc
  | String c s' => rev_append s' (String c acc)
  end.
Definition rev (s : string) : string := rev_append s EmptyString.

Definition isEmpty (s : string) : bool :=
  match s with EmptyString => true | _ => false end.

(** UTF-8 encodings of the code points with Unicode's White_Space property
    ([unicode.IsSpace]): U+0009..U+000D, U+0020, U+0085, U+00A0, U+1680,
    U+2000..U+200A, U+2028, U+2029, U+202F, U+205F, U+3000. *)
Definition whiteSpace : list (list nat) :=
  [ [9]; [10]; [11]; [12]; [13]; [32];
    [194; 133]; [194; 160];
    [225; 154; 128];
    [226; 128; 128]; [226; 128; 129]; [226; 128; 130]; [226; 128; 131];
    [226; 128; 132]; [226; 128; 133]; [226; 128; 134]; [226; 128; 135];
    [226; 128; 136]; [226; 128; 137]; [226; 128; 138];
    [226; 128; 168]; [226; 128; 169]; [226; 128; 175];
    [226; 129; 159];
    [227; 128; 128] ].

Fixpoint hasPrefix (p : list nat) (s : string) : bool :=
  match p, s with
  | [], _ => true
  | n :: p', String c s' => (code c =? n)%nat && hasPrefix p' s'
  | _ :: _, EmptyString => false
  end.

(** Width in bytes of the white-space rune [s] starts with ([0]: none);
    [spaceWidthRev] reads a reversed string, so it sees the rune [s] ends
    with. *)
Definition spaceWidthIn (table : list (list nat)) (s : string) : nat :=
  match List.find (fun p => hasPrefix p s) table with
  | Some p => length p
  | None => 0%nat
  end.
Definition spaceWidth : string -> nat := spaceWidthIn whiteSpace.
Definition spaceWidthRev : string -> nat := spaceWidthIn (map (@List.rev nat) whiteSpace).

(** Drop leading white-space runes; [skip] counts the bytes still to drop
    of the rune being removed. *)
Fixpoint trimLoop (width : string -> nat) (s : string) (skip : nat) : string :=
  match s with
  | EmptyString => EmptyString
  | String _ s' =>
      match skip with
      | S k => trimLoop width s' k
      | O =>
          match width s with
          | O => s
          | S k => trimLoop width s' k
          end
      end
  end.

Definition TrimSpace (s : string) : string :=
  rev (trimLoop spaceWidthRev (rev (trimLoop spaceWidth s 0)) 0).

(** [strings.Fields]: the maximal runs of bytes between white-space runes.
    [cur] is the field being read, reversed ([None] outside a field). *)
Fixpoint fieldsLoop (s : string) (skip : nat) (cur : option string)
    (fields : list string) : list string :=
  let close := match cur with Some w => fields ++ [rev w] | None => fields end in
  match s with
  | EmptyString => close
  | String c s' =>
      match skip with
      | S k => fieldsLoop s' k cur fields
      | O =>
          match spaceWidth s with
          | S k => fieldsLoop s' k None close
          | O => fieldsLoop s' 0 (Some (String c (default EmptyString cur))) fields
          end
      end
  end.
Definition Fields (s : string) : list string := fieldsLoop s 0 None [].

(** [strings.Split(s, sep)] for a one-byte separator. *)
Fixpoint Split (sep : ascii) (s : string) : list string :=
  match s with
  | EmptyString => [EmptyString]
  | String c s' =>
      if Ascii.eqb c sep then EmptyString :: Split sep s'
      else match Split sep s' with
           | h :: t => String c h :: t
           | [] => [String c EmptyString]
           end
  end.

Definition isDigit (c : ascii) : bool := (48 <=? code c)%nat && (code c <=? 57)%nat.

Definition digitValue (c : ascii) : Z := Z.of_nat (code c - 48).

Fixpoint digitsValue (s : string) (acc : Z) : option Z :=
  match s with
  | EmptyString => Some acc
  | String c s' =>
      if isDigit c then digitsValue s' (acc * 10 + digitValue c)%Z else None
  end.

(** [strconv.Atoi]: an optional sign, then one or more decimal digits;
    [None] for a syntax error and for a value outside [int]. *)
Definition Atoi (s : string) : option Z :=
  let '(neg, body) :=
    match s with
    | String c r =>
        if Ascii.eqb c "+" then (false, r)
        else if Ascii.eqb c "-" then (true, r)
        else (false, s)
    | EmptyString => (false, s)
    end in
  if isEmpty body then None
  else
    match digitsValue body 0 with
    | None => None
    | Some v =>
        let v := if neg then (- v)%Z else v in
        if in_int64 v then Some v else None
    end.

(** [bufio.MaxScanTokenSize]: a line of this many bytes or more ends the
    scan with [ErrTooLong]. *)
Definition MaxScanTokenSize : Z := 65536.

Definition dropCR (line : string) : string :=
  match rev line with
  | String c r => if (code c =? 13)%nat then rev r else line
  | EmptyString => line
  end.

(** The lines a [bufio.Scanner] yields over [s]: [cur] is the current line
    reversed and [n] its length. *)
Fixpoint scanLoop (s : string) (cur : string) (n : Z) : list string :=
  match s with
  | EmptyString =>
      if (n =? 0)%Z || (MaxScanTokenSize <=? n)%Z then []
      else [dropCR (rev cur)]
  | String c s' =>
      if (code c =? 10)%nat then
        if (MaxScanTokenSize <=? n)%Z then []
        else dropCR (rev cur) :: scanLoop s' EmptyString 0%Z
      else scanLoop s' (String c cur) (n + 1)%Z
  end.
Definition scanLines (s : string) : list string := scanLoop s EmptyString 0%Z.

(** The regular expression of [parseWhisperOutput], piece by piece: an
    opening bracket, a stamp (two digits, colon, two digits, colon, two
    digits, dot, three digits), optional [\s], the arrow [-->], optional
    [\s], a second stamp, a closing bracket, optional [\s], and the rest of
    the line as the third group.  [\s] is tab, newline, form feed, carriage
    return or space; the third group stops before a newline. *)
Definition isReSpace (c : ascii) : bool :=
  let n := code c in
  (n =? 9)%nat || (n =? 10)%nat || (n =? 12)%nat || (n =? 13)%nat || (n =? 32)%nat.

Fixpoint skipReSpace (s : string) : string :=
  match s with
  | String c s' => if isReSpace c then skipReSpace s' else s
  | EmptyString => s
  end.

Fixpoint takeLine (s : string) : string :=
  match s with
  | String c s' => if (code c =? 10)%nat then EmptyString else String c (takeLine s')
  | EmptyString => EmptyString
  end.

(** [\d{2}:\d{2}:\d{2}\.\d{3}] at the start of [s]: the twelve bytes and
    what follows them. *)
Definition matchStamp (s : string) : option (string * string) :=
  match s with
  | String h1 (String h2 (String c1 (String m1 (String m2 (String c2
      (String s1 (String s2 (String dot (String k1 (String k2 (String k3 rest))))))))))) =>
      if isDigit h1 && isDigit h2 && Ascii.eqb c1 ":" && isDigit m1 && isDigit m2
         && Ascii.eqb c2 ":" && isDigit s1 && isDigit s2 && Ascii.eqb dot "."
         && isDigit k1 && isDigit k2 && isDigit k3
      then Some (String h1 (String h2 (String c1 (String m1 (String m2 (String c2
             (String s1 (String s2 (String dot (String k1 (String k2 (String k3
               EmptyString))))))))))), rest)
      else None
  | _ => None
  end.

Definition matchArrow (s : string) : option string :=
  match s with
  | String "-" (String "-" (String ">" rest)) => Some rest
  | _ => None
  end.

(** A match of the whole expression starting at the first byte of [s]:
    the three groups. *)
Definition matchHere (s : string) : option (string * string * string) :=
  match s with
  | String "[" s1 =>
      '(g1, s2) ← matchStamp s1;
      s3 ← matchArrow (skipReSpace s2);
      '(g2, s4) ← matchStamp (skipReSpace s3);
      match s4 with
      | String "]" s5 => Some (g1, g2, takeLine (skipReSpace s5))
      | _ => None
      end
  | _ => None
  end.

(** [pattern.FindStringSubmatch]: the leftmost match. *)
Fixpoint FindStringSubmatch (s : string) : option (string * string * string) :=
  match matchHere s with
  | Some m => Some m
  | None =>
      match s with
      | EmptyString => None
      | String _ s' => FindStringSubmatch s'
      end
  end.

(** [strings.IndexByte(s, c) >= 0] and [strings.Count] for one byte, to
    state what a string holds. *)
Fixpoint containsByte (c : ascii) (s : string) : bool :=
  match s with
  | EmptyString => false
  | String x s' => Ascii.eqb x c || containsByte c s'
  end.

Fixpoint countByte (c : ascii) (s : string) : nat :=
  match s with
  | EmptyString => 0
  | String x s' => (if Ascii.eqb x c then 1 else 0) + countByte c s'
  end.

(** [strings.Repeat] of one byte. *)
Fixpoint repeatByte (c : ascii) (n : nat) : string :=
  match n with
  | O => EmptyString
  | S k => String c (repeatByte c k)
  end.

(** The newline byte. *)
Definition nl : ascii := byte 10.

(** A string no white-space rune of [table] starts. *)
Definition clean (table : list (list nat)) (s : string) : Prop :=
  Forall (fun p => hasPrefix p s = false) table.

(** [strings.HasPrefix] and [strings.TrimPrefix]. *)
Fixpoint HasPrefix (s prefix : string) {struct prefix} : bool :=
  match prefix, s with
  | EmptyString, _ => true
  | String p prefix', String c s' => Ascii.eqb c p && HasPrefix s' prefix'
  | String _ _, EmptyString => false
  end.

Fixpoint dropBytes (n : nat) (s : string) : string :=
  match n, s with
  | O, _ => s
  | S n', String _ s' => dropBytes n' s'
  | S _, EmptyString => EmptyString
  end.

Definition TrimPrefix (s prefix : string) : string :=
  if HasPrefix s prefix then dropBytes (String.length prefix) s else s.

(** [strconv.ParseInt(s, 10, 64)]: the syntax and the range of [Atoi]. *)
Definition ParseInt (s : string) : option Z := Atoi s.

(** [%d] of [fmt.Sprintf]: the decimal digits, after a minus sign for a
    negative number. *)
Definition formatInt (n : Z) : string := NilZero.string_of_int (Z.to_int n).

(** [%02d]: the sign counts in the width, so only [0] to [9] are padded. *)
Definition formatInt02 (n : Z) : string :=
  if ((0 <=? n) && (n <? 10))%Z then String "0" (formatInt n) else formatInt n.

(** [lessThanHalf] of package time, in [uint64] arithmetic. *)
Definition lessThanHalf (x y : Z) : bool :=
  ((x mod 2 ^ 64 + x mod 2 ^ 64) mod 2 ^ 64 <? y mod 2 ^ 64)%Z.

(** [time.Duration.Round]: to the nearest multiple of [m], halves away
    from zero, saturating. *)
Definition Round (d m : Z) : Z :=
  if (m <=? 0)%Z then d
  else
    let r := Z.rem d m in
    if (d <? 0)%Z then
      let r := wrap64 (- r)%Z in
      if lessThanHalf r m then wrap64 (d + r)%Z
      else
        let d1 := wrap64 (d - m + r)%Z in
        if (d1 <? d)%Z then d1 else min_int64
    else if lessThanHalf r m then wrap64 (d - r)%Z
    else
      let d1 := wrap64 (d + m - r)%Z in
      if (d <? d1)%Z then d1 else max_int64.

(** The value [strconv.Atoi] returns beside its error: [0] for a syntax
    error, the nearest [int] for a value out of range. *)
Definition AtoiValue (s : string) : Z :=
  let '(neg, body) :=
    match s with
    | String c r =>
        if Ascii.eqb c "+" then (false, r)
        else if Ascii.eqb c "-" then (true, r)
        else (false, s)
    | EmptyString => (false, s)
    end in
  if isEmpty body then 0%Z
  else
    match digitsValue body 0 with
    | None => 0%Z
    | Some v =>
        let v := if neg then (- v)%Z else v in
        if in_int64 v then v else if neg then min_int64 else max_int64
    end.

(** Zeros in front of [digits] up to [width] bytes. *)
Definition padZeros (width : nat) (digits : string) : string :=
  (repeatByte "0" (width - String.length digits) ++ digits)%string.

(** [%04d]: the sign counts in the width and comes before the zeros. *)
Definition formatInt04 (n : Z) : string :=
  if (n <? 0)%Z then String "-" (padZeros 3 (formatInt (- n)))
  else padZeros 4 (formatInt n).

(** The leading digits of [s], and what follows them. *)
Fixpoint digitPrefix (s : string) : string * string :=
  match s with
  | String c s' =>
      if isDigit c then
        let '(digits, rest) := digitPrefix s' in (String c digits, rest)
      else (EmptyString, s)
  | EmptyString => (EmptyString, EmptyString)
  end.

(** [filepath.Ext]: the suffix from the last dot of the last element of
    the path, empty if that element has no dot.  [extLoop] walks the path
    from its end; [acc] is what it has passed. *)
Fixpoint extLoop (reversed acc : string) : string :=
  match reversed with
  | EmptyString => EmptyString
  | String c r =>
      if Ascii.eqb c "/" then EmptyString
      else if Ascii.eqb c "." then String c acc
      else extLoop r (String c acc)
  end.

Definition Ext (path : string) : string := extLoop (rev path) EmptyString.

(** [strings.TrimSuffix]. *)
Definition TrimSuffix (s suffix : string) : string :=
  if HasPrefix (rev s) (rev suffix)
  then rev (dropBytes (String.length suffix) (rev s))
  else s.

End GoLib.

(** ** Package video *)

Module Video.
Import F64.

(** [Frame] and [Keyframe] have the same three fields in the source. *)
Record Frame := mkFrame {
  FramePath : string;
  FrameIndex : Z;
  FrameTimestamp : Z;
}.

Record Keyframe := mkKeyframe {
  Path : string;
  Index : Z;
  Timestamp : Z;
}.

(** The conversion [Keyframe(frame)] and the field-by-field literal the
    source builds; both give the same value. *)
Definition toKeyframe (f : Frame) : Keyframe :=
  {| Path := FramePath f; Index := FrameIndex f; Timestamp := FrameTimestamp f |}.

Local Open Scope float_scope.

(** First loop of [normalizedCrossCorrelation]:
    [for i := range a { sumA += a[i]; sumB += b[i] }]. *)
Fixpoint sumLoop (a b : list float) (sumA sumB : float) : float * float :=
  match a, b with
  | x :: a', y :: b' => sumLoop a' b' (sumA + x) (sumB + y)
  | _, _ => (sumA, sumB)
  end.

(** Second loop: the three accumulators [sumProduct], [sumSqA], [sumSqB]. *)
Fixpoint devLoop (a b : list float) (meanA meanB : float)
    (sumProduct sumSqA sumSqB : float) : float * float * float :=
  match a, b with
  | x :: a', y :: b' =>
      let diffA := x - meanA in
      let diffB := y - meanB in
      devLoop a' b' meanA meanB
        (sumProduct + diffA * diffB) (sumSqA + diffA * diffA) (sumSqB + diffB * diffB)
  | _, _ => (sumProduct, sumSqA, sumSqB)
  end.

Definition normalizedCrossCorrelation (a b : list float) : float :=
  if negb (length a =? length b)%nat || (length a =? 0)%nat then 0
  else
    let n := float_of_int (Z.of_nat (length a)) in
    let '(sumA, sumB) := sumLoop a b 0 0 in
    let meanA := sumA / n in
    let meanB := sumB / n in
    let '(sumProduct, sumSqA, sumSqB) := devLoop a b meanA meanB 0 0 0 in
    let stdA := PrimFloat.sqrt (sumSqA / n) in
    let stdB := PrimFloat.sqrt (sumSqB / n) in
    if (stdA <? 1e-10) || (stdB <? 1e-10) then 1
    else sumProduct / (n * stdA * stdB).

(** The mean and the standard deviation of one vector as the function
    computes them (the same operations in the same order). *)
Definition sumOf (a : list float) : float := fold_left PrimFloat.add a 0.
Definition meanOf (a : list float) : float :=
  sumOf a / float_of_int (Z.of_nat (length a)).
Definition sqStep (mean acc x : float) : float := acc + (x - mean) * (x - mean).
Definition sumSqOf (a : list float) (mean : float) : float :=
  fold_left (sqStep mean) a 0.
Definition stdOf (a : list float) : float :=
  PrimFloat.sqrt (sumSqOf a (meanOf a) / float_of_int (Z.of_nat (length a))).

Inductive DetectError :=
  | FailedFirstFrame
  | FailedFrame (i : nat).

Inductive result (A : Type) :=
  | Ok (a : A)
  | Err (e : DetectError).
Arguments Ok {A} a.
Arguments Err {A} e.

Section Detect.

(** [loadAndProcessFrame]: opening, decoding, resizing and converting the
    image at a path; [None] when any of these fails. *)
Variable loadAndProcessFrame : string -> option (list float).

(** The loop [for i := 1; i < len(frames); i++] over the frames after the
    first; [prevGray] is the vector of the frame just before [rest]. *)
Fixpoint compareLoop (threshold : float) (prevGray : list float)
    (rest : list Frame) (i : nat) (keyframes : list Keyframe)
    : result (list Keyframe) :=
  match rest with
  | [] => Ok keyframes
  | fr :: rest' =>
      match loadAndProcessFrame (FramePath fr) with
      | None => Err (FailedFrame i)
      | Some currGray =>
          let correlation := normalizedCrossCorrelation prevGray currGray in
          let keyframes :=
            if correlation <? threshold then keyframes ++ [toKeyframe fr]
            else keyframes in
          compareLoop threshold currGray rest' (S i) keyframes
      end
  end.

Definition lastIndexDiffers (keyframes : list Keyframe) (lastFrame : Frame) : bool :=
  (length keyframes =? 0)%nat
  || negb (Index (List.last keyframes (toKeyframe lastFrame)) =? FrameIndex lastFrame)%Z.

(** [DetectKeyframes] with a nil progress callback (the callback only
    observes the loop counter). *)
Definition DetectKeyframes (frames : list Frame) (threshold : float)
    : result (list Keyframe) :=
  match frames with
  | [] => Ok []
  | first :: rest =>
      let keyframes := [toKeyframe first] in
      if (length frames =? 1)%nat then Ok keyframes
      else
        match loadAndProcessFrame (FramePath first) with
        | None => Err FailedFirstFrame
        | Some prevGray =>
            match compareLoop threshold prevGray rest 1 keyframes with
            | Err e => Err e
            | Ok keyframes =>
                let lastFrame := List.last frames first in
                if lastIndexDiffers keyframes lastFrame
                then Ok (keyframes ++ [toKeyframe lastFrame])
                else Ok keyframes
            end
        end
  end.

(** The selection policy in the words of the design: walking the frames
    after the first, each with its intensity vector, a frame is picked
    when its score against the vector of the frame just before it in the
    stream is strictly below the threshold. *)
Fixpoint changedFrames (threshold : float) (prev : list float)
    (rest : list (Frame * list float)) : list Frame :=
  match rest with
  | [] => []
  | (fr, v) :: rest' =>
      (if normalizedCrossCorrelation prev v <? threshold then [fr] else [])
      ++ changedFrames threshold v rest'
  end.

(** The closing step: the last frame joins the picked keyframes unless
    the last of them already carries its index. *)
Definition closing (picked : list Keyframe) (lastFrame : Frame) : list Keyframe :=
  if lastIndexDiffers picked lastFrame then picked ++ [toKeyframe lastFrame]
  else picked.

(** [vs] are the vectors of [frames], frame by frame. *)
Definition loadsTo (frames : list Frame) (vs : list (list float)) : Prop :=
  Forall2 (fun fr v => loadAndProcessFrame (FramePath fr) = Some v) frames vs.

End Detect.

(** The longest flat vector the bound below is proved for; a frame has
    [compWidth * compHeight = 80000] entries. *)
Definition flatLimit : Z := 100000.

Definition Microsecond : Z := 1000%Z.

(** What [parseFFmpegProgress] passes to [onProgress] for one line of the
    progress output, if anything. *)
Definition progressOfLine (totalDuration : Z) (line : string) : option float :=
  if GoLib.HasPrefix line "out_time_us=" then
    let usStr := GoLib.TrimPrefix line "out_time_us=" in
    match GoLib.ParseInt usStr with
    | None => None
    | Some us =>
        let currentTime := wrap64 (us * Microsecond)%Z in
        let percent := float_of_int64 currentTime / float_of_int64 totalDuration in
        Some (if 1 <? percent then 1 else percent)
    end
  else None.

(** The values [parseFFmpegProgress] reports, in order, when it reads all
    of [stdout]. *)
Definition parseFFmpegProgress (stdout : string) (totalDuration : Z) : list float :=
  omap (progressOfLine totalDuration) (GoLib.scanLines stdout).

(** A decoded and resized image: its bounds, and the three colour channels
    [At(x, y).RGBA()] returns (16-bit values; alpha is not read). *)
Record Image := mkImage {
  MinX : Z;
  MinY : Z;
  MaxX : Z;
  MaxY : Z;
  At : Z -> Z -> Z * Z * Z
}.

(** The entry [loadAndProcessFrame] stores for one pixel. *)
Definition grayValue (r g b : Z) : float :=
  let luminance :=
    0.299 * float_of_int r + 0.587 * float_of_int g + 0.114 * float_of_int b in
  luminance / 65535.

Definition grayRow (img : Image) (y : Z) : list float :=
  map (fun x => let '(r, g, b) := At img x y in grayValue r g b)
      (seqZ (MinX img) (MaxX img - MinX img)%Z).

(** The vector [loadAndProcessFrame] returns for an image whose bounds are
    well formed ([Min <= Max]): the rows from top to bottom. *)
Definition toGray (img : Image) : list float :=
  concat (map (grayRow img) (seqZ (MinY img) (MaxY img - MinY img)%Z)).

(** What [RGBA()] promises: every channel is a 16-bit value. *)
Definition channelsInRange (img : Image) : Prop :=
  forall x y, let '(r, g, b) := At img x y in
    (0 <= r <= 65535 /\ 0 <= g <= 65535 /\ 0 <= b <= 65535)%Z.

Definition Second : Z := 1000000000%Z.

(** An entry of [os.ReadDir]. *)
Record DirEntry := mkDirEntry {
  Name : string;
  IsDir : bool
}.

(** The submatch of the pattern [^(\d+)\.png$] in a file name; the digits
    are followed by a dot, so they are all the leading digits. *)
Definition matchFrameName (name : string) : option string :=
  let '(digits, rest) := GoLib.digitPrefix name in
  if GoLib.isEmpty digits then None
  else if String.eqb rest ".png" then Some digits
  else None.

(** The frame [ExtractFrames] makes of a directory entry, if any.  The
    directory is a cleaned path and the name a plain file name, so
    [filepath.Join] puts one separator between them. *)
Definition frameOfEntry (tempDir : string) (entry : DirEntry) : option Frame :=
  if IsDir entry then None
  else
    match matchFrameName (Name entry) with
    | None => None
    | Some digits =>
        let index := GoLib.AtoiValue digits in
        Some (mkFrame (tempDir ++ "/" ++ Name entry)%string index
                      (wrap64 (wrap64 (index - 1) * Second)%Z))
    end.

(** What [ExtractFrames] meets outside the program: whether the temporary
    directory, the pipe, the start and the run of ffmpeg succeed, and the
    listing of the directory. *)
Record ExtractRun := mkExtractRun {
  tempDir : option string;
  pipeOk : bool;
  startOk : bool;
  waitOk : bool;
  entries : option (list DirEntry)
}.

Inductive ExtractError :=
  | TempDirFailed
  | PipeFailed
  | StartFailed
  | ExtractionFailed
  | ReadDirFailed
  | NoFrames.

Definition indexLe (a b : Frame) : Prop := (FrameIndex a <= FrameIndex b)%Z.

(** [sort.Slice] by index: the frames in some order in which no frame has
    a smaller index than one before it; the order of frames of one index
    is not specified. *)
Definition sortedByIndex (frames sorted : list Frame) : Prop :=
  frames ≡ₚ sorted /\ Sorted indexLe sorted.

(** The results [ExtractFrames] can return. *)
Definition ExtractFrames (run : ExtractRun) (res : ExtractError + list Frame) : Prop :=
  match tempDir run with
  | None => res = inl TempDirFailed
  | Some dir =>
      if negb (pipeOk run) then res = inl PipeFailed
      else if negb (startOk run) then res = inl StartFailed
      else if negb (waitOk run) then res = inl ExtractionFailed
      else
        match entries run with
        | None => res = inl ReadDirFailed
        | Some listing =>
            exists sorted,
              sortedByIndex (omap (frameOfEntry dir) listing) sorted
              /\ res = match sorted with
                       | [] => inl NoFrames
                       | _ :: _ => inr sorted
                       end
        end
  end.

(** The file ffmpeg writes for frame [i] of the pattern [%04d.png], and
    the frame it stands for. *)
Definition frameFile (i : Z) : DirEntry :=
  mkDirEntry (GoLib.formatInt04 i ++ ".png")%string false.

Definition numberedFrame (dir : string) (i : Z) : Frame :=
  mkFrame (dir ++ "/" ++ GoLib.formatInt04 i ++ ".png")%string i
          (wrap64 ((i - 1) * Second)%Z).

(** The name [saveKeyframe] gives the file of a keyframe; [convertKeyframes]
    of package main writes the same name in the report. *)
Definition keyframeFileName (index : Z) : string :=
  ("frame_" ++ GoLib.formatInt04 index ++ ".jpg")%string.

End Video.

(** ** Package audio *)

Module Audio.
Import F64 GoLib.

(** [time.Duration]: nanoseconds in an [int64]. *)
Definition Millisecond : Z := 1000000.
Definition Second : Z := 1000 * Millisecond.
Definition Minute : Z := 60 * Second.
Definition Hour : Z := 60 * Minute.

Record Segment := mkSegment {
  Start : Z;
  End_ : Z;
  Text : string;
}.

(** [parseTimestamp]: [None] stands for the error return. *)
Definition parseTimestamp (ts : string) : option Z :=
  match Split ":" ts with
  | [p0; p1; p2] =>
      hours ← Atoi p0;
      minutes ← Atoi p1;
      let secParts := Split "." p2 in
      seconds ← Atoi (List.hd EmptyString secParts);
      millis ← match secParts with
               | _ :: p :: _ => Atoi p
               | _ => Some 0
               end;
      Some (wrap64 (wrap64 (wrap64 (wrap64 (hours * Hour) + wrap64 (minutes * Minute))
                            + wrap64 (seconds * Second))
                    + wrap64 (millis * Millisecond)))
  | _ => None
  end.

(** The twelve bytes of a stamp [HH:MM:SS.mmm] from its nine digits. *)
Definition stamp (h1 h2 m1 m2 s1 s2 k1 k2 k3 : ascii) : string :=
  String h1 (String h2 (String ":" (String m1 (String m2 (String ":"
    (String s1 (String s2 (String "." (String k1 (String k2 (String k3
      EmptyString))))))))))).

(** The body of the scanning loop of [parseWhisperOutput] for one line:
    the segment it appends, if any.  The errors of [parseTimestamp] are
    dropped, leaving the zero duration. *)
Definition parseLine (line : string) : option Segment :=
  match FindStringSubmatch line with
  | None => None
  | Some (m1, m2, m3) =>
      let start := default 0 (parseTimestamp m1) in
      let end_ := default 0 (parseTimestamp m2) in
      let text := TrimSpace m3 in
      if isEmpty text then None
      else Some {| Start := start; End_ := end_; Text := text |}
  end.

Fixpoint parseLoop (lines : list string) (segments : list Segment) : list Segment :=
  match lines with
  | [] => segments
  | line :: rest =>
      match parseLine line with
      | Some seg => parseLoop rest (segments ++ [seg])
      | None => parseLoop rest segments
      end
  end.

Definition parseWhisperOutput (output : string) : list Segment :=
  parseLoop (scanLines output) [].

(** What one run of the recognizer process gives [runWhisper]. *)
Record WhisperRun := mkWhisperRun {
  tempFileOk : bool;          (** [os.CreateTemp] and [Close] succeeded *)
  whisperFound : bool;        (** one of the three lookups found the program *)
  startOk : bool;             (** the pipes were created and the process started *)
  stdoutBytes : string;       (** what the process wrote to its standard output *)
  exitOk : bool;              (** [cmd.Wait] returned no error *)
  outputFile : option string; (** [os.ReadFile(outputPath)]: [None] on error *)
}.

Inductive WhisperError :=
  | TempFileFailed
  | WhisperNotFound
  | StartFailed
  | WhisperFailed.

(** The goroutine that copies standard output line by line into
    [outputBuilder], a newline after each line. *)
Fixpoint collectLines (lines : list string) (outputBuilder : string) : string :=
  match lines with
  | [] => outputBuilder
  | line :: rest =>
      collectLines rest (String.append (String.append outputBuilder line)
                                        (String (byte 10) EmptyString))
  end.

(** What [runWhisper] hands to [parseWhisperOutput]. *)
Definition collectedOutput (run : WhisperRun) : string :=
  collectLines (scanLines (stdoutBytes run)) EmptyString.

Definition runWhisper (run : WhisperRun) : WhisperError + list Segment :=
  if negb (tempFileOk run) then inl TempFileFailed
  else if negb (whisperFound run) then inl WhisperNotFound
  else if negb (startOk run) then inl StartFailed
  else
    let output := collectedOutput run in
    if negb (exitOk run) then inl WhisperFailed
    else
      let segments := parseWhisperOutput output in
      if (length segments =? 0)%nat then
        match outputFile run with
        | Some content =>
            if (0 <? String.length content)%nat
            then inr [ {| Start := 0; End_ := 0; Text := TrimSpace content |} ]
            else inr segments
        | None => inr segments
        end
      else inr segments.

(** The segments one line contributes: one or none. *)
Definition segmentOf (line : string) : list Segment :=
  match parseLine line with Some seg => [seg] | None => [] end.

(** The duration of [hours], [minutes], [seconds] and [millis] in an
    [int64], wrapped once. *)
Definition durationOf (hours minutes seconds millis : Z) : Z :=
  wrap64 (hours * Hour + minutes * Minute + seconds * Second + millis * Millisecond).

(** The submatch of the pattern [progress\s*=\s*(\d+)%] at the start of
    [s].  Every repetition is followed by a byte outside its class, so the
    longest repetition is the only one that can match. *)
Definition matchProgressHere (s : string) : option string :=
  if HasPrefix s "progress" then
    match skipReSpace (TrimPrefix s "progress") with
    | String "=" s1 =>
        let '(digits, rest) := digitPrefix (skipReSpace s1) in
        if isEmpty digits then None
        else
          match rest with
          | String "%" _ => Some digits
          | _ => None
          end
    | _ => None
    end
  else None.

(** The submatch of the leftmost match in [s]. *)
Fixpoint findProgress (s : string) : option string :=
  match matchProgressHere s with
  | Some digits => Some digits
  | None =>
      match s with
      | String _ s' => findProgress s'
      | EmptyString => None
      end
  end.

(** What [parseWhisperProgress] reports for one line, if anything. *)
Definition whisperProgressOfLine (line : string) : option float :=
  match findProgress line with
  | None => None
  | Some digits =>
      match Atoi digits with
      | None => None
      | Some pct => Some (float_of_int64 pct / 100)%float
      end
  end.

(** The values [parseWhisperProgress] reports, in order, when it reads all
    of [stderr]. *)
Definition parseWhisperProgress (stderr : string) : list float :=
  omap whisperProgressOfLine (scanLines stderr).

Definition ModelSize : Z := 148000000.

(** One call of [resp.Body.Read]: the bytes read, the error, and whether
    writing those bytes to the temporary file succeeds. *)
Inductive ReadErr :=
  | ReadNil
  | ReadEOF
  | ReadOther.

Record ReadStep := mkReadStep {
  readN : Z;
  readErr : ReadErr;
  writeOk : bool
}.

Inductive CopyEnd :=
  | CopyDone
  | CopyWriteError
  | CopyReadError
  | CopyReading.

(** The copy loop of [downloadModel]: the progress reported and how the
    loop ends; [CopyReading] when the reads given do not end it. *)
Fixpoint copyLoop (contentLength : Z) (steps : list ReadStep) (written : Z)
    : list float * CopyEnd :=
  match steps with
  | [] => ([], CopyReading)
  | step :: rest =>
      let after (written : Z) : list float * CopyEnd :=
        match readErr step with
        | ReadEOF => ([], CopyDone)
        | ReadOther => ([], CopyReadError)
        | ReadNil => copyLoop contentLength rest written
        end in
      if 0 <? readN step then
        if writeOk step then
          let written := wrap64 (written + readN step) in
          let pct := (float_of_int64 written / float_of_int64 contentLength)%float in
          let pct := if (1 <? pct)%float then 1%float else pct in
          let '(more, ending) := after written in
          (pct :: more, ending)
        else ([], CopyWriteError)
      else after written
  end.

(** What [downloadModel] meets outside the program. *)
Record Download := mkDownload {
  mkdirOk : bool;
  getOk : bool;
  StatusCode : Z;
  ContentLength : Z;
  tempOk : bool;
  steps : list ReadStep;
  closeOk : bool;
  renameOk : bool
}.

Inductive DownloadResult :=
  | Installed
  | ModelDirFailed
  | ModelGetFailed
  | BadStatus (code : Z)
  | ModelTempFailed
  | ModelWriteFailed
  | ModelReadFailed
  | ModelCloseFailed
  | ModelRenameFailed
  | StillReading.

(** [downloadModel]: the progress reported and the result. *)
Definition downloadModel (d : Download) : list float * DownloadResult :=
  if negb (mkdirOk d) then ([], ModelDirFailed)
  else if negb (getOk d) then ([], ModelGetFailed)
  else if negb (StatusCode d =? 200) then ([], BadStatus (StatusCode d))
  else
    let contentLength :=
      if ContentLength d <=? 0 then ModelSize else ContentLength d in
    if negb (tempOk d) then ([], ModelTempFailed)
    else
      let '(progress, ending) := copyLoop contentLength (steps d) 0 in
      match ending with
      | CopyWriteError => (progress, ModelWriteFailed)
      | CopyReadError => (progress, ModelReadFailed)
      | CopyReading => (progress, StillReading)
      | CopyDone =>
          if negb (closeOk d) then (progress, ModelCloseFailed)
          else if negb (renameOk d) then (progress, ModelRenameFailed)
          else (progress, Installed)
      end.

End Audio.

(** ** Package output *)

Module Output.
Import F64 GoLib.

Record Keyframe := mkKeyframe {
  Index : Z;
  Timestamp : Z;
  Path : string;
}.

Record Segment := mkSegment {
  Start : Z;
  End_ : Z;
  Text : string;
}.

Record Result := mkResult {
  InputPath : string;
  Duration : Z;
  TotalFrames : Z;
  Keyframes : list Keyframe;
  Segments : list Segment;
}.

(** [int(float64(words) * 1.3)] for one segment. *)
Definition segmentTokens (seg : Segment) : Z :=
  let words := Z.of_nat (length (Fields (Text seg))) in
  int_of_float (float_of_int words * 1.3)%float.

Definition EstimateTokens (result : Result) : Z :=
  let tokens := 0 in
  let tokens := wrap64 (tokens + 100) in
  let tokens :=
    fold_left (fun tokens seg => wrap64 (tokens + segmentTokens seg))
              (Segments result) tokens in
  wrap64 (tokens + wrap64 (Z.of_nat (length (Keyframes result)) * 1000)).

(** The sum the function computes, without the wrap-around. *)
Definition wordCount (seg : Segment) : Z := Z.of_nat (length (Fields (Text seg))).

Definition sumTokens (segs : list Segment) : Z :=
  foldr (fun seg acc => segmentTokens seg + acc) 0 segs.

Definition tokensExact (result : Result) : Z :=
  100 + sumTokens (Segments result) + Z.of_nat (length (Keyframes result)) * 1000.

(** No step of [EstimateTokens] leaves the range of [int]: no segment has
    [2^60] words or more (so that [int(float64(words) * 1.3)] is the
    conversion of a value below [2^63]), and the total fits. *)
Definition noOverflow (result : Result) : Prop :=
  Forall (fun seg => wordCount seg < 2 ^ 60) (Segments result)
  /\ tokensExact result <= max_int64.

Definition addSegment (result : Result) (seg : Segment) : Result :=
  {| InputPath := InputPath result; Duration := Duration result;
     TotalFrames := TotalFrames result; Keyframes := Keyframes result;
     Segments := Segments result ++ [seg] |}.

Definition addKeyframe (result : Result) (kf : Keyframe) : Result :=
  {| InputPath := InputPath result; Duration := Duration result;
     TotalFrames := TotalFrames result; Keyframes := Keyframes result ++ [kf];
     Segments := Segments result |}.

(** The sum of [13 * words / 10], rounded down, over the segments. *)
Definition wordTokens (segs : list Segment) : Z :=
  foldr (fun seg acc => 13 * wordCount seg / 10 + acc) 0 segs.

(** [formatDuration] of package output: [M:SS], or [H:MM:SS] from one hour
    on. *)
Definition formatDuration (d : Z) : string :=
  let d := Round d Audio.Second in
  let h := Z.quot d Audio.Hour in
  let d := wrap64 (d - wrap64 (h * Audio.Hour)) in
  let m := Z.quot d Audio.Minute in
  let d := wrap64 (d - wrap64 (m * Audio.Minute)) in
  let s := Z.quot d Audio.Second in
  if 0 <? h then
    (formatInt h ++ ":" ++ formatInt02 m ++ ":" ++ formatInt02 s)%string
  else (formatInt m ++ ":" ++ formatInt02 s)%string.

End Output.

(** ** Package main *)

Module Main.
Import F64 GoLib Audio.

(** The output path [run] uses, [flag] being the value of [-o], and the
    directory it makes for the frames. *)
Definition outputPathOf (flag inputPath : string) : string :=
  if isEmpty flag then
    let ext := Ext inputPath in
    let base := TrimSuffix inputPath ext in
    (base ++ "_memorex.md")%string
  else flag.

Definition framesDirOf (outputPath : string) : string :=
  (TrimSuffix outputPath ".md" ++ "_frames")%string.

(** [time.Duration.Hours], [Minutes] and [Seconds]: the whole units plus
    the fraction the remainder makes. *)
Definition Hours (d : Z) : float :=
  (float_of_int64 (Z.quot d Hour) + float_of_int64 (Z.rem d Hour) / 3600000000000)%float.

Definition Minutes (d : Z) : float :=
  (float_of_int64 (Z.quot d Minute) + float_of_int64 (Z.rem d Minute) / 60000000000)%float.

Definition Seconds (d : Z) : float :=
  (float_of_int64 (Z.quot d Second) + float_of_int64 (Z.rem d Second) / 1000000000)%float.

(** [formatDuration] of package main, for the line printed on the
    terminal. *)
Definition formatDuration (d : Z) : string :=
  let h := int_of_float (Hours d) in
  let m := Z.rem (int_of_float (Minutes d)) 60 in
  let s := Z.rem (int_of_float (Seconds d)) 60 in
  if 0 <? h then
    (formatInt h ++ "h " ++ formatInt m ++ "m " ++ formatInt s ++ "s")%string
  else if 0 <? m then (formatInt m ++ "m " ++ formatInt s ++ "s")%string
  else (formatInt s ++ "s")%string.

End Main.

(** ** The standard output of the recognizer *)

Module Recognizer.
Import F64 GoLib Audio.











End Recognizer.

(** ** Concrete inputs *)

Module Examples.
Import F64 GoLib.

Local Open Scope string_scope.

(** Three frames of four pixels: the first differs from the second (score
    about 0.577), the second and the third are the same image (score 1). *)
Definition pixelsA : list float := [0; 0; 0; 1]%float.
Definition pixelsB : list float := [0; 0; 1; 1]%float.

Definition frame1 : Video.Frame := Video.mkFrame "0001.png" 1 0.
Definition frame2 : Video.Frame := Video.mkFrame "0002.png" 2 1000000000.
Definition frame3 : Video.Frame := Video.mkFrame "0003.png" 3 2000000000.

Definition loader (path : string) : option (list float) :=
  if String.eqb path "0001.png" then Some pixelsA
  else if String.eqb path "0002.png" then Some pixelsB
  else if String.eqb path "0003.png" then Some pixelsB
  else None.

Definition frames123 : list Video.Frame := [frame1; frame2; frame3].

Definition keyframes13 : list Video.Keyframe :=
  [Video.toKeyframe frame1; Video.toKeyframe frame3].
Definition keyframes123 : list Video.Keyframe :=
  [Video.toKeyframe frame1; Video.toKeyframe frame2; Video.toKeyframe frame3].

(** Two constant vectors whose means are rounded in opposite directions. *)
Definition flatC : list float := replicate 3 9007199254740954%float.
Definition flatD : list float := replicate 3 9007199254740958%float.

(** A flat vector and a textured one. *)
Definition flatHalf : list float := [0.5; 0.5; 0.5]%float.
Definition textured : list float := [0; 0; 1]%float.

Definition newline : string := String (byte 10) EmptyString.

Definition helloLine : string := "[00:00:00.000 --> 00:00:03.000]  Hello, world.".

(** A recognizer run that exits successfully, printing [stdout] and
    leaving [file] in its output file. *)
Definition successfulRun (stdout : string) (file : option string) : Audio.WhisperRun :=
  {| Audio.tempFileOk := true; Audio.whisperFound := true; Audio.startOk := true;
     Audio.stdoutBytes := stdout; Audio.exitOk := true; Audio.outputFile := file |}.


Definition helloSegment : Output.Segment :=
  Output.mkSegment 0 3000000000 "Hello, world.".
Definition keyframe1 : Output.Keyframe :=
  Output.mkKeyframe 1 0 "video_memorex_frames/frame_0001.jpg".

Definition emptyResult : Output.Result :=
  {| Output.InputPath := "video.mp4"; Output.Duration := 0; Output.TotalFrames := 0;
     Output.Keyframes := []; Output.Segments := [] |}.


(** A frame whose file is missing. *)
Definition frame4 : Video.Frame := Video.mkFrame "0004.png" 4 3000000000.

(** A line of 65536 bytes. *)
Definition longLine : string := repeatByte "a" (Z.to_nat 65536).

Definition plainRun : Audio.WhisperRun :=
  successfulRun ("Hello, world." ++ newline) (Some (" Hello, world." ++ newline)).

Definition twoSegments : Output.Result :=
  {| Output.InputPath := "video.mp4"; Output.Duration := 0; Output.TotalFrames := 0;
     Output.Keyframes := [keyframe1];
     Output.Segments := [helloSegment; Output.mkSegment 3000000000 4000000000 "Bye."] |}.
Definition twoSegmentsSwapped : Output.Result :=
  {| Output.InputPath := "other.mp4"; Output.Duration := 5; Output.TotalFrames := 9;
     Output.Keyframes := [Output.mkKeyframe 7 6000000000 "frame_0007.jpg"];
     Output.Segments := [Output.mkSegment 3000000000 4000000000 "Bye."; helloSegment] |}.

(** What ffmpeg prints with [-progress pipe:1], in part. *)
Definition ffmpegOutput : string :=
  "frame=5" ++ newline ++ "out_time_us=5000000" ++ newline
    ++ "out_time_us=20000000" ++ newline ++ "progress=end" ++ newline.

(** A red image of two pixels and a black one of four. *)
Definition redImage : Video.Image := Video.mkImage 0 0 2 1 (fun _ _ => (65535, 0, 0)).
Definition blackImage : Video.Image := Video.mkImage 0 0 2 2 (fun _ _ => (0, 0, 0)).

(** A run of [ExtractFrames] that finds two frames, the second listed
    first. *)
Definition twoFiles : list Video.DirEntry := [Video.frameFile 2; Video.frameFile 1].
Definition twoFilesRun : Video.ExtractRun :=
  Video.mkExtractRun (Some "/tmp/memorex-frames-1") true true true (Some twoFiles).

(** A cut through a black frame: the second of three frames is black. *)
Definition fadeLoader (path : string) : option (list float) :=
  if String.eqb path "0002.png" then Some (replicate 4 0%float) else loader path.

(** A download of 32868 bytes from a server that announces no length. *)
Definition shortDownload : Audio.Download :=
  Audio.mkDownload true true 200 (-1) true
    [Audio.mkReadStep 32768 Audio.ReadNil true; Audio.mkReadStep 100 Audio.ReadEOF true]
    true true.

End Examples.

(** * Proofs *)

(** ** Facts about float64 and int *)

Module F64Facts.
Import F64.

Ltac cmp_cases :=
  repeat match goal with
  | H : context [Z.compare ?a ?b] |- _ => destruct (Z.compare_spec a b); simpl in H
  | |- context [Z.compare ?a ?b] => destruct (Z.compare_spec a b); simpl
  | H : context [Pos.compare_cont Eq ?a ?b] |- _ =>
      change (Pos.compare_cont Eq a b) with (Pos.compare a b) in H;
      destruct (Pos.compare_spec a b); simpl in H
  | |- context [Pos.compare_cont Eq ?a ?b] =>
      change (Pos.compare_cont Eq a b) with (Pos.compare a b);
      destruct (Pos.compare_spec a b); simpl
  end.

Lemma SFltb_SFleb_trans (x y z : spec_float) :
  SFltb x y = true -> SFleb y z = true -> SFltb x z = true.
Proof.
  unfold SFltb, SFleb.
  destruct x as [sx|sx| |sx mx ex], y as [sy|sy| |sy my ey], z as [sz|sz| |sz mz ez];
    simpl; try discriminate; try reflexivity;
    try (destruct sx); try (destruct sy); try (destruct sz);
    simpl; try discriminate; try reflexivity;
    intros H1 H2; cmp_cases; try discriminate; try reflexivity; try lia.
Qed.

Lemma SFleb_SFltb_false (x y : spec_float) :
  SFleb y x = true -> SFltb x y = false.
Proof.
  unfold SFltb, SFleb.
  destruct x as [sx|sx| |sx mx ex], y as [sy|sy| |sy my ey];
    simpl; try discriminate; try reflexivity;
    try (destruct sx); try (destruct sy);
    simpl; try discriminate; try reflexivity;
    intros H1; cmp_cases; try discriminate; try reflexivity; try lia.
Qed.

Lemma ltb_leb_trans (x y z : float) :
  (x <? y)%float = true -> (y <=? z)%float = true -> (x <? z)%float = true.
Proof.
  rewrite !ltb_spec, leb_spec. apply SFltb_SFleb_trans.
Qed.

Lemma leb_ltb_false (x y : float) :
  (y <=? x)%float = true -> (x <? y)%float = false.
Proof.
  rewrite ltb_spec, leb_spec. apply SFleb_SFltb_false.
Qed.

Lemma binary_round_aux_sign sx mx ex lx :
  match binary_round_aux prec emax sx mx ex lx with
  | S754_zero s | S754_infinity s | S754_finite s _ _ => s = sx
  | S754_nan => True
  end.
Proof.
  unfold binary_round_aux.
  destruct (shr_fexp prec emax mx ex lx) as [mrs' e'].
  destruct (shr_fexp prec emax _ e' loc_Exact) as [mrs'' e''].
  destruct (shr_m mrs''); [done| |done].
  by destruct (e'' <=? emax - prec)%Z.
Qed.

(** [float64(n)] is never negative. *)
Lemma float_of_int_sign (z : Z) :
  match Prim2SF (float_of_int z) with
  | S754_zero s | S754_infinity s | S754_finite s _ _ => s = false
  | S754_nan => True
  end.
Proof.
  unfold float_of_int. rewrite of_uint63_spec.
  pose proof (Uint63.to_Z_bounded (Uint63.of_Z z)) as [Hge _].
  destruct (Uint63.to_Z (Uint63.of_Z z)) as [|p|p]; [done| |lia].
  unfold binary_normalize, binary_round.
  destruct (shl_align p 0 _) as [mz ez].
  apply binary_round_aux_sign.
Qed.

Lemma sub_diag (c : float) : is_finite c = true -> (c - c)%float = 0%float.
Proof.
  unfold is_finite. intros Hc. apply Prim2SF_inj. rewrite sub_spec.
  destruct (Prim2SF c) as [s|s| |s m e]; try discriminate.
  - by destruct s.
  - unfold SF64sub, SFsub. by rewrite Z.sub_diag.
Qed.

Lemma div_finite_divisor (x y : float) :
  is_finite (x / y)%float = true ->
  match Prim2SF y with
  | S754_zero _ | S754_nan => False
  | _ => True
  end.
Proof.
  unfold is_finite. rewrite div_spec.
  destruct (Prim2SF x) as [sx|sx| |sx mx ex], (Prim2SF y) as [sy|sy| |sy my ey];
    simpl; done.
Qed.

Lemma zero_div (y : float) :
  match Prim2SF y with
  | S754_infinity false | S754_finite false _ _ => True
  | _ => False
  end ->
  (0 / y)%float = 0%float.
Proof.
  intros Hy. apply Prim2SF_inj. rewrite div_spec.
  change (Prim2SF 0%float) with (S754_zero false).
  destruct (Prim2SF y) as [sy|sy| |sy my ey]; try done; by destruct sy.
Qed.

Lemma wrap64_small (z : Z) : min_int64 <= z <= max_int64 -> wrap64 z = z.
Proof.
  unfold wrap64, min_int64, max_int64. intros H.
  rewrite Z.mod_small by lia. lia.
Qed.

Lemma digits2_pos_bound (m : positive) : Zpos m < 2 ^ Zpos (digits2_pos m).
Proof.
  induction m as [m IH|m IH|]; simpl digits2_pos;
    rewrite ?Pos2Z.inj_succ, ?Z.pow_succ_r by lia; lia.
Qed.

Lemma valid_mantissa_bound (s : bool) (m : positive) (e : Z) :
  valid_binary (S754_finite s m e) = true -> Zpos m < 2 ^ 53.
Proof.
  unfold SpecFloat.valid_binary, bounded, canonical_mantissa, fexp.
  intros [Hc _]%andb_true_iff. apply Z.eqb_eq in Hc.
  pose proof (digits2_pos_bound m) as Hm.
  assert (Zpos (digits2_pos m) <= 53) as Hd by (unfold prec in Hc; lia).
  eapply Z.lt_le_trans; [exact Hm|]. by apply Z.pow_le_mono_r.
Qed.

Lemma SFltb_two63 (m : positive) (e : Z) :
  SFltb (S754_finite false m e) (S754_finite false 4503599627370496 11) = true ->
  e < 11 \/ (e = 11 /\ Zpos m < 4503599627370496).
Proof.
  unfold SFltb, SFcompare.
  destruct (Z.compare_spec e 11) as [->|He|He]; [|by left|discriminate].
  intros Hlt. right. split; [done|].
  pose proof (Pos.compare_spec m 4503599627370496) as Hc.
  unfold Pos.compare in Hc.
  destruct Hc as [Hc|Hc|Hc]; [discriminate Hlt| |discriminate Hlt].
  exact Hc.
Qed.

Lemma shiftl_range (m : positive) (e : Z) :
  Zpos m < 2 ^ 53 ->
  e < 11 \/ (e = 11 /\ Zpos m < 4503599627370496) ->
  0 <= Z.shiftl (Zpos m) e < 2 ^ 63.
Proof.
  intros Hm [He|[-> Hm']].
  - destruct (Z.le_gt_cases 0 e) as [H0|H0].
    + rewrite Z.shiftl_mul_pow2 by lia.
      assert (0 < 2 ^ e) by (apply Z.pow_pos_nonneg; lia).
      assert (2 ^ e <= 2 ^ 10) by (apply Z.pow_le_mono_r; lia).
      split; [lia|].
      apply Z.lt_le_trans with (2 ^ 53 * 2 ^ e).
      * apply Z.mul_lt_mono_pos_r; lia.
      * change (2 ^ 63) with (2 ^ 53 * 2 ^ 10). apply Z.mul_le_mono_nonneg_l; lia.
    + rewrite Z.shiftl_div_pow2 by lia.
      assert (0 < 2 ^ (- e)) by (apply Z.pow_pos_nonneg; lia).
      split; [apply Z.div_pos; lia|].
      apply Z.le_lt_trans with (Zpos m); [|lia].
      apply Z.div_le_upper_bound; [lia|]. 
      rewrite <- (Z.mul_1_l (Zpos m)) at 1. apply Z.mul_le_mono_nonneg_r; lia.
  - rewrite Z.shiftl_mul_pow2 by lia. split; [lia|].
    change (2 ^ 63) with (4503599627370496 * 2 ^ 11).
    apply Z.mul_lt_mono_pos_r; lia.
Qed.
(** The conversion [int(f)] of a non-negative float below [2^63]. *)
Lemma int_of_float_range (f : float) :
  match Prim2SF f with
  | S754_zero s | S754_infinity s | S754_finite s _ _ => s = false
  | S754_nan => True
  end ->
  (f <? 0x1p63)%float = true ->
  0 <= int_of_float f <= max_int64.
Proof.
  intros Hs Hlt. rewrite ltb_spec in Hlt.
  pose proof (Prim2SF_valid f) as Hv.
  unfold int_of_float.
  change (Prim2SF 0x1p63%float) with (S754_finite false 4503599627370496 11) in Hlt.
  destruct (Prim2SF f) as [s|s| |s m e]; subst; try discriminate.
  - unfold max_int64. lia.
  - apply valid_mantissa_bound in Hv. apply SFltb_two63 in Hlt.
    pose proof (shiftl_range m e Hv Hlt) as Hr.
    unfold cond_Zopp.
    assert (in_int64 (Z.shiftl (Z.pos m) e) = true) as ->.
    { unfold in_int64, min_int64, max_int64.
      apply andb_true_iff. split; apply Z.leb_le; lia. }
    unfold max_int64. lia.
Qed.

Lemma digits2_pos_lower (m : positive) : 2 ^ (Zpos (digits2_pos m) - 1) <= Zpos m.
Proof.
  induction m as [m IH|m IH|]; simpl digits2_pos; [| |done];
    rewrite Pos2Z.inj_succ;
    replace (Z.succ (Zpos (digits2_pos m)) - 1) with (Z.succ (Zpos (digits2_pos m) - 1)) by lia;
    rewrite Z.pow_succ_r by lia; lia.
Qed.

(** The number of bits of a non-negative integer. *)
Lemma Zdigits2_le (z k : Z) : 0 <= z -> 0 <= k -> (Zdigits2 z <= k <-> z < 2 ^ k).
Proof.
  intros Hz Hk. destruct z as [|p|p]; [| |lia]; simpl.
  - split; [intros _; by apply Z.pow_pos_nonneg|done].
  - pose proof (digits2_pos_bound p) as Hu. pose proof (digits2_pos_lower p) as Hl.
    split.
    + intros Hd. eapply Z.lt_le_trans; [exact Hu|]. by apply Z.pow_le_mono_r.
    + intros Hp. destruct (Z.le_gt_cases (Zpos (digits2_pos p)) k) as [|Hgt]; [done|].
      assert (2 ^ k <= 2 ^ (Zpos (digits2_pos p) - 1)) by (apply Z.pow_le_mono_r; lia).
      lia.
Qed.

Lemma Zdigits2_nonneg (z : Z) : 0 <= Zdigits2 z.
Proof. destruct z; simpl; lia. Qed.

Lemma Zdigits2_succ (z : Z) : 0 <= z -> Zdigits2 (z + 1) <= Zdigits2 z + 1.
Proof.
  intros Hz. pose proof (Zdigits2_nonneg z) as Hd.
  apply Zdigits2_le; [lia|lia|].
  assert (z < 2 ^ Zdigits2 z) by (by apply Zdigits2_le).
  rewrite Z.pow_add_r by lia. lia.
Qed.

Lemma Zdigits2_mono (a b : Z) : 0 <= a <= b -> Zdigits2 a <= Zdigits2 b.
Proof.
  intros [Ha Hab]. pose proof (Zdigits2_nonneg b).
  apply Zdigits2_le; [done|done|].
  assert (b < 2 ^ Zdigits2 b) by (apply Zdigits2_le; lia). lia.
Qed.

Lemma Zdigits2_div (m k : Z) :
  0 <= m -> 0 <= k -> Zdigits2 (m / 2 ^ k) + k <= Z.max (Zdigits2 m) k.
Proof.
  intros Hm Hk. pose proof (Zdigits2_nonneg m) as Hd.
  assert (0 < 2 ^ k) as Hpow by (by apply Z.pow_pos_nonneg).
  assert (m < 2 ^ Zdigits2 m) as Hu by (by apply Zdigits2_le).
  cut (Zdigits2 (m / 2 ^ k) <= Z.max (Zdigits2 m) k - k); [lia|].
  apply Zdigits2_le; [by apply Z.div_pos|lia|].
  apply Z.div_lt_upper_bound; [done|].
  rewrite <- Z.pow_add_r by lia.
  replace (k + (Z.max (Zdigits2 m) k - k)) with (Z.max (Zdigits2 m) k) by lia.
  eapply Z.lt_le_trans; [exact Hu|]. apply Z.pow_le_mono_r; lia.
Qed.

Lemma Zdigits2_mul (a b : positive) :
  Zdigits2 (Zpos (a * b)) <= Zdigits2 (Zpos a) + Zdigits2 (Zpos b).
Proof.
  pose proof (Zdigits2_nonneg (Zpos a)). pose proof (Zdigits2_nonneg (Zpos b)).
  apply Zdigits2_le; [lia|lia|].
  assert (Zpos a < 2 ^ Zdigits2 (Zpos a)) by (apply Zdigits2_le; lia).
  assert (Zpos b < 2 ^ Zdigits2 (Zpos b)) by (apply Zdigits2_le; lia).
  rewrite Z.pow_add_r, Pos2Z.inj_mul by lia. nia.
Qed.

Lemma shr_1_m (r : shr_record) : 0 <= shr_m r -> shr_m (shr_1 r) = shr_m r / 2.
Proof.
  destruct r as [m rb sb]. simpl. intros Hm.
  destruct m as [|[p|p|]|p]; simpl; try lia; try reflexivity.
  - apply (Z.div_unique _ _ _ 1); lia.
  - apply (Z.div_unique _ _ _ 0); lia.
Qed.

Lemma iter_shr_1_m (n : positive) (r : shr_record) :
  0 <= shr_m r -> shr_m (SpecFloat.iter_pos shr_1 n r) = shr_m r / 2 ^ Zpos n.
Proof.
  revert r. induction n as [n IH|n IH|]; intros r Hr; simpl SpecFloat.iter_pos.
  - assert (0 <= shr_m (shr_1 r)) as H1 by (rewrite shr_1_m by done; apply Z.div_pos; lia).
    assert (0 < 2 ^ Zpos n) as Hp by (apply Z.pow_pos_nonneg; lia).
    assert (0 <= shr_m (SpecFloat.iter_pos shr_1 n (shr_1 r))) as H2
      by (rewrite IH by done; apply Z.div_pos; lia).
    rewrite IH, IH, shr_1_m by done.
    rewrite !Z.div_div by lia. f_equal.
    rewrite Pos2Z.inj_xI, Z.pow_add_r, Z.pow_mul_r by lia.
    change (2 ^ 2) with 4. change (2 ^ 1) with 2.
    replace (4 ^ Zpos n) with (2 ^ Zpos n * 2 ^ Zpos n); [lia|].
    rewrite <- Z.pow_add_r by lia. change 4 with (2 ^ 2).
    rewrite <- Z.pow_mul_r by lia. f_equal. lia.
  - assert (0 < 2 ^ Zpos n) as Hp by (apply Z.pow_pos_nonneg; lia).
    assert (0 <= shr_m (SpecFloat.iter_pos shr_1 n r)) as H2
      by (rewrite IH by done; apply Z.div_pos; lia).
    rewrite IH, IH by done. rewrite Z.div_div by lia. f_equal.
    rewrite Pos2Z.inj_xO. rewrite <- Z.pow_add_r by lia. f_equal. lia.
  - by apply shr_1_m.
Qed.

Lemma shr_record_of_loc_m (m : Z) (l : location) : shr_m (shr_record_of_loc m l) = m.
Proof. by destruct l as [|[]]. Qed.

Lemma shr_fexp_spec (m e : Z) (l : location) :
  0 <= m ->
  let e' := Z.max e (fexp prec emax (Zdigits2 m + e)) in
  snd (shr_fexp prec emax m e l) = e'
  /\ shr_m (fst (shr_fexp prec emax m e l)) = m / 2 ^ (e' - e).
Proof.
  intros Hm e'. unfold shr_fexp, shr. subst e'.
  destruct (fexp prec emax (Zdigits2 m + e) - e) as [|p|p] eqn:Hn; simpl.
  - rewrite shr_record_of_loc_m. replace (Z.max _ _ - e) with 0 by lia.
    rewrite Z.div_1_r. split; [lia|done].
  - rewrite iter_shr_1_m by (by rewrite shr_record_of_loc_m).
    rewrite shr_record_of_loc_m. replace (Z.max _ _ - e) with (Zpos p) by lia.
    split; [lia|done].
  - rewrite shr_record_of_loc_m. replace (Z.max _ _ - e) with 0 by lia.
    rewrite Z.div_1_r. split; [lia|done].
Qed.

Lemma round_nearest_even_bounds (m : Z) (l : location) :
  m <= round_nearest_even m l <= m + 1.
Proof. destruct l as [|[]]; simpl; try lia. destruct (Z.even m); lia. Qed.

Lemma fexp_mono (a b : Z) : a <= b -> fexp prec emax a <= fexp prec emax b.
Proof. unfold fexp. lia. Qed.

(** Rounding a non-negative mantissa whose top bit lies at position [K] or
    below: the result is zero or finite, with its top bit at [K + 1] or
    below and its exponent at most [B]. *)
Lemma binary_round_aux_bound (sx : bool) (M E : Z) (lx : location) (K B : Z) :
  0 <= M ->
  Zdigits2 M + E <= K ->
  SpecFloat.emin prec emax <= K ->
  E <= B ->
  fexp prec emax (K + 1) <= B ->
  B <= emax - prec ->
  match binary_round_aux prec emax sx M E lx with
  | S754_zero s => s = sx
  | S754_finite s m e => s = sx /\ Zpos (digits2_pos m) + e <= K + 1 /\ e <= B
  | _ => False
  end.
Proof.
  intros HM HK Hemin HE HB Hmax. unfold binary_round_aux.
  pose proof (shr_fexp_spec M E lx HM) as [He' Hm'].
  destruct (shr_fexp prec emax M E lx) as [mrs' e'] eqn:H1. simpl in He', Hm'.
  rewrite <- He' in Hm'.
  pose proof (Zdigits2_nonneg M) as HdM.
  assert (E <= e') as HEe by lia.
  assert (e' <= B /\ e' <= K) as [He'B He'K].
  { pose proof (fexp_mono (Zdigits2 M + E) (K + 1) ltac:(lia)).
    unfold fexp, SpecFloat.emin, prec, emax in *. lia. }
  assert (0 <= shr_m mrs') as Hm'0
    by (rewrite Hm'; apply Z.div_pos; [done|apply Z.pow_pos_nonneg; lia]).
  assert (Zdigits2 (shr_m mrs') + e' <= K) as HD'.
  { pose proof (Zdigits2_div M (e' - E) HM ltac:(lia)) as Hdiv.
    rewrite <- Hm' in Hdiv. lia. }
  set (m'' := round_nearest_even (shr_m mrs') (loc_of_shr_record mrs')).
  pose proof (round_nearest_even_bounds (shr_m mrs') (loc_of_shr_record mrs')) as Hr.
  fold m'' in Hr.
  assert (0 <= m'') as Hm''0 by lia.
  assert (Zdigits2 m'' + e' <= K + 1) as HD''.
  { pose proof (Zdigits2_mono m'' (shr_m mrs' + 1) ltac:(lia)).
    pose proof (Zdigits2_succ (shr_m mrs') Hm'0). lia. }
  pose proof (shr_fexp_spec m'' e' loc_Exact Hm''0) as [He'' Hm'''].
  destruct (shr_fexp prec emax m'' e' loc_Exact) as [mrs'' e''] eqn:H2.
  simpl in He'', Hm'''. rewrite <- He'' in Hm'''.
  pose proof (Zdigits2_nonneg m'') as Hdm''.
  assert (e' <= e'') as Hee by lia.
  assert (e'' <= B /\ e'' <= K + 1) as [He''B He''K].
  { pose proof (fexp_mono (Zdigits2 m'' + e') (K + 1) ltac:(lia)).
    unfold fexp, SpecFloat.emin, prec, emax in *. lia. }
  assert (Zdigits2 (shr_m mrs'') + e'' <= K + 1) as HD'''.
  { pose proof (Zdigits2_div m'' (e'' - e') Hm''0 ltac:(lia)) as Hdiv.
    rewrite <- Hm''' in Hdiv. lia. }
  assert (0 <= shr_m mrs'') as Hm'''0
    by (rewrite Hm'''; apply Z.div_pos; [done|apply Z.pow_pos_nonneg; lia]).
  destruct (shr_m mrs'') as [|m|m]; [done| |lia].
  assert ((e'' <=? emax - prec) = true) as -> by (apply Z.leb_le; lia).
  simpl in HD'''. done.
Qed.

Lemma digits2_pos_iter_xO (p d : positive) :
  digits2_pos (Pos.iter xO p d) = (digits2_pos p + d)%positive.
Proof.
  induction d as [|d IH] using Pos.peano_ind.
  - simpl. lia.
  - rewrite Pos.iter_succ. simpl. rewrite IH. lia.
Qed.

Lemma shl_align_spec (p : positive) (e t : Z) :
  Zpos (digits2_pos (fst (shl_align p e t))) + snd (shl_align p e t)
    = Zpos (digits2_pos p) + e
  /\ snd (shl_align p e t) <= e.
Proof.
  unfold shl_align. destruct (t - e) as [|d|d] eqn:Hd; simpl; try lia.
  rewrite digits2_pos_iter_xO. lia.
Qed.

(** [float64(w)] for a count below [2^60]: zero, or finite with its top bit
    at position 61 or below. *)
Lemma float_of_int_bound (w : Z) :
  0 <= w < 2 ^ 60 ->
  match Prim2SF (float_of_int w) with
  | S754_zero s => s = false
  | S754_finite s m e => s = false /\ Zpos (digits2_pos m) + e <= 61 /\ e <= 10
  | _ => False
  end.
Proof.
  intros Hw. unfold float_of_int. rewrite of_uint63_spec, Uint63.of_Z_spec.
  change Uint63.wB with (2 ^ 63).
  rewrite Z.mod_small by (split; [lia|]; eapply Z.lt_trans; [apply Hw|done]).
  destruct w as [|p|p]; [done| |lia].
  unfold binary_normalize, binary_round.
  pose proof (shl_align_spec p 0 (fexp prec emax (Zpos (digits2_pos p) + 0))) as [Hd He].
  destruct (shl_align p 0 _) as [mz ez]. simpl in Hd, He.
  assert (Zpos (digits2_pos p) <= 60) as Hp.
  { apply (Zdigits2_le (Zpos p) 60); lia. }
  apply (binary_round_aux_bound false (Zpos mz) ez loc_Exact 60 10);
    simpl; unfold fexp, SpecFloat.emin, prec, emax; lia.
Qed.

(** The conversion of [float64(w) * 1.3] to [int] is in range for every
    count below [2^60]. *)
Lemma scaled_count_fits (w : Z) :
  0 <= w < 2 ^ 60 -> (float_of_int w * 1.3 <? 0x1p63)%float = true.
Proof.
  intros Hw. rewrite ltb_spec, mul_spec.
  change (Prim2SF 1.3%float) with (S754_finite false 5854679515581645 (-52)).
  change (Prim2SF 0x1p63%float) with (S754_finite false 4503599627370496 11).
  pose proof (float_of_int_bound w Hw) as Hx.
  destruct (Prim2SF (float_of_int w)) as [s|s| |s m e]; try done.
  destruct Hx as (-> & Hd & He). unfold SF64mul, SFmul. simpl xorb.
  pose proof (Zdigits2_mul m 5854679515581645) as Hmul.
  change (Zdigits2 (Zpos 5854679515581645)) with 53 in Hmul. simpl Zdigits2 in Hmul.
  pose proof (binary_round_aux_bound false (Zpos (m * 5854679515581645)) (e + -52)
                loc_Exact 62 10) as Hb.
  simpl Zdigits2 in Hb.
  specialize (Hb ltac:(lia) ltac:(lia)
                 ltac:(unfold SpecFloat.emin, prec, emax; lia) ltac:(lia)
                 ltac:(unfold fexp, SpecFloat.emin, prec, emax; lia)
                 ltac:(unfold prec, emax; lia)).
  destruct (binary_round_aux prec emax false _ _ loc_Exact) as [s'|s'| |s' m' e'];
    try done.
  destruct Hb as (-> & _ & He'). unfold SFltb, SFcompare.
  by destruct (Z.compare_spec e' 11); [lia| |lia].
Qed.

Lemma mul_sign (x y : float) :
  match Prim2SF x with
  | S754_zero s | S754_infinity s | S754_finite s _ _ => s = false
  | S754_nan => True
  end ->
  match Prim2SF y with
  | S754_zero s | S754_infinity s | S754_finite s _ _ => s = false
  | S754_nan => True
  end ->
  match Prim2SF (x * y)%float with
  | S754_zero s | S754_infinity s | S754_finite s _ _ => s = false
  | S754_nan => True
  end.
Proof.
  rewrite mul_spec. unfold SF64mul.
  destruct (Prim2SF x) as [sx|sx| |sx mx ex], (Prim2SF y) as [sy|sy| |sy my ey];
    simpl; intros; subst; try done.
  apply (binary_round_aux_sign false).
Qed.

End F64Facts.

(** ** Facts about lists *)

Module ListFacts.

Lemma sublist_same_length {A} (l1 l2 : list A) :
  l1 `sublist_of` l2 -> (length l2 <= length l1)%nat -> l1 = l2.
Proof.
  induction 1 as [|x l1 l2 _ IH|x l1 l2 Hsub IH]; simpl; intros Hlen.
  - done.
  - f_equal. apply IH. lia.
  - apply sublist_length in Hsub. lia.
Qed.


Lemma List_last_elem_of {A} (x : A) (l : list A) (d : A) : List.last (x :: l) d ∈ x :: l.
Proof.
  revert x. induction l as [|y l IH]; intros x; simpl.
  - apply list_elem_of_here.
  - apply list_elem_of_further. apply IH.
Qed.

Lemma List_last_snoc {A} (l : list A) (x d : A) : List.last (l ++ [x]) d = x.
Proof. induction l as [|y [|z l] IH]; simpl in *; done. Qed.

Lemma List_last_cons_default {A} (x : A) (l : list A) (d1 d2 : A) :
  List.last (x :: l) d1 = List.last (x :: l) d2.
Proof. revert x. induction l as [|y l IH]; intros x; [done|]. apply (IH y). Qed.

Lemma last_List_last {A} (x : A) (l : list A) (d : A) :
  last (x :: l) = Some (List.last (x :: l) d).
Proof. revert x. induction l as [|y l IH]; intros x; [done|]. apply (IH y). Qed.

End ListFacts.

(** ** Package video: the similarity score and the keyframe selector *)

Module VideoProofs.
Import F64 F64Facts ListFacts Video Examples.
Local Open Scope float_scope.

Lemma sumLoop_spec (a b : list float) (sumA sumB : float) :
  length a = length b ->
  sumLoop a b sumA sumB = (fold_left PrimFloat.add a sumA, fold_left PrimFloat.add b sumB).
Proof.
  revert b sumA sumB.
  induction a as [|x a IH]; intros [|y b] sumA sumB Hlen; simpl in *; try done.
  apply IH. lia.
Qed.

Lemma devLoop_sq (a b : list float) (meanA meanB sumProduct sumSqA sumSqB : float) :
  length a = length b ->
  snd (fst (devLoop a b meanA meanB sumProduct sumSqA sumSqB))
    = fold_left (sqStep meanA) a sumSqA
  /\ snd (devLoop a b meanA meanB sumProduct sumSqA sumSqB)
    = fold_left (sqStep meanB) b sumSqB.
Proof.
  revert b sumProduct sumSqA sumSqB.
  induction a as [|x a IH]; intros [|y b] sumProduct sumSqA sumSqB Hlen;
    simpl in *; try done.
  apply IH. lia.
Qed.

(** Past the length guard, the two deviations decide the early return. *)
Lemma ncc_flat (a b : list float) :
  length a = length b ->
  a <> [] ->
  (stdOf a <? 1e-10) = true \/ (stdOf b <? 1e-10) = true ->
  normalizedCrossCorrelation a b = 1.
Proof.
  intros Hlen Hne Hflat. unfold normalizedCrossCorrelation.
  rewrite (proj2 (Nat.eqb_eq _ _) Hlen). simpl.
  destruct (length a =? 0)%nat eqn:Hz.
  { apply Nat.eqb_eq in Hz. by destruct a. }
  rewrite sumLoop_spec by done.
  destruct (devLoop a b _ _ 0 0 0) as [[sp sqa] sqb] eqn:Hdev.
  pose proof (devLoop_sq a b
    (fold_left PrimFloat.add a 0 / float_of_int (Z.of_nat (length a)))
    (fold_left PrimFloat.add b 0 / float_of_int (Z.of_nat (length a))) 0 0 0 Hlen) as [HA HB].
  rewrite Hdev in HA, HB. simpl in HA, HB. subst sqa sqb.
  unfold stdOf, meanOf, sumOf, sumSqOf in Hflat. rewrite <- Hlen in Hflat.
  destruct Hflat as [-> | ->]; [done|]. by rewrite orb_true_r.
Qed.

Lemma sumSq_replicate (n : nat) (c : float) :
  is_finite c = true -> fold_left (sqStep c) (replicate n c) 0 = 0.
Proof.
  intros Hc. induction n as [|n IH]; [done|]. simpl.
  unfold sqStep at 2. by rewrite (sub_diag c Hc).
Qed.

Lemma std_replicate (n : nat) (c : float) :
  is_finite c = true ->
  meanOf (replicate n c) = c ->
  stdOf (replicate n c) = 0.
Proof.
  intros Hc Hmean. unfold stdOf, sumSqOf. rewrite Hmean.
  rewrite sumSq_replicate by done.
  rewrite zero_div; [done|].
  rewrite <- Hmean in Hc. unfold meanOf in Hc.
  apply div_finite_divisor in Hc.
  pose proof (float_of_int_sign (Z.of_nat (length (replicate n c)))) as Hs.
  destruct (Prim2SF (float_of_int _)) as [s|s| |s m e]; try done; by subst s.
Qed.

Lemma changedFrames_snoc t prev fvs fr v :
  changedFrames t prev (fvs ++ [(fr, v)])
  = changedFrames t prev fvs
    ++ (if (normalizedCrossCorrelation (List.last (map snd fvs) prev) v <? t)%float
        then [fr] else []).
Proof.
  revert prev. induction fvs as [|[f w] fvs IH]; intros prev; simpl.
  - by rewrite app_nil_r.
  - rewrite IH, <- app_assoc. f_equal. f_equal.
    destruct (map snd fvs) as [|w' ws]; [done|].
    by rewrite (List_last_cons_default w' ws w prev).
Qed.

Lemma lastIndexDiffers_snoc (picked : list Keyframe) (lastFrame : Frame) :
  lastIndexDiffers (picked ++ [toKeyframe lastFrame]) lastFrame = false.
Proof.
  unfold lastIndexDiffers. rewrite List_last_snoc, length_app. simpl.
  rewrite Z.eqb_refl. simpl. rewrite orb_false_r. apply Nat.eqb_neq. lia.
Qed.

(** Membership in [changedFrames], position by position: the vector before
    position [i] is that of the frame just before it in the stream. *)
Lemma changedFrames_lookup (t : float) (v0 : list float) (mid : list Frame)
    (vmid : list (list float)) (fr : Frame) :
  length mid = length vmid ->
  fr ∈ changedFrames t v0 (zip mid vmid)
  <-> exists (i : nat) (vprev v : list float),
        mid !! i = Some fr /\ (v0 :: vmid) !! i = Some vprev /\ vmid !! i = Some v
        /\ (normalizedCrossCorrelation vprev v <? t)%float = true.
Proof.
  revert v0 vmid. induction mid as [|f mid IH]; intros v0 [|w vmid] Hlen;
    simpl in Hlen; try discriminate.
  - simpl. split; [by intros ?%elem_of_nil|]. by intros (i & ? & ? & ? & _).
  - simpl. rewrite elem_of_app, (IH w vmid) by lia. split.
    + intros [Hhere|(i & vprev & v & H1 & H2 & H3 & H4)].
      * destruct (normalizedCrossCorrelation v0 w <? t)%float eqn:Hs;
          [|by apply elem_of_nil in Hhere].
        apply list_elem_of_singleton in Hhere as ->. by exists 0%nat, v0, w.
      * by exists (S i), vprev, v.
    + intros ([|i] & vprev & v & H1 & H2 & H3 & H4); simpl in *.
      * simplify_eq. left. rewrite H4. apply list_elem_of_here.
      * right. by exists i, vprev, v.
Qed.

Section Detect.
Variable load : string -> option (list float).

Lemma compareLoop_spec t prev rest vs i kfs :
  loadsTo load rest vs ->
  compareLoop load t prev rest i kfs
  = Ok (kfs ++ map toKeyframe (changedFrames t prev (zip rest vs))).
Proof.
  intros H. revert t prev i kfs.
  induction H as [|fr v rest vs Hfr _ IH]; intros t prev i kfs; simpl.
  - by rewrite app_nil_r.
  - rewrite Hfr. rewrite IH.
    destruct (normalizedCrossCorrelation prev v <? t)%float; simpl.
    + by rewrite <- app_assoc.
    + done.
Qed.

Lemma compareLoop_loads t prev rest i kfs out :
  compareLoop load t prev rest i kfs = Ok out -> exists vs, loadsTo load rest vs.
Proof.
  revert prev i kfs.
  induction rest as [|fr rest IH]; intros prev i kfs; simpl.
  - intros _. exists []. constructor.
  - destruct (load (FramePath fr)) as [v|] eqn:Hfr; [|discriminate].
    intros H. apply IH in H as [vs Hvs].
    exists (v :: vs). by constructor.
Qed.

Lemma changedFrames_sublist t prev rest vs :
  length rest = length vs ->
  changedFrames t prev (zip rest vs) `sublist_of` rest.
Proof.
  revert prev vs.
  induction rest as [|fr rest IH]; intros prev [|v vs] Hlen; simpl in *;
    try discriminate; [constructor|].
  destruct (normalizedCrossCorrelation prev v <? t)%float; simpl.
  - apply sublist_skip. apply IH. lia.
  - apply sublist_cons. apply IH. lia.
Qed.

Lemma changedFrames_mono t1 t2 prev fvs :
  (t1 <=? t2)%float = true ->
  changedFrames t1 prev fvs `sublist_of` changedFrames t2 prev fvs.
Proof.
  intros Ht. revert prev.
  induction fvs as [|[fr v] fvs IH]; intros prev; simpl; [constructor|].
  destruct (normalizedCrossCorrelation prev v <? t1)%float eqn:H1.
  - rewrite (ltb_leb_trans _ _ _ H1 Ht). simpl. by apply sublist_skip.
  - destruct (normalizedCrossCorrelation prev v <? t2)%float; simpl; [|done].
    by apply sublist_cons.
Qed.

(** The outcome of [DetectKeyframes] on two frames or more, once every
    frame loads. *)
Lemma DetectKeyframes_spec t first rest v0 vs :
  rest <> [] ->
  load (FramePath first) = Some v0 ->
  loadsTo load rest vs ->
  let picked := toKeyframe first :: map toKeyframe (changedFrames t v0 (zip rest vs)) in
  let lastFrame := List.last (first :: rest) first in
  DetectKeyframes load (first :: rest) t
  = Ok (closing picked lastFrame).
Proof.
  intros Hne H0 Hvs. cbv zeta.
  unfold DetectKeyframes.
  destruct rest as [|f1 rest']; [done|].
  change (length (first :: f1 :: rest') =? 1)%nat with false. cbv iota.
  rewrite H0. rewrite (compareLoop_spec _ _ _ vs) by done.
  change ([toKeyframe first] ++ ?l) with (toKeyframe first :: l).
  unfold closing. by destruct (lastIndexDiffers _ _).
Qed.

Lemma DetectKeyframes_loads t first rest out :
  rest <> [] ->
  DetectKeyframes load (first :: rest) t = Ok out ->
  exists v0 vs, load (FramePath first) = Some v0 /\ loadsTo load rest vs.
Proof.
  intros Hne. unfold DetectKeyframes.
  destruct rest as [|f1 rest']; [done|].
  change (length (first :: f1 :: rest') =? 1)%nat with false. cbv iota.
  destruct (load (FramePath first)) as [v0|]; [|discriminate].
  destruct (compareLoop _ _ _ _ _ _) as [k|e] eqn:Hloop; [|discriminate].
  intros _. apply compareLoop_loads in Hloop as [vs Hvs]. by exists v0, vs.
Qed.

Lemma closing_length_mono (k : Keyframe) (c1 c2 : list Keyframe) (lastFrame : Frame) :
  c1 `sublist_of` c2 ->
  (length (closing (k :: c1) lastFrame) <= length (closing (k :: c2) lastFrame))%nat.
Proof.
  intros Hsub. pose proof (sublist_length _ _ Hsub) as Hlen.
  destruct (decide (length c2 <= length c1)%nat) as [Hle|Hgt].
  - by rewrite (sublist_same_length _ _ Hsub Hle).
  - unfold closing.
    destruct (lastIndexDiffers (k :: c1) lastFrame), (lastIndexDiffers (k :: c2) lastFrame);
      rewrite ?length_app; simpl; lia.
Qed.

Lemma detect_length_le (frames : list Frame) (t1 t2 : float) (k1 k2 : list Keyframe) :
  (t1 <=? t2)%float = true ->
  DetectKeyframes load frames t1 = Ok k1 ->
  DetectKeyframes load frames t2 = Ok k2 ->
  (length k1 <= length k2)%nat.
Proof.
  intros Ht H1 H2.
  destruct frames as [|first rest]; [by simplify_eq/=|].
  destruct (decide (rest = [])) as [->|Hne]; [by simplify_eq/=|].
  destruct (DetectKeyframes_loads _ _ _ _ Hne H1) as (v0 & vs & H0 & Hvs).
  rewrite (DetectKeyframes_spec t1 _ _ v0 vs) in H1 by done.
  rewrite (DetectKeyframes_spec t2 _ _ v0 vs) in H2 by done.
  simplify_eq. apply closing_length_mono.
  apply fmap_sublist, changedFrames_mono, Ht.
Qed.

Lemma detect_success_any_threshold (frames : list Frame) (t1 t2 : float) (k1 : list Keyframe) :
  DetectKeyframes load frames t1 = Ok k1 ->
  exists k2, DetectKeyframes load frames t2 = Ok k2.
Proof.
  intros H1.
  destruct frames as [|first rest]; [by eexists|].
  destruct (decide (rest = [])) as [->|Hne]; [by eexists|].
  destruct (DetectKeyframes_loads _ _ _ _ Hne H1) as (v0 & vs & H0 & Hvs).
  rewrite (DetectKeyframes_spec t2 _ _ v0 vs) by done. by eexists.
Qed.

(** C2. Selector monotonicity: with the frames fixed and [t1 <= t2], when
    detection at [t1] returns keyframes, detection at [t2] returns at
    least as many. *)
Theorem detect_count_monotone (frames : list Frame) (t1 t2 : float) (k1 : list Keyframe) :
  (t1 <=? t2)%float = true ->
  DetectKeyframes load frames t1 = Ok k1 ->
  exists k2, DetectKeyframes load frames t2 = Ok k2 /\ (length k1 <= length k2)%nat.
Proof.
  intros Ht H1.
  destruct (detect_success_any_threshold frames t1 t2 k1 H1) as [k2 H2].
  exists k2. split; [done|]. by apply (detect_length_le frames t1 t2).
Qed.

(** C1 (amended). Threshold direction: raising the threshold lets fewer
    comparisons pass as similar.  For [t1 <= t2], a score below [t1] is
    below [t2]; the frames the loop picks at [t1] are a subsequence of
    those it picks at [t2]; and when detection at the higher threshold
    returns keyframes, detection at the lower threshold returns no more
    of them. *)
Theorem threshold_direction (frames : list Frame) (t1 t2 : float) :
  (t1 <=? t2)%float = true ->
  (forall a b : list float,
      (normalizedCrossCorrelation a b <? t1)%float = true ->
      (normalizedCrossCorrelation a b <? t2)%float = true)
  /\ (forall prev fvs, changedFrames t1 prev fvs `sublist_of` changedFrames t2 prev fvs)
  /\ (forall k2, DetectKeyframes load frames t2 = Ok k2 ->
        exists k1, DetectKeyframes load frames t1 = Ok k1 /\ (length k1 <= length k2)%nat).
Proof.
  intros Ht. split; [|split].
  - intros a b H. by apply (ltb_leb_trans _ t1).
  - intros prev fvs. by apply changedFrames_mono.
  - intros k2 H2.
    destruct (detect_success_any_threshold frames t2 t1 k2 H2) as [k1 H1].
    exists k1. split; [done|]. by apply (detect_length_le frames t1 t2).
Qed.

Lemma DetectKeyframes_snoc t first mid lastFrame v0 vmid vlast :
  load (FramePath first) = Some v0 ->
  loadsTo load mid vmid ->
  load (FramePath lastFrame) = Some vlast ->
  DetectKeyframes load (first :: mid ++ [lastFrame]) t
  = Ok (closing
          (toKeyframe first
           :: map toKeyframe
                (changedFrames t v0 (zip mid vmid)
                 ++ (if (normalizedCrossCorrelation (List.last vmid v0) vlast <? t)%float
                     then [lastFrame] else [])))
          lastFrame).
Proof.
  intros H0 Hmid Hlast.
  assert (loadsTo load (mid ++ [lastFrame]) (vmid ++ [vlast])) as Hrest.
  { apply Forall2_app; [done|]. by repeat constructor. }
  assert (mid ++ [lastFrame] <> []) as Hne by (by destruct mid).
  rewrite (DetectKeyframes_spec t first _ v0 _ Hne H0 Hrest).
  cbv zeta. rewrite app_comm_cons, List_last_snoc.
  rewrite zip_with_app by (by eapply Forall2_length).
  simpl zip_with. rewrite changedFrames_snoc.
  rewrite snd_zip by (apply Forall2_length in Hmid; lia).
  done.
Qed.

Lemma changedFrames_elem_of t v0 fvs fr :
  fr ∈ changedFrames t v0 fvs -> fr ∈ map fst fvs.
Proof.
  revert v0. induction fvs as [|[f w] fvs IH]; intros v0; simpl.
  - by intros ?%elem_of_nil.
  - intros [Hx|Hx]%elem_of_app.
    + destruct (_ <? _)%float; [|by apply elem_of_nil in Hx].
      apply list_elem_of_singleton in Hx as ->. apply list_elem_of_here.
    + apply list_elem_of_further. by eapply IH.
Qed.

Lemma picked_index_elem_of t first v0 fvs :
  Index (List.last (toKeyframe first :: map toKeyframe (changedFrames t v0 fvs))
                   (toKeyframe first))
  ∈ map FrameIndex (first :: map fst fvs).
Proof.
  pose proof (List_last_elem_of (toKeyframe first)
                (map toKeyframe (changedFrames t v0 fvs)) (toKeyframe first)) as Hin.
  apply elem_of_cons in Hin as [->|Hin]; [apply list_elem_of_here|].
  apply list_elem_of_further.
  apply list_elem_of_fmap in Hin as (fr & -> & Hfr).
  apply list_elem_of_fmap. exists fr. split; [done|].
  by eapply changedFrames_elem_of.
Qed.

(** With the last frame's index not carried by an earlier frame, the closing
    step always leaves the last frame at the end. *)
Lemma DetectKeyframes_fresh_last (t : float) (first : Frame) (mid : list Frame) (lastFrame : Frame)
    (v0 : list float) (vmid : list (list float)) (vlast : list float) :
  load (FramePath first) = Some v0 ->
  loadsTo load mid vmid ->
  load (FramePath lastFrame) = Some vlast ->
  FrameIndex lastFrame ∉ map FrameIndex (first :: mid) ->
  DetectKeyframes load (first :: mid ++ [lastFrame]) t
  = Ok (toKeyframe first
        :: map toKeyframe (changedFrames t v0 (zip mid vmid))
        ++ [toKeyframe lastFrame]).
Proof.
  intros H0 Hmid Hlast Hfresh.
  rewrite (DetectKeyframes_snoc t first mid lastFrame v0 vmid vlast) by done.
  f_equal. unfold closing.
  destruct (normalizedCrossCorrelation (List.last vmid v0) vlast <? t)%float.
  - rewrite map_app. simpl map. rewrite app_comm_cons.
    by rewrite lastIndexDiffers_snoc.
  - rewrite app_nil_r.
    assert (lastIndexDiffers
              (toKeyframe first :: map toKeyframe (changedFrames t v0 (zip mid vmid)))
              lastFrame = true) as ->; [|done].
    unfold lastIndexDiffers. apply orb_true_iff. right.
    apply negb_true_iff, Z.eqb_neq. intros Heq. apply Hfresh.
    rewrite <- Heq.
    rewrite (List_last_cons_default _ _ _ (toKeyframe first)).
    pose proof (picked_index_elem_of t first v0 (zip mid vmid)) as Hin.
    rewrite fst_zip in Hin by (apply Forall2_length in Hmid; lia).
    exact Hin.
Qed.

Lemma DetectKeyframes_snoc_inv t first mid lastFrame kfs :
  DetectKeyframes load (first :: mid ++ [lastFrame]) t = Ok kfs ->
  exists v0 vmid vlast,
    load (FramePath first) = Some v0 /\ loadsTo load mid vmid
    /\ load (FramePath lastFrame) = Some vlast.
Proof.
  intros H.
  assert (mid ++ [lastFrame] <> []) as Hne by (by destruct mid).
  destruct (DetectKeyframes_loads _ _ _ _ Hne H) as (v0 & vs & H0 & Hvs).
  apply Forall2_app_inv_l in Hvs as (vmid & vl & Hmid & Hl & ->).
  inversion Hl as [|? vlast ? ? Hlast Hnil]; subst.
  by exists v0, vmid, vlast.
Qed.

(** C4. Selector boundary: no frame gives no keyframe and no error; one
    frame gives that frame as the only keyframe; and when detection over
    two frames or more returns keyframes, the first of them is the first
    frame, the last of them carries the index of the last frame, and it is
    the last frame itself when no earlier frame carries that index. *)
Theorem selector_boundary (t : float) :
  DetectKeyframes load [] t = Ok []
  /\ (forall f, DetectKeyframes load [f] t = Ok [toKeyframe f])
  /\ (forall first mid lastFrame kfs,
        DetectKeyframes load (first :: mid ++ [lastFrame]) t = Ok kfs ->
        head kfs = Some (toKeyframe first)
        /\ (exists k, last kfs = Some k /\ Index k = FrameIndex lastFrame)
        /\ (FrameIndex lastFrame ∉ map FrameIndex (first :: mid) ->
            last kfs = Some (toKeyframe lastFrame))).
Proof.
  split; [done|]. split; [done|].
  intros first mid lastFrame kfs H.
  destruct (DetectKeyframes_snoc_inv t _ _ _ _ H) as (v0 & vmid & vlast & H0 & Hmid & Hlast).
  split; [|split].
  - rewrite (DetectKeyframes_snoc t first mid lastFrame v0 vmid vlast) in H by done.
    simplify_eq. unfold closing. by destruct (lastIndexDiffers _ _).
  - rewrite (DetectKeyframes_snoc t first mid lastFrame v0 vmid vlast) in H by done.
    simplify_eq. unfold closing.
    match goal with |- context [lastIndexDiffers ?p _] => set (picked := p) end.
    destruct (lastIndexDiffers picked lastFrame) eqn:Hd.
    + exists (toKeyframe lastFrame). by rewrite last_snoc.
    + exists (List.last picked (toKeyframe lastFrame)). split.
      * apply last_List_last.
      * unfold lastIndexDiffers in Hd. apply orb_false_iff in Hd as [_ Hd].
        by apply negb_false_iff, Z.eqb_eq in Hd.
  - intros Hfresh.
    rewrite (DetectKeyframes_fresh_last t first mid lastFrame v0 vmid vlast) in H by done.
    simplify_eq. by rewrite app_comm_cons, last_snoc.
Qed.

(** The keyframes are the images of a subsequence of the frames. *)
Lemma detect_sublist (frames : list Frame) (t : float) (kfs : list Keyframe) :
  DetectKeyframes load frames t = Ok kfs ->
  exists sel, kfs = map toKeyframe sel /\ sel `sublist_of` frames.
Proof.
  intros H.
  destruct frames as [|first rest]; [exists []; by simplify_eq/=|].
  destruct (decide (rest = [])) as [->|Hne]; [exists [first]; by simplify_eq/=|].
  destruct (exists_last Hne) as (mid & lastFrame & ->).
  destruct (DetectKeyframes_snoc_inv t _ _ _ _ H) as (v0 & vmid & vlast & H0 & Hmid & Hlast).
  rewrite (DetectKeyframes_snoc t first mid lastFrame v0 vmid vlast) in H by done.
  simplify_eq. unfold closing.
  pose proof (changedFrames_sublist t v0 mid vmid (Forall2_length _ _ _ Hmid)) as Hsub.
  destruct (normalizedCrossCorrelation (List.last vmid v0) vlast <? t)%float.
  - rewrite map_app. simpl map. rewrite app_comm_cons, lastIndexDiffers_snoc.
    exists (first :: changedFrames t v0 (zip mid vmid) ++ [lastFrame]).
    split; [by rewrite <- app_comm_cons; simpl; rewrite map_app|].
    apply sublist_skip. by apply sublist_app.
  - rewrite app_nil_r. destruct (lastIndexDiffers _ _).
    + exists (first :: changedFrames t v0 (zip mid vmid) ++ [lastFrame]).
      split; [by simpl; rewrite map_app|].
      apply sublist_skip. by apply sublist_app.
    + exists (first :: changedFrames t v0 (zip mid vmid)).
      split; [done|]. apply sublist_skip. by apply sublist_inserts_r.
Qed.


(** C3 (amended). Selection rule: with two frames or more, all loading and
    with distinct indices, the keyframes are the first frame, then those
    frames strictly between the first and the last that are picked, then
    the last frame, whatever its score; and a frame strictly between the
    first and the last is a keyframe exactly when its score against the
    frame just before it in the stream (not the previous keyframe) is
    strictly below the threshold. *)
Theorem selection_rule (t : float) (first : Frame) (mid : list Frame)
    (lastFrame : Frame) (v0 : list float) (vmid : list (list float)) (vlast : list float) :
  load (FramePath first) = Some v0 ->
  loadsTo load mid vmid ->
  load (FramePath lastFrame) = Some vlast ->
  NoDup (map FrameIndex (first :: mid ++ [lastFrame])) ->
  exists kfs : list Keyframe,
    DetectKeyframes load (first :: mid ++ [lastFrame]) t = Ok kfs
    /\ kfs = toKeyframe first
             :: map toKeyframe (changedFrames t v0 (zip mid vmid))
             ++ [toKeyframe lastFrame]
    /\ toKeyframe lastFrame ∈ kfs
    /\ forall (i : nat) (fr : Frame) (vprev v : list float),
         mid !! i = Some fr -> (v0 :: vmid) !! i = Some vprev -> vmid !! i = Some v ->
         (toKeyframe fr ∈ kfs <-> (normalizedCrossCorrelation vprev v <? t)%float = true).
Proof.
  intros H0 Hmid Hlast Hnd.
  assert (FrameIndex lastFrame ∉ map FrameIndex (first :: mid)) as Hfresh.
  { rewrite app_comm_cons, map_app in Hnd. apply NoDup_app in Hnd as (_ & Hdis & _).
    intros Hin. apply (Hdis _ Hin). apply list_elem_of_here. }
  eexists. split; [by apply (DetectKeyframes_fresh_last t first mid lastFrame v0 vmid vlast)|].
  split; [done|].
  split; [apply list_elem_of_further, elem_of_app; right; apply list_elem_of_here|].
  intros i fr vprev v Hi Hprev Hv.
  pose proof (Forall2_length _ _ _ Hmid) as Hlen.
  simpl in Hnd. apply NoDup_cons in Hnd as [Hfirst Hnd].
  rewrite map_app in Hfirst, Hnd. apply NoDup_app in Hnd as (Hndmid & Hdis & _).
  assert (FrameIndex fr ∈ map FrameIndex mid) as Hfr.
  { apply list_elem_of_fmap. exists fr. split; [done|]. by eapply list_elem_of_lookup_2. }
  split.
  - intros [Heq|[Hin|Hin]%elem_of_app]%elem_of_cons.
    + exfalso. apply Hfirst. apply elem_of_app. left.
      replace (FrameIndex first) with (FrameIndex fr); [done|].
      by apply (f_equal Index) in Heq.
    + apply list_elem_of_fmap in Hin as (fr' & Heq & Hin).
      apply changedFrames_lookup in Hin as (j & vprev' & v' & Hj & Hprev' & Hv' & Hs);
        [|done].
      assert (i = j) as ->.
      { apply (NoDup_lookup (map FrameIndex mid) i j (FrameIndex fr)); [done| |].
        - by rewrite list_lookup_fmap, Hi.
        - rewrite list_lookup_fmap, Hj. simpl. f_equal.
          by apply (f_equal Index) in Heq. }
      by simplify_eq.
    + exfalso. apply list_elem_of_singleton in Hin.
      apply (Hdis _ Hfr). replace (FrameIndex fr) with (FrameIndex lastFrame).
      * apply list_elem_of_here.
      * by apply (f_equal Index) in Hin.
  - intros Hs. apply list_elem_of_further, elem_of_app. left.
    apply list_elem_of_fmap_2. apply changedFrames_lookup; [done|].
    by exists i, vprev, v.
Qed.

End Detect.

(** C10. A vector with a deviation below [1e-10] scores exactly 1 against
    any vector of its length, whatever the deviation of the other; no
    threshold [t <= 1] is above that score, and the loop step of such a
    comparison leaves the keyframes as they were. *)
Theorem flat_vector_scores_one (a b : list float) :
  length a = length b ->
  a <> [] ->
  (stdOf a <? 1e-10) = true \/ (stdOf b <? 1e-10) = true ->
  normalizedCrossCorrelation a b = 1
  /\ (forall t : float, (t <=? 1) = true -> (normalizedCrossCorrelation a b <? t) = false)
  /\ (forall load t fr rest i kfs,
        (t <=? 1) = true ->
        load (FramePath fr) = Some b ->
        compareLoop load t a (fr :: rest) i kfs = compareLoop load t b rest (S i) kfs).
Proof.
  intros Hlen Hne Hflat.
  pose proof (ncc_flat a b Hlen Hne Hflat) as Hone.
  split; [done|]. split.
  - intros t Ht. rewrite Hone. by apply leb_ltb_false.
  - intros load t fr rest i kfs Ht Hload. simpl.
    rewrite Hload, Hone. by rewrite (leb_ltb_false 1 t Ht).
Qed.

Lemma flat_vector_scores_one_witness :
  normalizedCrossCorrelation flatHalf textured = 1
  /\ (forall t : float, (t <=? 1) = true ->
        (normalizedCrossCorrelation flatHalf textured <? t) = false)
  /\ (forall load t fr rest i kfs,
        (t <=? 1) = true ->
        load (FramePath fr) = Some textured ->
        compareLoop load t flatHalf (fr :: rest) i kfs
        = compareLoop load t textured rest (S i) kfs).
Proof.
  apply (flat_vector_scores_one flatHalf textured);
    [reflexivity | discriminate | left; reflexivity].
Defined.

Example stdOf_textured : (stdOf textured <? 1e-10) = false.
Proof. reflexivity. Qed.
(** The three example frames at two thresholds. *)
Example detect_frames123 :
  DetectKeyframes loader frames123 0.5 = Ok keyframes13
  /\ DetectKeyframes loader frames123 0.85 = Ok keyframes123.
Proof. split; vm_compute; reflexivity. Qed.

Lemma detect_count_monotone_witness :
  exists k2, DetectKeyframes loader frames123 0.85 = Ok k2
             /\ (length keyframes13 <= length k2)%nat.
Proof.
  apply (detect_count_monotone loader frames123 0.5 0.85 keyframes13);
    vm_compute; reflexivity.
Defined.

Lemma threshold_direction_witness :
  (forall a b : list float,
      (normalizedCrossCorrelation a b <? 0.5) = true ->
      (normalizedCrossCorrelation a b <? 0.85) = true)
  /\ (forall prev fvs, changedFrames 0.5 prev fvs `sublist_of` changedFrames 0.85 prev fvs)
  /\ (forall k2, DetectKeyframes loader frames123 0.85 = Ok k2 ->
        exists k1, DetectKeyframes loader frames123 0.5 = Ok k1
                   /\ (length k1 <= length k2)%nat).
Proof.
  apply (threshold_direction loader frames123 0.5 0.85). vm_compute. reflexivity.
Defined.

(** C1, as stated, fails: on the three example frames the higher threshold
    gives three keyframes and the lower one two. *)
Lemma higher_threshold_more_keyframes :
  ~ (forall (load : string -> option (list float)) (frames : list Frame)
            (t1 t2 : float) (k1 k2 : list Keyframe),
        (t1 <? t2) = true ->
        DetectKeyframes load frames t1 = Ok k1 ->
        DetectKeyframes load frames t2 = Ok k2 ->
        (length k2 <= length k1)%nat).
Proof.
  intros H.
  specialize (H loader frames123 0.5 0.85 keyframes13 keyframes123 eq_refl
                (proj1 detect_frames123) (proj2 detect_frames123)).
  simpl in H. lia.
Qed.

Lemma selection_rule_witness :
  exists kfs : list Keyframe,
    DetectKeyframes loader (frame1 :: [frame2] ++ [frame3]) 0.85 = Ok kfs
    /\ kfs = toKeyframe frame1
             :: map toKeyframe (changedFrames 0.85 pixelsA (zip [frame2] [pixelsB]))
             ++ [toKeyframe frame3]
    /\ toKeyframe frame3 ∈ kfs
    /\ forall (i : nat) (fr : Frame) (vprev v : list float),
         [frame2] !! i = Some fr -> (pixelsA :: [pixelsB]) !! i = Some vprev ->
         [pixelsB] !! i = Some v ->
         (toKeyframe fr ∈ kfs <-> (normalizedCrossCorrelation vprev v <? 0.85) = true).
Proof.
  apply (selection_rule loader 0.85 frame1 [frame2] frame3 pixelsA [pixelsB] pixelsB).
  - reflexivity.
  - repeat constructor.
  - reflexivity.
  - apply (bool_decide_unpack _). vm_compute. reflexivity.
Defined.

(** C3, as stated, fails for the last frame: at threshold 0.5 the third
    example frame scores 1 against the second, and is a keyframe. *)
Lemma last_frame_selected_counterexample :
  ~ (forall (load : string -> option (list float)) (t : float)
            (before : list Frame) (fprev fr : Frame) (after : list Frame)
            (kfs : list Keyframe) (vprev v : list float),
        DetectKeyframes load (before ++ fprev :: fr :: after) t = Ok kfs ->
        load (FramePath fprev) = Some vprev ->
        load (FramePath fr) = Some v ->
        (toKeyframe fr ∈ kfs <-> (normalizedCrossCorrelation vprev v <? t) = true)).
Proof.
  intros H.
  specialize (H loader 0.5 [frame1] frame2 frame3 [] keyframes13 pixelsB pixelsB
                (proj1 detect_frames123) eq_refl eq_refl).
  destruct H as [H _].
  assert (toKeyframe frame3 ∈ keyframes13) as Hin
    by apply list_elem_of_further, list_elem_of_here.
  specialize (H Hin). vm_compute in H. discriminate H.
Qed.

Lemma selector_boundary_witness :
  head keyframes123 = Some (toKeyframe frame1)
  /\ (exists k, last keyframes123 = Some k /\ Index k = FrameIndex frame3)
  /\ (FrameIndex frame3 ∉ map FrameIndex (frame1 :: [frame2]) ->
      last keyframes123 = Some (toKeyframe frame3)).
Proof.
  apply (proj2 (proj2 (selector_boundary loader 0.85)) frame1 [frame2] frame3 keyframes123).
  vm_compute. reflexivity.
Defined.

End VideoProofs.

(** ** Package audio: the transcript parser and the transcriber *)

Module AudioProofs.
Import F64 F64Facts GoLib Audio Examples.

Lemma isDigit_code (c : ascii) : isDigit c = true -> (48 <= code c <= 57)%nat.
Proof.
  unfold isDigit. intros [H1 H2]%andb_true_iff.
  apply Nat.leb_le in H1, H2. lia.
Qed.

Lemma isDigit_value (c : ascii) : isDigit c = true -> 0 <= digitValue c <= 9.
Proof. intros H%isDigit_code. unfold digitValue. lia. Qed.

Lemma isDigit_not (c x : ascii) :
  isDigit c = true -> (code x < 48 \/ 57 < code x)%nat -> Ascii.eqb c x = false.
Proof.
  intros Hc%isDigit_code Hx. apply Ascii.eqb_neq. intros ->. lia.
Qed.

Lemma in_int64_small (z : Z) : 0 <= z <= 999 -> in_int64 z = true.
Proof.
  intros H. unfold in_int64, min_int64, max_int64.
  apply andb_true_iff. split; apply Z.leb_le; lia.
Qed.

Lemma Atoi_digits_head (c : ascii) (s : string) :
  isDigit c = true ->
  Atoi (String c s)
  = match digitsValue (String c s) 0 with
    | Some v => if in_int64 v then Some v else None
    | None => None
    end.
Proof.
  intros Hc. unfold Atoi.
  rewrite (isDigit_not c "+" Hc) by (left; vm_compute; lia).
  by rewrite (isDigit_not c "-" Hc) by (left; vm_compute; lia).
Qed.

Lemma Atoi_two_digits (c1 c2 : ascii) :
  isDigit c1 = true -> isDigit c2 = true ->
  Atoi (String c1 (String c2 EmptyString)) = Some (10 * digitValue c1 + digitValue c2).
Proof.
  intros H1 H2. rewrite Atoi_digits_head by done.
  cbn [digitsValue]. rewrite H1, H2.
  apply isDigit_value in H1, H2.
  rewrite in_int64_small by lia. f_equal. lia.
Qed.

Lemma Atoi_three_digits (c1 c2 c3 : ascii) :
  isDigit c1 = true -> isDigit c2 = true -> isDigit c3 = true ->
  Atoi (String c1 (String c2 (String c3 EmptyString)))
  = Some (100 * digitValue c1 + 10 * digitValue c2 + digitValue c3).
Proof.
  intros H1 H2 H3. rewrite Atoi_digits_head by done.
  cbn [digitsValue]. rewrite H1, H2, H3.
  apply isDigit_value in H1, H2, H3.
  rewrite in_int64_small by lia. f_equal. lia.
Qed.

Lemma Split_skip (sep c : ascii) (s : string) :
  Ascii.eqb c sep = false ->
  Split sep (String c s)
  = match Split sep s with
    | h :: t => String c h :: t
    | [] => [String c EmptyString]
    end.
Proof. intros H. cbn [Split]. by rewrite H. Qed.

Lemma Split_cut (sep : ascii) (s : string) :
  Split sep (String sep s) = EmptyString :: Split sep s.
Proof. cbn [Split]. by rewrite Ascii.eqb_refl. Qed.

Ltac split_steps :=
  repeat first [rewrite Split_cut | rewrite Split_skip by first [by auto | reflexivity]].

Lemma Split_stamp (h1 h2 m1 m2 s1 s2 k1 k2 k3 : ascii) :
  Forall (fun c => isDigit c = true) [h1; h2; m1; m2; s1; s2; k1; k2; k3] ->
  Split ":" (stamp h1 h2 m1 m2 s1 s2 k1 k2 k3)
  = [ String h1 (String h2 EmptyString);
      String m1 (String m2 EmptyString);
      String s1 (String s2 (String "." (String k1 (String k2 (String k3 EmptyString))))) ].
Proof.
  intros Hd. repeat (apply Forall_cons in Hd as [? Hd]).
  assert (forall c, isDigit c = true -> Ascii.eqb c ":" = false) as Hcolon.
  { intros c Hc. apply isDigit_not; [done|]. right. vm_compute. lia. }
  unfold stamp. split_steps. reflexivity.
Qed.

Lemma Split_seconds (s1 s2 k1 k2 k3 : ascii) :
  Forall (fun c => isDigit c = true) [s1; s2; k1; k2; k3] ->
  Split "." (String s1 (String s2 (String "." (String k1 (String k2 (String k3 EmptyString))))))
  = [ String s1 (String s2 EmptyString);
      String k1 (String k2 (String k3 EmptyString)) ].
Proof.
  intros Hd. repeat (apply Forall_cons in Hd as [? Hd]).
  assert (forall c, isDigit c = true -> Ascii.eqb c "." = false) as Hdot.
  { intros c Hc. apply isDigit_not; [done|]. left. vm_compute. lia. }
  split_steps. reflexivity.
Qed.

(** Positional decoding of a stamp. *)
Lemma parseTimestamp_stamp (h1 h2 m1 m2 s1 s2 k1 k2 k3 : ascii) :
  Forall (fun c => isDigit c = true) [h1; h2; m1; m2; s1; s2; k1; k2; k3] ->
  parseTimestamp (stamp h1 h2 m1 m2 s1 s2 k1 k2 k3)
  = Some ((10 * digitValue h1 + digitValue h2) * Hour
          + (10 * digitValue m1 + digitValue m2) * Minute
          + (10 * digitValue s1 + digitValue s2) * Second
          + (100 * digitValue k1 + 10 * digitValue k2 + digitValue k3) * Millisecond).
Proof.
  intros Hd. unfold parseTimestamp. rewrite Split_stamp by done.
  repeat (apply Forall_cons in Hd as [? Hd]).
  rewrite !Atoi_two_digits by done. cbn [mbind option_bind].
  rewrite Split_seconds by (by repeat constructor). cbn [List.hd].
  rewrite Atoi_two_digits, Atoi_three_digits by done. cbn [mbind option_bind].
  repeat match goal with H : isDigit _ = true |- _ => apply isDigit_value in H end.
  f_equal. unfold Hour, Minute, Second, Millisecond, min_int64, max_int64 in *.
  set (hh := 10 * digitValue h1 + digitValue h2).
  set (mm := 10 * digitValue m1 + digitValue m2).
  set (ss := 10 * digitValue s1 + digitValue s2).
  set (ms := 100 * digitValue k1 + 10 * digitValue k2 + digitValue k3).
  assert (0 <= hh <= 99 /\ 0 <= mm <= 99 /\ 0 <= ss <= 99 /\ 0 <= ms <= 999)
    as (Hhh & Hmm & Hss & Hms) by (unfold hh, mm, ss, ms; lia).
  clearbody hh mm ss ms.
  rewrite (wrap64_small (hh * _)), (wrap64_small (mm * _)), (wrap64_small (ss * _)),
    (wrap64_small (ms * _)) by (unfold min_int64, max_int64; lia).
  rewrite (wrap64_small (hh * _ + mm * _)) by (unfold min_int64, max_int64; lia).
  rewrite (wrap64_small (hh * _ + mm * _ + ss * _)) by (unfold min_int64, max_int64; lia).
  rewrite wrap64_small by (unfold min_int64, max_int64; lia).
  reflexivity.
Qed.

Lemma parseLoop_spec (lines : list string) (segments : list Segment) :
  parseLoop lines segments = segments ++ omap parseLine lines.
Proof.
  revert segments. induction lines as [|line lines IH]; intros segments; simpl.
  - by rewrite app_nil_r.
  - destruct (parseLine line) as [seg|]; rewrite IH; [|done].
    by rewrite <- app_assoc.
Qed.

(** The segments come in the order of the lines that carry them. *)
Lemma parseWhisperOutput_lines (output : string) :
  parseWhisperOutput output = omap parseLine (scanLines output).
Proof. unfold parseWhisperOutput. by rewrite parseLoop_spec. Qed.

(** What [runWhisper] returns once the recognizer has exited successfully. *)
Lemma runWhisper_success (run : WhisperRun) :
  tempFileOk run = true -> whisperFound run = true -> startOk run = true ->
  exitOk run = true ->
  runWhisper run
  = inr (match parseWhisperOutput (collectedOutput run), outputFile run with
         | [], Some (String c rest) =>
             [ {| Start := 0; End_ := 0; Text := TrimSpace (String c rest) |} ]
         | segments, _ => segments
         end).
Proof.
  intros H1 H2 H3 H4. unfold runWhisper. rewrite H1, H2, H3, H4. simpl.
  destruct (parseWhisperOutput (collectedOutput run)) as [|seg segs]; [|done].
  simpl. destruct (outputFile run) as [[|c rest]|]; done.
Qed.

Lemma runWhisper_segments (run : WhisperRun) (segments : list Segment) :
  runWhisper run = inr segments ->
  segments = parseWhisperOutput (collectedOutput run)
  \/ exists content, outputFile run = Some content
                     /\ segments = [ {| Start := 0; End_ := 0; Text := TrimSpace content |} ].
Proof.
  unfold runWhisper.
  destruct (tempFileOk run), (whisperFound run), (startOk run), (exitOk run);
    simpl; try discriminate.
  destruct (parseWhisperOutput (collectedOutput run)) as [|seg segs]; simpl.
  - destruct (outputFile run) as [content|]; [|intros [= <-]; by left].
    destruct (0 <? String.length content)%nat; intros [= <-]; [right|by left].
    by exists content.
  - intros [= <-]. by left.
Qed.

(** C7. Recognizer output parsing: the line
    [[00:00:00.000 --> 00:00:03.000]  Hello, world.] gives exactly one
    segment, from 0 to 3 seconds, with the text [Hello, world.]; and a stamp
    is decoded position by position: two digits of hours, two of minutes,
    two of seconds, three of milliseconds. *)
Theorem parse_hello_world :
  parseWhisperOutput helloLine
  = [ {| Start := 0; End_ := 3 * Second; Text := "Hello, world."%string |} ]
  /\ forall h1 h2 m1 m2 s1 s2 k1 k2 k3 : ascii,
       Forall (fun c => isDigit c = true) [h1; h2; m1; m2; s1; s2; k1; k2; k3] ->
       parseTimestamp (stamp h1 h2 m1 m2 s1 s2 k1 k2 k3)
       = Some ((10 * digitValue h1 + digitValue h2) * Hour
               + (10 * digitValue m1 + digitValue m2) * Minute
               + (10 * digitValue s1 + digitValue s2) * Second
               + (100 * digitValue k1 + 10 * digitValue k2 + digitValue k3) * Millisecond).
Proof.
  split; [by vm_compute|]. apply parseTimestamp_stamp.
Qed.

Lemma parse_hello_world_witness :
  parseTimestamp "01:23:45.678"%string
  = Some (1 * Hour + 23 * Minute + 45 * Second + 678 * Millisecond).
Proof.
  apply (proj2 parse_hello_world "0" "1" "2" "3" "4" "5" "6" "7" "8")%char.
  repeat constructor.
Defined.

(** C8, at its failing input: the recognizer exits successfully, prints
    nothing, and leaves a single newline in its output file.  No line is
    timestamped and the file holds no text once trimmed, yet the result is
    one segment with an empty text, not the empty list. *)
Theorem fallback_blank_segment :
  parseWhisperOutput (collectedOutput (successfulRun EmptyString (Some newline))) = []
  /\ TrimSpace newline = EmptyString
  /\ runWhisper (successfulRun EmptyString (Some newline))
     = inr [ {| Start := 0; End_ := 0; Text := EmptyString |} ].
Proof. by vm_compute. Qed.

(** The rest of the fallback is as the design says. *)
Lemma fallback_cases (stdout : string) (file : option string) :
  parseWhisperOutput (collectedOutput (successfulRun stdout file)) = [] ->
  runWhisper (successfulRun stdout file)
  = inr (match file with
         | Some (String c rest) =>
             [ {| Start := 0; End_ := 0; Text := TrimSpace (String c rest) |} ]
         | _ => []
         end).
Proof.
  intros Hnone. rewrite runWhisper_success by done. rewrite Hnone.
  by destruct file as [[|c rest]|].
Qed.
End AudioProofs.

(** ** Package output: the cost estimate *)

Module OutputProofs.
Import F64 F64Facts GoLib Output.

Lemma segmentTokens_range (seg : Segment) :
  wordCount seg < 2 ^ 60 -> 0 <= segmentTokens seg <= max_int64.
Proof.
  unfold segmentTokens, wordCount. intros Hfit.
  apply int_of_float_range.
  - apply mul_sign; [apply float_of_int_sign|done].
  - apply scaled_count_fits. lia.
Qed.

Lemma sumTokens_nonneg (segs : list Segment) :
  Forall (fun seg => wordCount seg < 2 ^ 60) segs -> 0 <= sumTokens segs.
Proof.
  induction 1 as [|seg segs Hseg _ IH]; simpl; [lia|].
  apply segmentTokens_range in Hseg. lia.
Qed.

Lemma fold_tokens (segs : list Segment) (tokens : Z) :
  Forall (fun seg => wordCount seg < 2 ^ 60) segs ->
  0 <= tokens ->
  tokens + sumTokens segs <= max_int64 ->
  fold_left (fun tokens seg => wrap64 (tokens + segmentTokens seg)) segs tokens
  = tokens + sumTokens segs.
Proof.
  intros Hfit. revert tokens.
  induction Hfit as [|seg segs Hseg Hsegs IH]; intros tokens H0 Hmax; simpl in *; [lia|].
  pose proof (segmentTokens_range seg Hseg).
  pose proof (sumTokens_nonneg segs Hsegs).
  rewrite wrap64_small by (unfold min_int64; lia).
  rewrite IH by lia. lia.
Qed.

(** Without overflow the function returns the plain sum. *)
Lemma EstimateTokens_exact (result : Result) :
  noOverflow result -> EstimateTokens result = tokensExact result.
Proof.
  intros [Hfit Hmax]. unfold EstimateTokens, tokensExact in *.
  pose proof (sumTokens_nonneg _ Hfit).
  assert (0 <= Z.of_nat (length (Keyframes result))) by lia.
  rewrite (wrap64_small (0 + 100)) by (unfold min_int64, max_int64; lia).
  rewrite fold_tokens by (try done; lia).
  rewrite (wrap64_small (_ * 1000)) by (unfold min_int64; lia).
  rewrite wrap64_small by (unfold min_int64; lia). lia.
Qed.

Lemma sumTokens_app (l1 l2 : list Segment) :
  sumTokens (l1 ++ l2) = sumTokens l1 + sumTokens l2.
Proof. induction l1 as [|seg l1 IH]; simpl; lia. Qed.

(** C6. Cost estimate monotonicity: as long as the estimate of the longer
    report is computed without overflow, appending a segment to a report
    does not decrease the estimate, and neither does appending a keyframe. *)
Theorem estimate_monotone (result : Result) :
  (forall seg, noOverflow (addSegment result seg) ->
     EstimateTokens result <= EstimateTokens (addSegment result seg))
  /\ (forall kf, noOverflow (addKeyframe result kf) ->
     EstimateTokens result <= EstimateTokens (addKeyframe result kf)).
Proof.
  split.
  - intros seg Hno.
    assert (noOverflow result) as Hno0.
    { destruct Hno as [Hfit Hmax]. simpl in Hfit.
      apply Forall_app in Hfit as [Hfit Hseg]. split; [done|].
      apply Forall_singleton, segmentTokens_range in Hseg.
      unfold tokensExact in *. simpl in Hmax.
      rewrite sumTokens_app in Hmax. simpl in Hmax. lia. }
    rewrite !EstimateTokens_exact by done.
    destruct Hno as [Hfit _]. simpl in Hfit.
    apply Forall_app in Hfit as [_ Hseg].
    apply Forall_singleton, segmentTokens_range in Hseg.
    unfold tokensExact. simpl.
    rewrite sumTokens_app. simpl. lia.
  - intros kf Hno.
    assert (noOverflow result) as Hno0.
    { destruct Hno as [Hfit Hmax]. split; [done|].
      unfold tokensExact in *. simpl in Hmax. rewrite length_app in Hmax. simpl in Hmax. lia. }
    rewrite !EstimateTokens_exact by done.
    unfold tokensExact. simpl. rewrite length_app. simpl. lia.
Qed.

Lemma estimate_monotone_witness :
  EstimateTokens Examples.emptyResult
    <= EstimateTokens (addSegment Examples.emptyResult Examples.helloSegment)
  /\ EstimateTokens Examples.emptyResult
    <= EstimateTokens (addKeyframe Examples.emptyResult Examples.keyframe1).
Proof.
  split.
  - apply (proj1 (estimate_monotone Examples.emptyResult)).
    split; [repeat constructor|]. vm_compute. discriminate.
  - apply (proj2 (estimate_monotone Examples.emptyResult)).
    split; [constructor|]. vm_compute. discriminate.
Defined.
End OutputProofs.

(** * Further properties of the code *)

Module VideoExtras.
Import F64 F64Facts ListFacts Video Examples VideoProofs.
Local Open Scope float_scope.

Section Detect.
Variable load : string -> option (list float).

Lemma compareLoop_fails t prev pre fr post vs i kfs :
  loadsTo load pre vs ->
  load (FramePath fr) = None ->
  compareLoop load t prev (pre ++ fr :: post) i kfs = Err (FailedFrame (i + length pre)).
Proof.
  intros H. revert t prev i kfs.
  induction H as [|f v pre vs Hf _ IH]; intros t prev i kfs Hfr; simpl.
  - rewrite Hfr. f_equal. f_equal. lia.
  - rewrite Hf. rewrite IH by done. f_equal. f_equal. lia.
Qed.

(** Error behaviour of [DetectKeyframes] on two frames or more: the first
    frame that fails to load decides the error, which names its position in
    the slice (the first frame has an error of its own); and keyframes are
    returned exactly when every frame loads, whatever the threshold. *)
Theorem detect_error_first_failure (t : float) (first second : Frame) (rest : list Frame) :
  (load (FramePath first) = None ->
     DetectKeyframes load (first :: second :: rest) t = Err FailedFirstFrame)
  /\ (forall pre fr post v0 vs,
        second :: rest = pre ++ fr :: post ->
        load (FramePath first) = Some v0 ->
        loadsTo load pre vs ->
        load (FramePath fr) = None ->
        DetectKeyframes load (first :: second :: rest) t = Err (FailedFrame (S (length pre))))
  /\ ((exists kfs, DetectKeyframes load (first :: second :: rest) t = Ok kfs)
      <-> exists vs, loadsTo load (first :: second :: rest) vs).
Proof.
  split; [|split].
  - intros H0. unfold DetectKeyframes.
    change (length (first :: second :: rest) =? 1)%nat with false. cbv iota.
    by rewrite H0.
  - intros pre fr post v0 vs Hsplit H0 Hpre Hfr. unfold DetectKeyframes.
    change (length (first :: second :: rest) =? 1)%nat with false. cbv iota.
    rewrite H0, Hsplit. by rewrite (compareLoop_fails _ _ _ _ _ vs).
  - split.
    + intros [kfs H].
      destruct (DetectKeyframes_loads load t first (second :: rest) kfs ltac:(done) H)
        as (v0 & vs & H0 & Hvs).
      exists (v0 :: vs). by constructor.
    + intros [vs Hvs]. inversion Hvs as [|? v0 ? vs' H0 Hrest]; subst.
      rewrite (DetectKeyframes_spec load t first (second :: rest) v0 vs') by done.
      by eexists.
Qed.

(** Every keyframe is one of the frames: the keyframes are the images of a
    subsequence of the frames, in stream order, so there are never more
    keyframes than frames, and there is at least one when there is a frame. *)
Theorem detect_keyframes_subsequence (frames : list Frame) (t : float) (kfs : list Keyframe) :
  DetectKeyframes load frames t = Ok kfs ->
  (exists sel, kfs = map toKeyframe sel /\ sel `sublist_of` frames)
  /\ (length kfs <= length frames)%nat
  /\ (frames <> [] -> (1 <= length kfs)%nat).
Proof.
  intros H. destruct (detect_sublist load frames t kfs H) as (sel & -> & Hsub).
  split; [by exists sel|]. split.
  - rewrite length_map. by apply sublist_length.
  - intros Hne. destruct frames as [|first rest]; [done|].
    destruct (decide (rest = [])) as [->|Hrest].
    + simpl in H. injection H as H. rewrite <- H. simpl. lia.
    + destruct (DetectKeyframes_loads load t first rest _ Hrest H) as (v0 & vs & H0 & Hvs).
      rewrite (DetectKeyframes_spec load t first rest v0 vs) in H by done.
      injection H as H. rewrite <- H. unfold closing.
      destruct (lastIndexDiffers _ _); rewrite ?length_app; simpl; lia.
Qed.

Lemma changedFrames_none t prev fvs :
  (forall x : float, (x <? t) = false) -> changedFrames t prev fvs = [].
Proof.
  intros Ht. revert prev. induction fvs as [|[fr v] fvs IH]; intros prev; simpl; [done|].
  by rewrite Ht, IH.
Qed.

Lemma nothing_below (t : float) :
  t = nan \/ t = neg_infinity -> forall x : float, (x <? t) = false.
Proof.
  intros Ht x. rewrite ltb_spec. unfold SFltb.
  destruct Ht as [-> | ->].
  - change (Prim2SF nan) with S754_nan. by destruct (Prim2SF x).
  - change (Prim2SF neg_infinity) with (S754_infinity true).
    by destruct (Prim2SF x) as [s|s| |s m e]; try destruct s.
Qed.

(** With a threshold no score is below (NaN, or minus infinity), no frame
    between the first and the last is picked: the keyframes are the first
    frame and the last one. *)
Theorem detect_threshold_nothing_below (t : float) (first : Frame) (mid : list Frame)
    (lastFrame : Frame) (v0 : list float) (vmid : list (list float)) (vlast : list float) :
  t = nan \/ t = neg_infinity ->
  load (FramePath first) = Some v0 ->
  loadsTo load mid vmid ->
  load (FramePath lastFrame) = Some vlast ->
  FrameIndex lastFrame ∉ map FrameIndex (first :: mid) ->
  DetectKeyframes load (first :: mid ++ [lastFrame]) t
  = Ok [toKeyframe first; toKeyframe lastFrame].
Proof.
  intros Ht H0 Hmid Hlast Hfresh.
  rewrite (DetectKeyframes_fresh_last load t first mid lastFrame v0 vmid vlast) by done.
  by rewrite changedFrames_none by (by apply nothing_below).
Qed.

End Detect.

End VideoExtras.

Module StringFacts.
Import GoLib.

Lemma append_nil_r (s : string) : String.append s EmptyString = s.
Proof. induction s as [|c s IH]; simpl; by rewrite ?IH. Qed.

Lemma append_assoc (a b c : string) :
  String.append (String.append a b) c = String.append a (String.append b c).
Proof. induction a as [|x a IH]; simpl; by rewrite ?IH. Qed.

Lemma rev_append_spec (s acc : string) :
  rev_append s acc = String.append (rev s) acc.
Proof.
  unfold rev. revert acc. induction s as [|c s IH]; intros acc; simpl; [done|].
  rewrite IH, (IH (String c EmptyString)), append_assoc. done.
Qed.

Lemma rev_cons (c : ascii) (s : string) :
  rev (String c s) = String.append (rev s) (String c EmptyString).
Proof. unfold rev at 1. simpl. by rewrite rev_append_spec. Qed.

Lemma rev_app (a b : string) :
  rev (String.append a b) = String.append (rev b) (rev a).
Proof.
  induction a as [|c a IH]; simpl.
  - by rewrite append_nil_r.
  - by rewrite !rev_cons, IH, append_assoc.
Qed.

Lemma rev_involutive (s : string) : rev (rev s) = s.
Proof.
  induction s as [|c s IH]; [done|].
  by rewrite rev_cons, rev_app, IH.
Qed.

Lemma length_append (a b : string) :
  String.length (String.append a b) = (String.length a + String.length b)%nat.
Proof. induction a as [|c a IH]; simpl; by rewrite ?IH. Qed.

Lemma length_rev (s : string) : String.length (rev s) = String.length s.
Proof.
  induction s as [|c s IH]; [done|].
  rewrite rev_cons, length_append, IH. simpl. lia.
Qed.

Lemma containsByte_app (c : ascii) (a b : string) :
  containsByte c (String.append a b) = containsByte c a || containsByte c b.
Proof. induction a as [|x a IH]; simpl; [done|]. by rewrite IH, orb_assoc. Qed.

Lemma containsByte_rev (c : ascii) (s : string) :
  containsByte c (rev s) = containsByte c s.
Proof.
  induction s as [|x s IH]; [done|].
  rewrite rev_cons, containsByte_app, IH. simpl. rewrite orb_false_r. apply orb_comm.
Qed.

End StringFacts.

Module TrimFacts.
Import GoLib StringFacts.

Lemma spaceWidthIn_clean (table : list (list nat)) (s : string) :
  Forall (fun p => p <> []) table ->
  spaceWidthIn table s = 0%nat <-> clean table s.
Proof.
  intros Hne. unfold spaceWidthIn, clean.
  induction Hne as [|p table Hp _ IH]; simpl.
  - split; [constructor|done].
  - destruct (hasPrefix p s) eqn:Hps.
    + split.
      * intros H. destruct p; [done|discriminate].
      * intros H. apply Forall_cons in H as [H _]. congruence.
    + rewrite IH. split; [by constructor|by intros [_ ?]%Forall_cons].
Qed.

Lemma hasPrefix_app (p : list nat) (s x : string) :
  hasPrefix p s = true -> hasPrefix p (String.append s x) = true.
Proof.
  revert s. induction p as [|n p IH]; intros [|c s]; simpl; try done.
  intros [H1 H2]%andb_true_iff. rewrite H1. simpl. by apply IH.
Qed.

Lemma clean_prefix (table : list (list nat)) (s x : string) :
  clean table (String.append s x) -> clean table s.
Proof.
  unfold clean. intros HF. eapply Forall_impl; [exact HF|]. simpl. intros p H.
  destruct (hasPrefix p s) eqn:Hp; [|done].
  by rewrite (hasPrefix_app p s x Hp) in H.
Qed.

(** What [trimLoop] returns is a suffix of its argument that no white-space
    rune starts. *)
Lemma trimLoop_suffix (width : string -> nat) (s : string) (skip : nat) :
  exists pre, s = String.append pre (trimLoop width s skip).
Proof.
  revert skip. induction s as [|c s IH]; intros skip; simpl.
  - by exists EmptyString.
  - destruct skip as [|k].
    + destruct (width (String c s)) as [|k].
      * by exists EmptyString.
      * destruct (IH k) as [pre Hpre]. exists (String c pre). simpl. by rewrite <- Hpre.
    + destruct (IH k) as [pre Hpre]. exists (String c pre). simpl. by rewrite <- Hpre.
Qed.

Lemma trimLoop_trimmed (width : string -> nat) (s : string) (skip : nat) :
  trimLoop width s skip = EmptyString \/ width (trimLoop width s skip) = 0%nat.
Proof.
  revert skip. induction s as [|c s IH]; intros skip; simpl; [by left|].
  destruct skip as [|k]; [|apply IH].
  destruct (width (String c s)) as [|k] eqn:Hw; [by right|apply IH].
Qed.

Lemma trimLoop_fixed (width : string -> nat) (s : string) :
  s = EmptyString \/ width s = 0%nat -> trimLoop width s 0 = s.
Proof.
  intros [->|H]; [done|]. destruct s as [|c s]; [done|]. simpl. by rewrite H.
Qed.

Lemma whiteSpace_nonempty : Forall (fun p => p <> []) whiteSpace.
Proof. unfold whiteSpace. repeat constructor; discriminate. Qed.

(** [strings.TrimSpace] leaves nothing to trim. *)
Lemma TrimSpace_idempotent (s : string) : TrimSpace (TrimSpace s) = TrimSpace s.
Proof.
  unfold TrimSpace.
  set (a := trimLoop spaceWidth s 0).
  set (q := trimLoop spaceWidthRev (rev a) 0).
  assert (trimLoop spaceWidth (rev q) 0 = rev q) as ->.
  { apply trimLoop_fixed.
    destruct (rev q) as [|c r] eqn:Hr; [by left|right].
    destruct (trimLoop_suffix spaceWidthRev (rev a) 0) as [pre Hpre]. fold q in Hpre.
    apply (f_equal rev) in Hpre. rewrite rev_involutive, rev_app in Hpre.
    destruct (trimLoop_trimmed spaceWidth s 0) as [Ha|Ha]; fold a in Ha.
    - rewrite Ha, Hr in Hpre. discriminate.
    - unfold spaceWidth in *. apply spaceWidthIn_clean in Ha; [|apply whiteSpace_nonempty].
      apply spaceWidthIn_clean; [apply whiteSpace_nonempty|].
      rewrite Hpre, Hr in Ha. by apply clean_prefix in Ha. }
  rewrite rev_involutive.
  rewrite trimLoop_fixed; [done|]. apply trimLoop_trimmed.
Qed.

End TrimFacts.

Module SegmentText.
Import F64 F64Facts GoLib Audio Examples StringFacts TrimFacts AudioProofs.

Lemma parseLine_text (line : string) (seg : Segment) :
  parseLine line = Some seg ->
  Text seg <> EmptyString /\ TrimSpace (Text seg) = Text seg.
Proof.
  unfold parseLine. destruct (FindStringSubmatch line) as [[[m1 m2] m3]|]; [|done].
  destruct (isEmpty (TrimSpace m3)) eqn:He; [done|].
  intros [= <-]. simpl. split.
  - intros H. by rewrite H in He.
  - apply TrimSpace_idempotent.
Qed.

(** The text of a segment is trimmed: trimming it again changes nothing.
    A segment read from a timestamped line never has an empty text, and
    every segment [runWhisper] returns has a trimmed text. *)
Theorem segment_text_trimmed :
  (forall (output : string) (seg : Segment),
      seg ∈ parseWhisperOutput output ->
      Text seg <> EmptyString /\ TrimSpace (Text seg) = Text seg)
  /\ (forall (run : WhisperRun) (segments : list Segment) (seg : Segment),
        runWhisper run = inr segments -> seg ∈ segments ->
        TrimSpace (Text seg) = Text seg).
Proof.
  assert (forall output seg, seg ∈ parseWhisperOutput output ->
            Text seg <> EmptyString /\ TrimSpace (Text seg) = Text seg) as Hparse.
  { intros output seg. rewrite parseWhisperOutput_lines.
    intros (line & _ & Hline)%list_elem_of_omap. by apply (parseLine_text line). }
  split; [done|].
  intros run segments seg Hrun Hin.
  destruct (runWhisper_segments run segments Hrun) as [->|(content & _ & ->)].
  - by apply Hparse in Hin as [_ ?].
  - apply list_elem_of_singleton in Hin as ->. simpl. apply TrimSpace_idempotent.
Qed.

End SegmentText.

Module ScanFacts.
Import F64 GoLib StringFacts.

Lemma code_nl (c : ascii) : (code c =? 10)%nat = Ascii.eqb c nl.
Proof.
  destruct (Ascii.eqb_spec c nl) as [->|Hne]; [done|].
  apply Nat.eqb_neq. intros H. apply Hne.
  unfold code in H. rewrite <- (ascii_nat_embedding c), H. done.
Qed.

Lemma dropCR_contains (c : ascii) (line : string) :
  containsByte c line = false -> containsByte c (dropCR line) = false.
Proof.
  intros H. unfold dropCR. destruct (rev line) as [|x r] eqn:Hr; [done|].
  destruct (code x =? 13)%nat; [|done].
  apply (f_equal rev) in Hr. rewrite rev_involutive, rev_cons in Hr.
  rewrite Hr, containsByte_app in H. by apply orb_false_iff in H as [? _].
Qed.

(** Reading a run of bytes without a newline only extends the current line. *)
Lemma scanLoop_app (l s cur : string) (n : Z) :
  containsByte nl l = false ->
  scanLoop (String.append l s) cur n
  = scanLoop s (String.append (rev l) cur) (n + Z.of_nat (String.length l)).
Proof.
  revert cur n. induction l as [|x l IH]; intros cur n Hl; simpl.
  - f_equal. lia.
  - simpl in Hl. apply orb_false_iff in Hl as [Hx Hl].
    rewrite code_nl, Hx. rewrite IH by done.
    rewrite rev_cons, append_assoc. simpl. f_equal. lia.
Qed.

(** Past the token limit nothing more is yielded. *)
Lemma scanLoop_too_long (s cur : string) (n : Z) :
  MaxScanTokenSize <= n -> scanLoop s cur n = [].
Proof.
  revert cur n. induction s as [|x s IH]; intros cur n Hn; simpl.
  - destruct (MaxScanTokenSize <=? n) eqn:H; [by rewrite orb_true_r|].
    apply Z.leb_gt in H. lia.
  - destruct (code x =? 10)%nat.
    + destruct (MaxScanTokenSize <=? n) eqn:H; [done|]. apply Z.leb_gt in H. lia.
    + apply IH. lia.
Qed.

Lemma scanLines_cons (l rest : string) :
  containsByte nl l = false ->
  Z.of_nat (String.length l) < MaxScanTokenSize ->
  scanLines (String.append l (String nl rest)) = dropCR l :: scanLines rest.
Proof.
  intros Hl Hlen. unfold scanLines. rewrite scanLoop_app by done.
  rewrite append_nil_r. cbn [scanLoop]. rewrite code_nl, Ascii.eqb_refl.
  destruct (MaxScanTokenSize <=? _) eqn:H; [apply Z.leb_le in H; lia|].
  by rewrite rev_involutive.
Qed.

Lemma scanLines_long (l rest : string) :
  containsByte nl l = false ->
  MaxScanTokenSize <= Z.of_nat (String.length l) ->
  scanLines (String.append l rest) = [].
Proof.
  intros Hl Hlen. unfold scanLines. rewrite scanLoop_app by done.
  apply scanLoop_too_long. lia.
Qed.

(** The lines hold only bytes of the text. *)
Lemma scanLoop_contains (c : ascii) (s cur : string) (n : Z) :
  containsByte c s = false -> containsByte c cur = false ->
  Forall (fun line => containsByte c line = false) (scanLoop s cur n).
Proof.
  revert cur n. induction s as [|x s IH]; intros cur n Hs Hcur; simpl.
  - destruct (_ || _); [constructor|]. repeat constructor.
    apply dropCR_contains. by rewrite containsByte_rev.
  - simpl in Hs. apply orb_false_iff in Hs as [Hx Hs].
    destruct (code x =? 10)%nat.
    + destruct (MaxScanTokenSize <=? n); constructor.
      * apply dropCR_contains. by rewrite containsByte_rev.
      * by apply IH.
    + apply IH; [done|]. simpl. by rewrite Hx.
Qed.

End ScanFacts.

Module LineParsing.
Import F64 F64Facts GoLib Audio Examples StringFacts TrimFacts ScanFacts AudioProofs.

Lemma FindStringSubmatch_no_bracket (s : string) :
  containsByte "[" s = false -> FindStringSubmatch s = None.
Proof.
  induction s as [|c s IH]; [done|]. simpl containsByte.
  intros [Hc Hs]%orb_false_iff. cbn [FindStringSubmatch].
  assert (matchHere (String c s) = None) as ->.
  { unfold matchHere. destruct (Ascii.eqb_spec c "[") as [->|Hne]; [done|].
    destruct c as [[] [] [] [] [] [] [] []]; try done. }
  by apply IH.
Qed.

Lemma collectLines_contains (c : ascii) (lines : list string) (outputBuilder : string) :
  Ascii.eqb nl c = false ->
  Forall (fun line => containsByte c line = false) lines ->
  containsByte c outputBuilder = false ->
  containsByte c (collectLines lines outputBuilder) = false.
Proof.
  intros Hc Hlines. revert outputBuilder.
  induction Hlines as [|line lines Hline _ IH]; intros outputBuilder Hob; simpl; [done|].
  apply IH. rewrite !containsByte_app, Hob, Hline. cbn [containsByte orb].
  change (byte 10) with nl. by rewrite Hc.
Qed.

(** Output without an opening bracket carries no timestamped line: the
    transcript then comes from the output file alone, as one segment at
    time zero, or is empty when the file is missing or empty. *)
Theorem plain_output_uses_file (run : WhisperRun) :
  tempFileOk run = true -> whisperFound run = true -> startOk run = true ->
  exitOk run = true ->
  containsByte "[" (stdoutBytes run) = false ->
  parseWhisperOutput (collectedOutput run) = []
  /\ runWhisper run
     = inr (match outputFile run with
            | Some (String c rest) =>
                [ {| Start := 0; End_ := 0; Text := TrimSpace (String c rest) |} ]
            | _ => []
            end).
Proof.
  intros H1 H2 H3 H4 Hplain.
  assert (parseWhisperOutput (collectedOutput run) = []) as Hnone.
  { rewrite parseWhisperOutput_lines.
    assert (containsByte "[" (collectedOutput run) = false) as Hout.
    { unfold collectedOutput. apply collectLines_contains; [done| |done].
      by apply scanLoop_contains. }
    pose proof (scanLoop_contains "[" (collectedOutput run) EmptyString 0 Hout eq_refl) as Hl.
    fold (scanLines (collectedOutput run)) in Hl.
    induction Hl as [|line lines Hline _ IH]; [done|]. simpl.
    unfold parseLine at 1. by rewrite FindStringSubmatch_no_bracket. }
  split; [done|].
  rewrite runWhisper_success by done. rewrite Hnone.
  by destruct (outputFile run) as [[|c rest]|].
Qed.

(** The parser works line by line: a first line shorter than the scanner's
    token limit contributes its segment, if it has one, and the rest of the
    text is parsed on its own. *)
Theorem parse_line_by_line (l rest : string) :
  containsByte nl l = false ->
  Z.of_nat (String.length l) < MaxScanTokenSize ->
  parseWhisperOutput (String.append l (String nl rest))
  = segmentOf (dropCR l) ++ parseWhisperOutput rest.
Proof.
  intros Hl Hlen. rewrite !parseWhisperOutput_lines, scanLines_cons by done.
  simpl. unfold segmentOf. by destruct (parseLine (dropCR l)).
Qed.

(** A line of 65536 bytes or more ends the scan: that line and all the text
    after it are dropped, and no error is reported. *)
Theorem parse_stops_at_long_line (l rest : string) :
  containsByte nl l = false ->
  MaxScanTokenSize <= Z.of_nat (String.length l) ->
  parseWhisperOutput (String.append l rest) = [].
Proof.
  intros Hl Hlen. by rewrite parseWhisperOutput_lines, scanLines_long.
Qed.

End LineParsing.

Module WrapFacts.
Import F64.

Lemma wrap64_add_l (a b : Z) : wrap64 (wrap64 a + b) = wrap64 (a + b).
Proof.
  unfold wrap64.
  replace ((a + 2 ^ 63) mod 2 ^ 64 - 2 ^ 63 + b + 2 ^ 63)
    with ((a + 2 ^ 63) mod 2 ^ 64 + b) by lia.
  rewrite Z.add_mod_idemp_l by (apply Z.pow_nonzero; lia).
  by replace (a + 2 ^ 63 + b) with (a + b + 2 ^ 63) by lia.
Qed.

Lemma wrap64_add_r (a b : Z) : wrap64 (a + wrap64 b) = wrap64 (a + b).
Proof. rewrite (Z.add_comm a), wrap64_add_l. by rewrite (Z.add_comm b). Qed.

Lemma wrap64_idemp (a : Z) : wrap64 (wrap64 a) = wrap64 a.
Proof. rewrite <- (Z.add_0_r (wrap64 a)) at 1. by rewrite wrap64_add_l, Z.add_0_r. Qed.

Lemma wrap64_shift (z k : Z) : wrap64 (z + 2 ^ 64 * k) = wrap64 z.
Proof.
  unfold wrap64.
  replace (z + 2 ^ 64 * k + 2 ^ 63) with (z + 2 ^ 63 + k * 2 ^ 64) by lia.
  by rewrite Z.mod_add by (apply Z.pow_nonzero; lia).
Qed.

Lemma wrap64_ex (z : Z) : exists k, wrap64 z = z + 2 ^ 64 * k.
Proof.
  exists (- ((z + 2 ^ 63) / 2 ^ 64)). unfold wrap64.
  pose proof (Z.div_mod (z + 2 ^ 63) (2 ^ 64) ltac:(apply Z.pow_nonzero; lia)). lia.
Qed.

End WrapFacts.

Module TimestampShape.
Import F64 F64Facts GoLib Audio StringFacts WrapFacts AudioProofs.

Lemma Split_length (sep : ascii) (s : string) :
  length (Split sep s) = S (countByte sep s).
Proof.
  induction s as [|c s IH]; [done|]. cbn [Split countByte].
  destruct (Ascii.eqb c sep); simpl; [by rewrite IH|].
  destruct (Split sep s); simpl in *; lia.
Qed.

Lemma Split_none (sep : ascii) (a : string) :
  containsByte sep a = false -> Split sep a = [a].
Proof.
  induction a as [|c a IH]; [done|]. simpl containsByte.
  intros [Hc Ha]%orb_false_iff. cbn [Split]. by rewrite Hc, IH.
Qed.

Lemma Split_app (sep : ascii) (a b : string) :
  containsByte sep a = false ->
  Split sep (String.append a (String sep b)) = a :: Split sep b.
Proof.
  induction a as [|c a IH]; simpl containsByte.
  - intros _. simpl. by rewrite Ascii.eqb_refl.
  - intros [Hc Ha]%orb_false_iff. simpl. by rewrite Hc, IH.
Qed.

Lemma digitsValue_contains (c : ascii) (s : string) (acc v : Z) :
  isDigit c = false -> digitsValue s acc = Some v -> containsByte c s = false.
Proof.
  intros Hc. revert acc. induction s as [|x s IH]; intros acc; [done|].
  simpl. destruct (isDigit x) eqn:Hx; [|done].
  intros H. rewrite (IH _ H), orb_false_r.
  apply Ascii.eqb_neq. intros ->. congruence.
Qed.

(** A string [Atoi] accepts holds only a sign and digits. *)
Lemma Atoi_contains (c : ascii) (s : string) (v : Z) :
  isDigit c = false -> Ascii.eqb c "+" = false -> Ascii.eqb c "-" = false ->
  Atoi s = Some v -> containsByte c s = false.
Proof.
  intros Hd Hp Hm. unfold Atoi.
  destruct s as [|x r]; [done|].
  destruct (Ascii.eqb_spec x "+") as [->|Hxp].
  { destruct (isEmpty r); [done|]. destruct (digitsValue r 0) as [w|] eqn:Hw; [|done].
    intros _. cbn [containsByte]. rewrite (digitsValue_contains c r 0 w) by done.
    rewrite orb_false_r. by rewrite Ascii.eqb_sym. }
  destruct (Ascii.eqb_spec x "-") as [->|Hxm].
  { destruct (isEmpty r); [done|]. destruct (digitsValue r 0) as [w|] eqn:Hw; [|done].
    intros _. cbn [containsByte]. rewrite (digitsValue_contains c r 0 w) by done.
    rewrite orb_false_r. by rewrite Ascii.eqb_sym. }
  cbn [isEmpty]. destruct (digitsValue (String x r) 0) as [w|] eqn:Hw; [|done].
  intros _. by apply (digitsValue_contains c _ 0 w).
Qed.

Lemma duration_wrap (hours minutes seconds millis : Z) :
  wrap64 (wrap64 (wrap64 (wrap64 (hours * Hour) + wrap64 (minutes * Minute))
                  + wrap64 (seconds * Second))
          + wrap64 (millis * Millisecond))
  = durationOf hours minutes seconds millis.
Proof.
  unfold durationOf.
  destruct (wrap64_ex (hours * Hour)) as [k1 ->].
  destruct (wrap64_ex (minutes * Minute)) as [k2 ->].
  destruct (wrap64_ex (seconds * Second)) as [k3 ->].
  destruct (wrap64_ex (millis * Millisecond)) as [k4 ->].
  match goal with |- context [wrap64 (wrap64 (wrap64 ?x + _) + _)] =>
    destruct (wrap64_ex x) as [k5 ->] end.
  match goal with |- context [wrap64 (wrap64 ?x + _)] =>
    destruct (wrap64_ex x) as [k6 ->] end.
  rewrite <- (wrap64_shift (hours * Hour + minutes * Minute + seconds * Second
                            + millis * Millisecond) (k1 + k2 + k3 + k4 + k5 + k6)).
  apply (f_equal wrap64). ring.
Qed.

(** The shape [parseTimestamp] accepts: exactly two colons; three fields
    [strconv.Atoi] reads, of any width and any value; then, optionally, a
    dot and a fourth field, read as a whole number of milliseconds; what
    follows one more dot is not looked at. *)
Theorem parseTimestamp_shape :
  (forall ts : string, countByte ":" ts <> 2%nat -> parseTimestamp ts = None)
  /\ (forall (h m s : string) (vh vm vs : Z),
        Atoi h = Some vh -> Atoi m = Some vm -> Atoi s = Some vs ->
        parseTimestamp (String.append h (String ":" (String.append m (String ":" s))))
        = Some (durationOf vh vm vs 0)
        /\ forall (f : string) (vf : Z),
             Atoi f = Some vf ->
             parseTimestamp
               (String.append h (String ":" (String.append m (String ":"
                  (String.append s (String "." f))))))
             = Some (durationOf vh vm vs vf)
             /\ forall junk : string,
                  containsByte ":" junk = false ->
                  parseTimestamp
                    (String.append h (String ":" (String.append m (String ":"
                       (String.append s (String "." (String.append f (String "." junk))))))))
                  = Some (durationOf vh vm vs vf)).
Proof.
  split.
  - intros ts Hn. unfold parseTimestamp.
    pose proof (Split_length ":" ts) as Hlen.
    destruct (Split ":" ts) as [|p0 [|p1 [|p2 [|p3 l]]]]; try done.
    simpl in Hlen. lia.
  - intros h m s vh vm vs Hh Hm Hs.
    assert (forall x v, Atoi x = Some v -> containsByte ":" x = false) as Hcolon.
    { intros x v. by apply Atoi_contains. }
    assert (forall x v, Atoi x = Some v -> containsByte "." x = false) as Hdot.
    { intros x v. by apply Atoi_contains. }
    split; [|intros f vf Hf; split; [|intros junk Hjunk]].
    + unfold parseTimestamp.
      rewrite Split_app by eauto. rewrite Split_app by eauto.
      rewrite Split_none by eauto.
      rewrite Hh, Hm. cbn [mbind option_bind].
      rewrite Split_none by eauto. cbn [List.hd]. rewrite Hs. cbn [mbind option_bind].
      f_equal. apply duration_wrap.
    + unfold parseTimestamp.
      rewrite Split_app by eauto. rewrite Split_app by eauto.
      rewrite Split_none
        by (rewrite containsByte_app; simpl; erewrite Hcolon, Hcolon; eauto).
      rewrite Hh, Hm. cbn [mbind option_bind].
      rewrite Split_app by eauto. rewrite Split_none by eauto.
      cbn [List.hd]. rewrite Hs, Hf. cbn [mbind option_bind].
      f_equal. apply duration_wrap.
    + unfold parseTimestamp.
      rewrite Split_app by eauto. rewrite Split_app by eauto.
      rewrite Split_none.
      2:{ rewrite containsByte_app. simpl. rewrite containsByte_app. simpl.
          erewrite Hcolon, Hcolon, Hjunk; eauto. }
      rewrite Hh, Hm. cbn [mbind option_bind].
      rewrite Split_app by eauto. rewrite Split_app by eauto.
      cbn [List.hd]. rewrite Hs. cbn [mbind option_bind].
      destruct (Split "." junk); rewrite Hf; cbn [mbind option_bind];
        f_equal; apply duration_wrap.
Qed.

End TimestampShape.

Module WhisperErrors.
Import F64 GoLib Audio AudioProofs.

(** Error behaviour of [runWhisper]: it fails exactly when the temporary
    file, the lookup of the program, its start or its exit fails, and then
    returns no segment, whatever the program printed; and when the printed
    output holds a timestamped segment, the output file is not used. *)
Theorem runWhisper_errors (run : WhisperRun) :
  ((exists e, runWhisper run = inl e)
   <-> tempFileOk run = false \/ whisperFound run = false
       \/ startOk run = false \/ exitOk run = false)
  /\ (forall seg segs,
        tempFileOk run = true -> whisperFound run = true -> startOk run = true ->
        exitOk run = true ->
        parseWhisperOutput (collectedOutput run) = seg :: segs ->
        runWhisper run = inr (seg :: segs)).
Proof.
  split.
  - unfold runWhisper.
    destruct (tempFileOk run), (whisperFound run), (startOk run), (exitOk run); simpl;
      try (split; [intros _; auto | intros _; by eexists]).
    split; [|intros [|[|[|]]]; discriminate].
    intros [e He]. exfalso.
    destruct (length _ =? 0)%nat; [|discriminate].
    destruct (outputFile run) as [content|]; [|discriminate].
    by destruct (0 <? String.length content)%nat.
  - intros seg segs H1 H2 H3 H4 Hseg. rewrite runWhisper_success by done.
    by rewrite Hseg.
Qed.

End WhisperErrors.

Module OutputExtras.
Import F64 F64Facts GoLib Output WrapFacts OutputProofs.

Lemma fold_tokens_wrap (segs : list Segment) (tokens : Z) :
  wrap64 (fold_left (fun tokens seg => wrap64 (tokens + segmentTokens seg)) segs tokens)
  = wrap64 (tokens + sumTokens segs).
Proof.
  revert tokens. induction segs as [|seg segs IH]; intros tokens; simpl.
  - by rewrite Z.add_0_r.
  - rewrite IH, wrap64_add_l. f_equal. lia.
Qed.

(** Whatever the size of the report, [EstimateTokens] is the exact sum
    brought into the range of [int]. *)
Lemma EstimateTokens_wrap (result : Result) :
  EstimateTokens result = wrap64 (tokensExact result).
Proof.
  unfold EstimateTokens, tokensExact.
  rewrite wrap64_add_r.
  rewrite <- wrap64_add_l, fold_tokens_wrap, !wrap64_add_l.
  change (wrap64 (0 + 100)) with 100. done.
Qed.

Lemma sumTokens_Permutation (l1 l2 : list Segment) :
  l1 ≡ₚ l2 -> sumTokens l1 = sumTokens l2.
Proof. induction 1; simpl; lia. Qed.

(** The estimate depends on the segments only through their word counts
    and on the keyframes only through their number: reordering the
    segments, or replacing the keyframes by as many others, leaves it
    unchanged, overflow or not. *)
Theorem estimate_order_independent (r1 r2 : Result) :
  Segments r1 ≡ₚ Segments r2 ->
  length (Keyframes r1) = length (Keyframes r2) ->
  EstimateTokens r1 = EstimateTokens r2.
Proof.
  intros Hs Hk. rewrite !EstimateTokens_wrap. unfold tokensExact.
  by rewrite (sumTokens_Permutation _ _ Hs), Hk.
Qed.

End OutputExtras.

Module RealFacts.
Import F64 F64Facts.

Lemma Rabs_le_inv (a b : R) : (Rabs a <= b)%R -> (- b <= a <= b)%R.
Proof. unfold Rabs. destruct (Rcase_abs a); lra. Qed.

Lemma pow2_pos (e : Z) : (0 < pow2 e)%R.
Proof. apply powerRZ_lt. lra. Qed.

Lemma pow2_add (a b : Z) : pow2 (a + b) = (pow2 a * pow2 b)%R.
Proof. apply powerRZ_add. lra. Qed.

Lemma pow2_IZR (k : Z) : 0 <= k -> pow2 k = IZR (2 ^ k).
Proof.
  intros Hk. unfold pow2. rewrite <- (Z2Nat.id k Hk) at 1.
  rewrite <- pow_powerRZ. rewrite <- (Z2Nat.id k Hk) at 2.
  by rewrite pow_IZR.
Qed.

Lemma pow2_IZR_inv (k : Z) : 0 <= k -> IZR (2 ^ k) = pow2 k.
Proof. intros Hk. by rewrite pow2_IZR. Qed.

Lemma pow2_0 : pow2 0 = 1%R.
Proof. reflexivity. Qed.

Lemma pow2_ge_1 (k : Z) : 0 <= k -> (1 <= pow2 k)%R.
Proof.
  intros Hk. rewrite pow2_IZR by done. apply IZR_le.
  pose proof (Z.pow_pos_nonneg 2 k ltac:(lia) Hk). lia.
Qed.

Lemma pow2_le (a b : Z) : a <= b -> (pow2 a <= pow2 b)%R.
Proof.
  intros Hab. replace b with (a + (b - a)) by lia. rewrite pow2_add.
  pose proof (pow2_pos a). pose proof (pow2_ge_1 (b - a) ltac:(lia)). nra.
Qed.

Lemma pow2_lt (a b : Z) : a < b -> (pow2 a < pow2 b)%R.
Proof.
  intros Hab. replace b with (a + 1 + (b - a - 1)) by lia. rewrite !pow2_add.
  pose proof (pow2_pos a). pose proof (pow2_ge_1 (b - a - 1) ltac:(lia)).
  assert (pow2 1 = 2%R) as -> by (unfold pow2; simpl; lra). nra.
Qed.

Lemma pow2_opp (a : Z) : (pow2 a * pow2 (- a) = 1)%R.
Proof. rewrite <- pow2_add, Z.add_opp_diag_r. reflexivity. Qed.

Lemma pow2_neg (k : positive) : (IZR (2 ^ Zpos k) * pow2 (Zneg k) = 1)%R.
Proof. rewrite <- pow2_IZR by lia. apply (pow2_opp (Zpos k)). Qed.

(** Dropping [k] low bits of a mantissa: the value moves down onto the
    coarser grid, by less than one step of it. *)
Lemma scale_floor (M E k : Z) :
  0 <= M -> 0 <= k ->
  (IZR (M / 2 ^ k) * pow2 (E + k) <= IZR M * pow2 E
   /\ IZR (M + 1) * pow2 E <= IZR (M / 2 ^ k + 1) * pow2 (E + k))%R.
Proof.
  intros HM Hk. rewrite pow2_add, (pow2_IZR k) by done.
  pose proof (pow2_pos E) as HE.
  assert (0 < 2 ^ k) as Hpow by (by apply Z.pow_pos_nonneg).
  pose proof (Z.div_mod M (2 ^ k) ltac:(lia)) as Hdm.
  pose proof (Z.mod_pos_bound M (2 ^ k) Hpow) as Hr.
  assert (M / 2 ^ k * 2 ^ k <= M) as H1 by lia.
  assert (M + 1 <= (M / 2 ^ k + 1) * 2 ^ k) as H2 by lia.
  apply IZR_le in H1, H2. rewrite mult_IZR in H1, H2.
  split; nra.
Qed.

Lemma digits_lower (M : Z) : 0 < M -> (pow2 (Zdigits2 M - 1) <= IZR M)%R.
Proof.
  intros HM. destruct M as [|p|p]; try lia.
  pose proof (digits2_pos_lower p) as H. simpl Zdigits2.
  rewrite pow2_IZR by lia. by apply IZR_le.
Qed.

Lemma digits_upper (M : Z) : 0 <= M -> (IZR M < pow2 (Zdigits2 M))%R.
Proof.
  intros HM. pose proof (Zdigits2_nonneg M).
  rewrite pow2_IZR by done. apply IZR_lt. by apply Zdigits2_le.
Qed.

Lemma second_shift_exact (M E m'' : Z) :
  0 <= M ->
  let e' := Z.max E (fexp prec emax (Zdigits2 M + E)) in
  let m' := M / 2 ^ (e' - E) in
  m' <= m'' <= m' + 1 ->
  let e'' := Z.max e' (fexp prec emax (Zdigits2 m'' + e')) in
  m'' / 2 ^ (e'' - e') * 2 ^ (e'' - e') = m''.
Proof.
  intros HM e' m' Hm'' e''.
  assert (0 <= e' - E) as Hk by (unfold e'; lia).
  assert (0 < 2 ^ (e' - E)) as Hpow by (apply Z.pow_pos_nonneg; lia).
  assert (0 <= m') as Hm'0 by (apply Z.div_pos; lia).
  pose proof (Zdigits2_div M (e' - E) HM Hk) as Hdiv. fold m' in Hdiv.
  pose proof (Zdigits2_nonneg m') as Hd'0.
  pose proof (Zdigits2_nonneg M) as HdM0.
  assert (SpecFloat.emin prec emax <= e') as Hemin
    by (unfold e', fexp, SpecFloat.emin, prec, emax; lia).
  assert (fexp prec emax (Zdigits2 m' + e') <= e') as Hf.
  { unfold fexp, SpecFloat.emin, prec, emax in *. unfold e' in *. lia. }
  destruct (Z.le_gt_cases (Zdigits2 m'') (Zdigits2 m')) as [Hle|Hgt].
  - assert (e'' = e') as ->.
    { unfold e''. pose proof (fexp_mono (Zdigits2 m'' + e') (Zdigits2 m' + e') ltac:(lia)). lia. }
    rewrite Z.sub_diag. change (2 ^ 0) with 1. rewrite Z.div_1_r. lia.
  - assert (m' < 2 ^ Zdigits2 m') as Hu by (apply Zdigits2_le; lia).
    assert (~ m'' < 2 ^ Zdigits2 m') as Hnu.
    { intros H. apply (Zdigits2_le m'' (Zdigits2 m')) in H; lia. }
    assert (m'' = 2 ^ Zdigits2 m') as Hm by lia.
    assert (Zdigits2 m'' <= Zdigits2 m' + 1) as Hd''.
    { apply Zdigits2_le; [lia|lia|]. rewrite Z.pow_add_r by lia. change (2 ^ 1) with 2. lia. }
    assert (0 <= e'' - e' <= Zdigits2 m') as Hk2.
    { unfold e'', fexp, SpecFloat.emin, prec, emax in *. lia. }
    rewrite Hm.
    assert (2 ^ Zdigits2 m' = 2 ^ (Zdigits2 m' - (e'' - e')) * 2 ^ (e'' - e')) as ->.
    { rewrite <- Z.pow_add_r by lia. f_equal. lia. }
    rewrite Z.div_mul; [done|]. apply Z.pow_nonzero; lia.
Qed.

Lemma shr_fexp_exact (M E : Z) (l : location) :
  fexp prec emax (Zdigits2 M + E) <= E ->
  shr_fexp prec emax M E l = (shr_record_of_loc M l, E).
Proof.
  intros H. unfold shr_fexp, shr.
  destruct (fexp prec emax (Zdigits2 M + E) - E) as [|p|p] eqn:Hn; try done. lia.
Qed.

(** The shape of what [binary_round_aux] returns, away from overflow: the
    mantissa moved onto the grid of step [2^e'] and rounded to a neighbour;
    the second shift only renormalizes. *)
Lemma round_structure (sx : bool) (M E : Z) (lx : location) :
  0 <= M -> E <= 971 -> Zdigits2 M + E <= 1023 ->
  let e' := Z.max E (fexp prec emax (Zdigits2 M + E)) in
  exists m'' : Z,
    M / 2 ^ (e' - E) <= m'' <= M / 2 ^ (e' - E) + 1
    /\ (e' = E -> lx = loc_Exact -> m'' = M)
    /\ match binary_round_aux prec emax sx M E lx with
       | S754_zero s => s = sx /\ m'' = 0
       | S754_finite s m e =>
           s = sx /\ 0 < m'' /\ (IZR (Zpos m) * pow2 e = IZR m'' * pow2 e')%R
       | _ => False
       end.
Proof.
  intros HM HE Hd e'. unfold binary_round_aux.
  pose proof (shr_fexp_spec M E lx HM) as [He' Hm']. fold e' in He', Hm'.
  destruct (shr_fexp prec emax M E lx) as [mrs' e1] eqn:Hshr. simpl in He', Hm'. subst e1.
  set (m'' := round_nearest_even (shr_m mrs') (loc_of_shr_record mrs')).
  pose proof (round_nearest_even_bounds (shr_m mrs') (loc_of_shr_record mrs')) as Hb.
  fold m'' in Hb. rewrite Hm' in Hb.
  assert (0 <= e' - E) as Hk by (unfold e'; lia).
  assert (0 <= M / 2 ^ (e' - E)) as Hm'0.
  { apply Z.div_pos; [done|]. apply Z.pow_pos_nonneg; lia. }
  assert (0 <= m'') as Hm''0 by lia.
  pose proof (shr_fexp_spec m'' e' loc_Exact Hm''0) as [He'' Hm'''].
  destruct (shr_fexp prec emax m'' e' loc_Exact) as [mrs'' e2]. simpl in He'', Hm'''. subst e2.
  set (e'' := Z.max e' (fexp prec emax (Zdigits2 m'' + e'))) in *.
  pose proof (second_shift_exact M E m'' HM Hb) as Hex. cbv zeta in Hex.
  fold e' in Hex. fold e'' in Hex. rewrite <- Hm''' in Hex.
  exists m''. split; [done|]. split.
  { intros HeE Hlx. subst lx.
    rewrite shr_fexp_exact in Hshr by (unfold e' in HeE; lia).
    injection Hshr as <-. by unfold m''. }
  assert (0 <= e'' - e') as Hk2 by (unfold e''; lia).
  assert (0 < 2 ^ (e'' - e')) as Hpow2 by (apply Z.pow_pos_nonneg; lia).
  destruct (shr_m mrs'') as [|p|p] eqn:Hp.
  - split; [done|]. lia.
  - assert (e'' <= 971) as He971.
    { pose proof (Zdigits2_div M (e' - E) HM Hk) as Hdiv.
      pose proof (Zdigits2_mono m'' (M / 2 ^ (e' - E) + 1) ltac:(lia)) as Hmono.
      pose proof (Zdigits2_succ (M / 2 ^ (e' - E)) Hm'0) as Hsucc.
      pose proof (Zdigits2_nonneg M).
      unfold e'', e', fexp, SpecFloat.emin, prec, emax in *. lia. }
    change (emax - prec) with 971.
    destruct (e'' <=? 971) eqn:Hle; [|apply Z.leb_gt in Hle; lia].
    split; [done|]. split; [nia|].
    rewrite <- Hex, mult_IZR, (pow2_IZR_inv (e'' - e')) by done.
    rewrite Rmult_assoc, <- pow2_add. f_equal. f_equal. lia.
  - nia.
Qed.

Lemma digits_of_bound (M E K : Z) :
  0 <= M -> E <= K - 52 -> (IZR M * pow2 E < pow2 K)%R -> Zdigits2 M + E <= K.
Proof.
  intros HM HE HV. destruct (Z.eq_dec M 0) as [->|Hne]; [simpl; lia|].
  pose proof (digits_lower M ltac:(lia)) as Hl.
  destruct (Z.le_gt_cases (Zdigits2 M + E) K) as [|Hgt]; [done|exfalso].
  pose proof (pow2_le K (Zdigits2 M - 1 + E) ltac:(lia)) as Hle.
  rewrite pow2_add in Hle. pose proof (pow2_pos E). nra.
Qed.

(** The value [binary_round_aux] returns for a quantity [V] that lies
    between two consecutive multiples of [2^E], [M] being the lower one:
    within [eta * V + tau] of [V], and within [eta * V] when the input is
    exact and [E] is not below the least exponent. *)
Lemma round_value (sx : bool) (M E : Z) (lx : location) (V : R) :
  0 <= M -> E <= 971 -> (V < pow2 1023)%R ->
  (IZR M * pow2 E <= V < IZR (M + 1) * pow2 E)%R ->
  (lx = loc_Exact -> V = (IZR M * pow2 E)%R /\ 0 < M) ->
  (lx <> loc_Exact -> E <= fexp prec emax (Zdigits2 M + E)) ->
  exists r : R,
    (0 <= r)%R
    /\ SF2R (binary_round_aux prec emax sx M E lx) = (if sx then - r else r)%R
    /\ finite (binary_round_aux prec emax sx M E lx)
    /\ (Rabs (r - V) <= eta * V + tau)%R
    /\ (lx = loc_Exact -> -1074 <= E -> (Rabs (r - V) <= eta * V)%R)
    /\ (lx = loc_Exact -> fexp prec emax (Zdigits2 M + E) <= E -> r = V)
    /\ (forall k : Z, Zdigits2 M + E <= 53 -> E <= 0 -> (IZR k <= V)%R -> (IZR k <= r)%R).
Proof.
  intros HM HE HV HMV Hexact Hinexact.
  assert (Zdigits2 M + E <= 1023) as Hd.
  { apply digits_of_bound; [done|lia|]. lra. }
  destruct (round_structure sx M E lx HM HE Hd) as (m'' & Hb & Hsame & Hres).
  cbv zeta in *.
  set (e' := Z.max E (fexp prec emax (Zdigits2 M + E))) in *.
  assert (0 <= e' - E) as Hk by (unfold e'; lia).
  pose proof (scale_floor M E (e' - E) HM Hk) as [Hlo Hhi].
  replace (E + (e' - E)) with e' in Hlo, Hhi by lia.
  pose proof (pow2_pos e') as He'pos. pose proof (pow2_pos E) as HEpos.
  assert (0 <= M / 2 ^ (e' - E)) as Hm'0.
  { apply Z.div_pos; [done|]. apply Z.pow_pos_nonneg; lia. }
  assert (0 <= V)%R as HV0.
  { apply IZR_le in HM. nra. }
  exists (IZR m'' * pow2 e')%R.
  assert (0 <= IZR m'' * pow2 e')%R as Hr0.
  { assert (0 <= m'') as H0 by lia. apply IZR_le in H0. nra. }
  assert (Rabs (IZR m'' * pow2 e' - V) <= pow2 e')%R as Hgrid.
  { destruct Hb as [Hb1 Hb2]. apply IZR_le in Hb1, Hb2. destruct HMV as [HMV1 HMV2].
    rewrite !plus_IZR in Hb2, Hhi, HMV2.
    assert (IZR (M / 2 ^ (e' - E)) * pow2 e' <= IZR m'' * pow2 e')%R
      by (apply Rmult_le_compat_r; lra).
    assert (IZR m'' * pow2 e' <= (IZR (M / 2 ^ (e' - E)) + 1) * pow2 e')%R
      by (apply Rmult_le_compat_r; lra).
    rewrite (plus_IZR (M / 2 ^ (e' - E))) in Hhi.
    apply Rabs_le. split; lra. }
  assert (lx = loc_Exact -> e' = E -> (IZR m'' * pow2 e')%R = V) as Hsame'.
  { intros Hlx HeE. rewrite (Hsame HeE Hlx), HeE. symmetry. by apply Hexact. }
  assert (0 < eta)%R as Heta by apply pow2_pos.
  assert (0 < tau)%R as Htau by apply pow2_pos.
  assert (0 < M -> (pow2 (Zdigits2 M + E - 53) <= eta * V)%R) as Hrel.
  { intros HMpos. pose proof (digits_lower M HMpos) as Hl.
    replace (Zdigits2 M + E - 53) with ((Zdigits2 M - 1) + E + (-52)) by lia.
    rewrite !pow2_add. fold eta.
    assert (pow2 (Zdigits2 M - 1) * pow2 E <= V)%R as HX.
    { apply Rle_trans with (IZR M * pow2 E)%R; [|lra].
      apply Rmult_le_compat_r; lra. }
    pose proof (Rmult_le_compat_l eta _ _ (Rlt_le _ _ Heta) HX). lra. }
  assert (E < e' -> 0 < M -> (pow2 e' <= eta * V + tau)%R) as Hbig.
  { intros Hlt HMpos. specialize (Hrel HMpos).
    destruct (decide (-1074 < e')) as [Hn|Hn].
    - assert (e' = Zdigits2 M + E - 53) as ->
        by (unfold e', fexp, SpecFloat.emin, prec, emax in *; lia). lra.
    - assert (e' = -1074)
        as -> by (unfold e', fexp, SpecFloat.emin, prec, emax in *; lia).
      fold tau. nra. }
  assert (E < e' -> 0 < M -> -1074 <= E -> (pow2 e' <= eta * V)%R) as Hbig'.
  { intros Hlt HMpos HEmin. specialize (Hrel HMpos).
    assert (e' = Zdigits2 M + E - 53) as ->
      by (unfold e', fexp, SpecFloat.emin, prec, emax in *; lia). lra. }
  split; [done|]. split; [|split; [|split; [|split; [|split]]]].
  - destruct (binary_round_aux prec emax sx M E lx) as [s|s| |s m e]; try done.
    + destruct Hres as [-> ->]. simpl. destruct sx; lra.
    + destruct Hres as (-> & _ & <-). simpl. destruct sx; simpl; [|done].
      rewrite opp_IZR. ring.
  - by destruct (binary_round_aux prec emax sx M E lx).
  - assert (lx = loc_Exact \/ lx <> loc_Exact) as [Hlx|Hlx]
      by (destruct lx; [by left|by right]).
    + destruct (Hexact Hlx) as [_ HMpos].
      destruct (decide (e' = E)) as [HeE|HeE].
      * rewrite (Hsame' Hlx HeE). rewrite Rminus_diag, Rabs_R0. nra.
      * specialize (Hbig ltac:(lia) HMpos). lra.
    + specialize (Hinexact Hlx).
      destruct (decide (0 < M)) as [HMpos|HM0].
      * destruct (decide (e' = E)) as [HeE|HeE].
        -- assert (pow2 e' <= eta * V + tau)%R; [|lra].
           specialize (Hrel HMpos).
           destruct (decide (E = -1074)) as [->|HEmin]; [rewrite HeE; fold tau; nra|].
           assert (e' = Zdigits2 M + E - 53) as ->
             by (unfold e', fexp, SpecFloat.emin, prec, emax in *; lia). lra.
        -- specialize (Hbig ltac:(lia) HMpos). lra.
      * assert (M = 0) as -> by lia. simpl Zdigits2 in *.
        assert (e' = -1074) as Hemin
          by (unfold e', fexp, SpecFloat.emin, prec, emax in *; lia).
        assert (pow2 e' = tau) as Het by (by rewrite Hemin).
        pose proof (Rmult_le_pos eta V (Rlt_le _ _ Heta) HV0). lra.
  - intros Hlx HEmin. destruct (Hexact Hlx) as [_ HMpos].
    destruct (decide (e' = E)) as [HeE|HeE].
    + rewrite (Hsame' Hlx HeE). rewrite Rminus_diag, Rabs_R0. nra.
    + specialize (Hbig' ltac:(lia) HMpos HEmin). lra.
  - intros Hlx Hfexp. apply Hsame'; [done|]. unfold e'. lia.
  - intros k Hd53 HE0 HkV.
    assert (e' <= 0) as He'0 by (unfold e', fexp, SpecFloat.emin, prec, emax in *; lia).
    pose proof (pow2_opp e') as Hopp. pose proof (pow2_pos (- e')) as Hg.
    rewrite (pow2_IZR (- e')) in Hopp, Hg by lia.
    destruct HMV as [HMV1 HMV2]. rewrite (plus_IZR (M / 2 ^ (e' - E))) in Hhi.
    assert (IZR (k * 2 ^ (- e')) < IZR (M / 2 ^ (e' - E) + 1))%R as Hlt.
    { rewrite mult_IZR, plus_IZR.
      assert (V * IZR (2 ^ (- e')) < (IZR (M / 2 ^ (e' - E)) + 1) * pow2 e' * IZR (2 ^ (- e')))%R
        by (apply Rmult_lt_compat_r; lra).
      assert (IZR k * IZR (2 ^ (- e')) <= V * IZR (2 ^ (- e')))%R
        by (apply Rmult_le_compat_r; lra).
      rewrite Rmult_assoc, Hopp in H. lra. }
    apply lt_IZR in Hlt.
    assert (k * 2 ^ (- e') <= m'') as Hle by lia.
    apply IZR_le in Hle. rewrite mult_IZR in Hle.
    assert (IZR k * IZR (2 ^ (- e')) * pow2 e' <= IZR m'' * pow2 e')%R
      by (apply Rmult_le_compat_r; lra).
    rewrite Rmult_assoc, (Rmult_comm (IZR (2 ^ (- e')))), Hopp in H. lra.
Qed.

(** What validity says of a finite float: its exponent is the canonical
    one for the size of its mantissa. *)
Lemma valid_finite (x : float) (s : bool) (m : positive) (e : Z) :
  Prim2SF x = S754_finite s m e ->
  -1074 <= e <= 971
  /\ Zpos (digits2_pos m) <= 53
  /\ (-1074 < e -> Zpos (digits2_pos m) = 53).
Proof.
  intros Hx. pose proof (Prim2SF_valid x) as Hv. rewrite Hx in Hv.
  unfold SpecFloat.valid_binary, bounded, canonical_mantissa in Hv.
  apply andb_true_iff in Hv as [Hc He]. apply Z.eqb_eq in Hc. apply Z.leb_le in He.
  unfold fexp, SpecFloat.emin, prec, emax in *. lia.
Qed.

Lemma iter_xO_value (p d : positive) : Zpos (Pos.iter xO p d) = Zpos p * 2 ^ Zpos d.
Proof.
  induction d as [|d IH] using Pos.peano_ind.
  - simpl. lia.
  - rewrite Pos.iter_succ, Pos2Z.inj_xO, IH, Pos2Z.inj_succ, Z.pow_succ_r by lia. lia.
Qed.

(** [shl_align] keeps the value and never raises the exponent. *)
Lemma shl_align_value (p : positive) (e t : Z) :
  (IZR (Zpos (fst (shl_align p e t))) * pow2 (snd (shl_align p e t)) = IZR (Zpos p) * pow2 e)%R
  /\ snd (shl_align p e t) = Z.min e t.
Proof.
  unfold shl_align. destruct (t - e) as [|d|d] eqn:Hd; simpl.
  - split; [done|lia].
  - split; [done|lia].
  - split; [|lia]. rewrite iter_xO_value, mult_IZR.
    rewrite <- (pow2_IZR (Zpos d)) by lia.
    rewrite Rmult_assoc, <- pow2_add. f_equal. f_equal. lia.
Qed.

Lemma SF2R_sign (s : bool) (m : positive) (e : Z) :
  SF2R (S754_finite s m e) = ((if s then -1 else 1) * (IZR (Zpos m) * pow2 e))%R.
Proof. simpl. destruct s; simpl; [rewrite opp_IZR|]; ring. Qed.

Lemma rounds_exact (f : spec_float) : finite f -> rounds f (SF2R f) 0.
Proof.
  intros Hf. split; [done|]. split; [|done].
  rewrite Rminus_diag, Rabs_R0.
  pose proof (Rabs_pos (SF2R f)). pose proof (pow2_pos (-52)). fold eta in *. nra.
Qed.

(** Rounding a signed magnitude with [binary_round_aux]. *)
Lemma round_signed (sx : bool) (M E : Z) (lx : location) (W : R) :
  0 <= M -> E <= 971 -> (0 < W < pow2 1023)%R ->
  (IZR M * pow2 E <= W < IZR (M + 1) * pow2 E)%R ->
  (lx = loc_Exact -> W = (IZR M * pow2 E)%R /\ 0 < M) ->
  (lx <> loc_Exact -> E <= fexp prec emax (Zdigits2 M + E)) ->
  rounds (binary_round_aux prec emax sx M E lx) (if sx then - W else W) tau
  /\ (lx = loc_Exact -> -1074 <= E ->
      rounds (binary_round_aux prec emax sx M E lx) (if sx then - W else W) 0)
  /\ (lx = loc_Exact -> fexp prec emax (Zdigits2 M + E) <= E ->
      SF2R (binary_round_aux prec emax sx M E lx) = (if sx then - W else W)%R)
  /\ (forall k : Z, sx = false -> Zdigits2 M + E <= 53 -> E <= 0 -> (IZR k <= W)%R ->
      (IZR k <= SF2R (binary_round_aux prec emax sx M E lx))%R).
Proof.
  intros HM HE [HWpos HW] HMW Hex Hin.
  destruct (round_value sx M E lx W HM HE HW HMW Hex Hin)
    as (r & Hr0 & Hval & Hfin & Herr & Hrel & Hsame & Hint).
  assert (0 <= W)%R as HW0 by lra.
  assert (Rabs (if sx then - W else W) = W)%R as Habs.
  { destruct sx; [rewrite Rabs_Ropp|]; by apply Rabs_pos_eq. }
  assert (Rabs (SF2R (binary_round_aux prec emax sx M E lx) - (if sx then - W else W))
          = Rabs (r - W))%R as Hdiff.
  { rewrite Hval. destruct sx; [|done].
    replace (- r - - W)%R with (- (r - W))%R by ring. apply Rabs_Ropp. }
  split; [|split; [intros Hlx HEmin; specialize (Hrel Hlx HEmin)|split]].
  - split; [done|]. rewrite Hdiff, Habs. split; [done|].
    rewrite Hval. destruct sx; split; intros; lra.
  - split; [done|]. rewrite Hdiff, Habs. split; [lra|].
    rewrite Hval. destruct sx; split; intros; lra.
  - intros Hlx Hfexp. by rewrite Hval, (Hsame Hlx Hfexp).
  - intros k -> Hd53 HE0 Hk. rewrite Hval. by apply Hint.
Qed.

Lemma IZR_cond_Zopp (s : bool) (z : Z) :
  IZR (cond_Zopp s z) = ((if s then -1 else 1) * IZR z)%R.
Proof. destruct s; simpl; [rewrite opp_IZR|]; ring. Qed.

(** [binary_normalize]: one rounding of the scaled integer, exact when the
    integer has 53 bits or fewer and the exponent is not below the least
    one. *)
Lemma normalize_rounds (z e : Z) (szero : bool) :
  -1074 <= e <= 971 ->
  (Rabs (IZR z * pow2 e) < pow2 1023)%R ->
  rounds (binary_normalize prec emax z e szero) (IZR z * pow2 e) 0
  /\ (Z.abs z < 2 ^ 53 ->
      SF2R (binary_normalize prec emax z e szero) = (IZR z * pow2 e)%R).
Proof.
  intros He HV. pose proof (pow2_pos e) as Hpe.
  assert (forall (s : bool) (p : positive),
            (IZR (Zpos p) * pow2 e < pow2 1023)%R ->
            rounds (binary_round prec emax s p e)
                   (if s then - (IZR (Zpos p) * pow2 e) else IZR (Zpos p) * pow2 e) 0
            /\ (Zpos p < 2 ^ 53 ->
                SF2R (binary_round prec emax s p e)
                = (if s then - (IZR (Zpos p) * pow2 e) else IZR (Zpos p) * pow2 e)%R)) as Hround.
  { intros s p Hp. unfold binary_round.
    pose proof (shl_align_value p e (fexp prec emax (Zpos (digits2_pos p) + e))) as [Hval Hexp].
    pose proof (shl_align_spec p e (fexp prec emax (Zpos (digits2_pos p) + e))) as [Hdig _].
    destruct (shl_align p e _) as [mz ez]. simpl in Hval, Hexp, Hdig.
    assert (0 < IZR (Zpos p))%R as Hpp by (apply IZR_lt; lia).
    assert (0 < IZR (Zpos p) * pow2 e)%R as HW by nra.
    destruct (round_signed s (Zpos mz) ez loc_Exact (IZR (Zpos p) * pow2 e))
      as (_ & H0 & Hsame & _).
    - lia.
    - unfold fexp, SpecFloat.emin, prec, emax in *. lia.
    - lra.
    - rewrite Hval, plus_IZR. pose proof (pow2_pos ez). rewrite <- Hval. nra.
    - intros _. split; [by rewrite Hval|lia].
    - done.
    - split.
      + apply H0; [done|]. unfold fexp, SpecFloat.emin, prec, emax in *. lia.
      + intros Hsmall. apply Hsame; [done|]. simpl Zdigits2. rewrite Hdig.
        assert (Zpos (digits2_pos p) <= 53).
        { apply (Zdigits2_le (Zpos p) 53); lia. }
        unfold fexp, SpecFloat.emin, prec, emax in *. lia. }
  destruct z as [|p|p]; simpl binary_normalize.
  - split; [|intros _; simpl; ring].
    replace (IZR 0 * pow2 e)%R with (SF2R (S754_zero szero)) by (simpl; ring).
    by apply rounds_exact.
  - apply (Hround false p). rewrite Rabs_pos_eq in HV; [done|].
    assert (0 < IZR (Zpos p))%R by (apply IZR_lt; lia). nra.
  - assert (IZR (Z.neg p) * pow2 e = - (IZR (Zpos p) * pow2 e))%R as Hneg.
    { change (Z.neg p) with (- Zpos p). rewrite opp_IZR. ring. }
    rewrite Hneg. apply (Hround true p).
    rewrite Hneg, Rabs_Ropp, Rabs_pos_eq in HV; [done|].
    assert (0 < IZR (Zpos p))%R by (apply IZR_lt; lia). nra.
Qed.

Lemma finite_is_finite (x : float) : is_finite x = true <-> finite (Prim2SF x).
Proof. unfold is_finite, finite. by destruct (Prim2SF x). Qed.

Lemma aligned_value (x : float) (s : bool) (m : positive) (e ez : Z) :
  Prim2SF x = S754_finite s m e -> ez <= e ->
  (IZR (cond_Zopp s (Zpos (fst (shl_align m e ez)))) * pow2 ez)%R = F2R x.
Proof.
  intros Hx Hez. unfold F2R. rewrite Hx. simpl SF2R.
  pose proof (shl_align_value m e ez) as [Hval Hexp].
  rewrite Z.min_r in Hexp by done. rewrite Hexp in Hval.
  rewrite !IZR_cond_Zopp, !Rmult_assoc. by rewrite Hval.
Qed.

(** Addition and subtraction of finite floats: one rounding of the exact
    result, with no absolute error. *)
Lemma add_rounds (x y : float) :
  is_finite x = true -> is_finite y = true ->
  (Rabs (F2R x + F2R y) < pow2 1023)%R ->
  rounds (Prim2SF (x + y)) (F2R x + F2R y) 0.
Proof.
  intros Hx Hy HV. rewrite add_spec. unfold SF64add, SFadd.
  unfold is_finite in Hx, Hy. unfold F2R in *.
  destruct (Prim2SF x) as [sx|sx| |sx mx ex] eqn:Ex; try discriminate;
    destruct (Prim2SF y) as [sy|sy| |sy my ey] eqn:Ey; try discriminate.
  - replace (SF2R (S754_zero sx) + SF2R (S754_zero sy))%R with 0%R by (simpl; ring).
    destruct sx, sy; exact (rounds_exact (S754_zero _) I).
  - replace (SF2R (S754_zero sx) + SF2R (S754_finite sy my ey))%R
      with (SF2R (S754_finite sy my ey)) by (simpl; ring).
    by apply rounds_exact.
  - replace (SF2R (S754_finite sx mx ex) + SF2R (S754_zero sy))%R
      with (SF2R (S754_finite sx mx ex)) by (simpl; ring).
    by apply rounds_exact.
  - destruct (valid_finite x sx mx ex Ex) as (Hex & _).
    destruct (valid_finite y sy my ey Ey) as (Hey & _).
    pose proof (aligned_value x sx mx ex (Z.min ex ey) Ex ltac:(lia)) as Hvx.
    pose proof (aligned_value y sy my ey (Z.min ex ey) Ey ltac:(lia)) as Hvy.
    unfold F2R in Hvx, Hvy. rewrite Ex in Hvx. rewrite Ey in Hvy.
    rewrite <- Hvx, <- Hvy in *. rewrite <- Rmult_plus_distr_r, <- plus_IZR in *.
    apply normalize_rounds; [lia|done].
Qed.

Lemma sub_rounds (x y : float) :
  is_finite x = true -> is_finite y = true ->
  (Rabs (F2R x - F2R y) < pow2 1023)%R ->
  rounds (Prim2SF (x - y)) (F2R x - F2R y) 0.
Proof.
  intros Hx Hy HV. rewrite sub_spec. unfold SF64sub, SFsub.
  unfold is_finite in Hx, Hy. unfold F2R in *.
  destruct (Prim2SF x) as [sx|sx| |sx mx ex] eqn:Ex; try discriminate;
    destruct (Prim2SF y) as [sy|sy| |sy my ey] eqn:Ey; try discriminate.
  - replace (SF2R (S754_zero sx) - SF2R (S754_zero sy))%R with 0%R by (simpl; ring).
    destruct sx, sy; exact (rounds_exact (S754_zero _) I).
  - replace (SF2R (S754_zero sx) - SF2R (S754_finite sy my ey))%R
      with (SF2R (S754_finite (negb sy) my ey)).
    + by apply rounds_exact.
    + rewrite !SF2R_sign. simpl. destruct sy; simpl; ring.
  - replace (SF2R (S754_finite sx mx ex) - SF2R (S754_zero sy))%R
      with (SF2R (S754_finite sx mx ex)) by (simpl; ring).
    by apply rounds_exact.
  - destruct (valid_finite x sx mx ex Ex) as (Hex & _).
    destruct (valid_finite y sy my ey Ey) as (Hey & _).
    pose proof (aligned_value x sx mx ex (Z.min ex ey) Ex ltac:(lia)) as Hvx.
    pose proof (aligned_value y sy my ey (Z.min ex ey) Ey ltac:(lia)) as Hvy.
    unfold F2R in Hvx, Hvy. rewrite Ex in Hvx. rewrite Ey in Hvy.
    rewrite <- Hvx, <- Hvy in *. rewrite <- Rmult_minus_distr_r, <- minus_IZR in *.
    apply normalize_rounds; [lia|done].
Qed.

(** [float64(n)] for an integer of 53 bits or fewer is exact. *)
Lemma float_of_int_exact (n : Z) :
  0 <= n < 2 ^ 53 ->
  is_finite (float_of_int n) = true /\ F2R (float_of_int n) = IZR n.
Proof.
  intros Hn. unfold F2R, float_of_int, is_finite.
  rewrite of_uint63_spec, Uint63.of_Z_spec.
  change Uint63.wB with (2 ^ 63).
  rewrite Z.mod_small by (split; [lia|]; eapply Z.lt_trans; [apply Hn|done]).
  assert (IZR n * pow2 0 = IZR n)%R as H0 by (rewrite pow2_0; ring).
  assert (Rabs (IZR n * pow2 0) < pow2 1023)%R as HV.
  { rewrite H0, Rabs_pos_eq by (apply IZR_le; lia).
    apply Rlt_le_trans with (pow2 53); [|apply pow2_le; lia].
    rewrite pow2_IZR by lia. apply IZR_lt. lia. }
  destruct (normalize_rounds n 0 false ltac:(lia) HV) as [(Hfin & _) Hexact].
  split.
  - by destruct (binary_normalize prec emax n 0 false).
  - rewrite Hexact, H0; [done|]. lia.
Qed.

Lemma rounds_weaken (f : spec_float) (V t t' : R) :
  (t <= t')%R -> rounds f V t -> rounds f V t'.
Proof. intros Ht (Hf & Herr & Hs). split; [done|]. split; [lra|done]. Qed.

Lemma tau_pos : (0 < tau)%R.
Proof. apply pow2_pos. Qed.

Lemma eta_pos : (0 < eta)%R.
Proof. apply pow2_pos. Qed.

Lemma rounds_zero (s : bool) (V t : R) : V = 0%R -> (0 <= t)%R -> rounds (S754_zero s) V t.
Proof.
  intros -> Ht. apply (rounds_weaken _ _ 0); [done|]. exact (rounds_exact (S754_zero s) I).
Qed.

(** The magnitude of a finite float is positive, and at least [2^52] times
    the unit of its exponent unless that is the least exponent. *)
Lemma mantissa_pos (m : positive) : (1 <= IZR (Zpos m))%R.
Proof. apply IZR_le. lia. Qed.

(** Multiplication of finite floats: one rounding of the exact product. *)
Lemma mul_rounds (x y : float) :
  is_finite x = true -> is_finite y = true ->
  (Rabs (F2R x * F2R y) < pow2 1023)%R ->
  rounds (Prim2SF (x * y)) (F2R x * F2R y) tau.
Proof.
  intros Hx Hy HV. rewrite mul_spec. unfold SF64mul, SFmul.
  unfold is_finite in Hx, Hy. unfold F2R in *.
  pose proof tau_pos as Htau.
  destruct (Prim2SF x) as [sx|sx| |sx mx ex] eqn:Ex; try discriminate;
    destruct (Prim2SF y) as [sy|sy| |sy my ey] eqn:Ey; try discriminate;
    try (apply rounds_zero; [simpl; ring|lra]).
  destruct (valid_finite x sx mx ex Ex) as (Hex & Hdx & Hnx).
  destruct (valid_finite y sy my ey Ey) as (Hey & Hdy & Hny).
  rewrite !SF2R_sign in *.
  set (A := (IZR (Zpos mx) * pow2 ex)%R) in *. set (B := (IZR (Zpos my) * pow2 ey)%R) in *.
  assert ((if sx then -1 else 1) * A * ((if sy then -1 else 1) * B)
          = (if xorb sx sy then - (A * B) else A * B))%R as HVeq
    by (destruct sx, sy; simpl; ring).
  rewrite HVeq in *. set (W := (A * B)%R) in *.
  assert (W = IZR (Zpos (mx * my)) * pow2 (ex + ey))%R as HW.
  { unfold W, A, B. rewrite Pos2Z.inj_mul, mult_IZR, pow2_add. ring. }
  pose proof (mantissa_pos mx). pose proof (mantissa_pos my).
  pose proof (pow2_pos ex). pose proof (pow2_pos ey).
  assert (0 < A)%R as HA by (unfold A; nra).
  assert (0 < B)%R as HB by (unfold B; nra).
  assert (0 < W)%R as HWpos by (unfold W; nra).
  assert (W < pow2 1023)%R as HWlt.
  { destruct (xorb sx sy); [rewrite Rabs_Ropp in HV|]; by rewrite Rabs_pos_eq in HV by lra. }
  assert (ex + ey <= 971) as HE.
  { destruct (Z.le_gt_cases (ex + ey) 971) as [|Hgt]; [done|exfalso].
    pose proof (digits_lower (Zpos mx) ltac:(lia)) as Hlx.
    pose proof (digits_lower (Zpos my) ltac:(lia)) as Hly.
    simpl Zdigits2 in Hlx, Hly. rewrite Hnx in Hlx by lia. rewrite Hny in Hly by lia.
    change (53 - 1) with 52 in Hlx, Hly.
    pose proof (pow2_le 1023 (52 + 52 + (ex + ey)) ltac:(lia)) as Hle.
    rewrite !pow2_add in Hle. pose proof (pow2_pos 52).
    assert (pow2 52 * pow2 ex <= A)%R by (unfold A; nra).
    assert (pow2 52 * pow2 ey <= B)%R by (unfold B; nra).
    assert (0 < pow2 52 * pow2 ex)%R by nra.
    assert (0 < pow2 52 * pow2 ey)%R by nra.
    assert (pow2 52 * pow2 ex * (pow2 52 * pow2 ey) <= W)%R by (unfold W; nra).
    nra. }
  destruct (round_signed (xorb sx sy) (Zpos (mx * my)) (ex + ey) loc_Exact W) as (Hres & _).
  - lia.
  - done.
  - lra.
  - rewrite plus_IZR, <- HW. pose proof (pow2_pos (ex + ey)). nra.
  - intros _. split; [done|lia].
  - done.
  - done.
Qed.

(** Magnitudes of valid floats compare first by exponent. *)
Lemma mag_exp_lt (x y : float) (s1 s2 : bool) (m1 m2 : positive) (e1 e2 : Z) :
  Prim2SF x = S754_finite s1 m1 e1 -> Prim2SF y = S754_finite s2 m2 e2 ->
  e1 < e2 -> (IZR (Zpos m1) * pow2 e1 < IZR (Zpos m2) * pow2 e2)%R.
Proof.
  intros Hx Hy Hlt.
  destruct (valid_finite x s1 m1 e1 Hx) as (He1 & Hd1 & _).
  destruct (valid_finite y s2 m2 e2 Hy) as (He2 & _ & Hn2).
  pose proof (digits_upper (Zpos m1) ltac:(lia)) as Hu. simpl Zdigits2 in Hu.
  pose proof (digits_lower (Zpos m2) ltac:(lia)) as Hl. simpl Zdigits2 in Hl.
  rewrite Hn2 in Hl by lia. change (53 - 1) with 52 in Hl.
  pose proof (pow2_le _ 53 Hd1) as H53.
  pose proof (pow2_le (53 + e1) (52 + e2) ltac:(lia)) as Hle. rewrite !pow2_add in Hle.
  pose proof (pow2_pos e1). pose proof (pow2_pos e2). pose proof (pow2_pos 52).
  assert (IZR (Zpos m1) * pow2 e1 < pow2 53 * pow2 e1)%R
    by (apply Rmult_lt_compat_r; lra).
  assert (pow2 52 * pow2 e2 <= IZR (Zpos m2) * pow2 e2)%R
    by (apply Rmult_le_compat_r; lra).
  lra.
Qed.

Lemma mag_cmp (x y : float) (s1 s2 : bool) (m1 m2 : positive) (e1 e2 : Z) :
  Prim2SF x = S754_finite s1 m1 e1 -> Prim2SF y = S754_finite s2 m2 e2 ->
  let W1 := (IZR (Zpos m1) * pow2 e1)%R in
  let W2 := (IZR (Zpos m2) * pow2 e2)%R in
  match (match (e1 ?= e2) with Eq => Pos.compare_cont Eq m1 m2 | Lt => Lt | Gt => Gt end) with
  | Lt => (W1 < W2)%R
  | Eq => W1 = W2
  | Gt => (W2 < W1)%R
  end.
Proof.
  intros Hx Hy W1 W2. destruct (Z.compare_spec e1 e2) as [->|Hlt|Hgt].
  - change (Pos.compare_cont Eq m1 m2) with (Pos.compare m1 m2).
    pose proof (pow2_pos e2).
    destruct (Pos.compare_spec m1 m2) as [->|Hm|Hm]; [done| |].
    + apply Rmult_lt_compat_r; [done|]. apply IZR_lt. lia.
    + apply Rmult_lt_compat_r; [done|]. apply IZR_lt. lia.
  - by apply (mag_exp_lt x y s1 s2).
  - by apply (mag_exp_lt y x s2 s1).
Qed.

(** The comparison of two finite floats is that of the reals they stand
    for. *)
Lemma compare_F2R (x y : float) :
  is_finite x = true -> is_finite y = true ->
  match SFcompare (Prim2SF x) (Prim2SF y) with
  | Some Lt => (F2R x < F2R y)%R
  | Some Eq => F2R x = F2R y
  | Some Gt => (F2R y < F2R x)%R
  | None => False
  end.
Proof.
  unfold is_finite, F2R. intros Hx Hy.
  destruct (Prim2SF x) as [s1|s1| |s1 m1 e1] eqn:Ex; try discriminate;
    destruct (Prim2SF y) as [s2|s2| |s2 m2 e2] eqn:Ey; try discriminate.
  - done.
  - rewrite SF2R_sign. pose proof (mantissa_pos m2). pose proof (pow2_pos e2).
    simpl. destruct s2; nra.
  - rewrite SF2R_sign. pose proof (mantissa_pos m1). pose proof (pow2_pos e1).
    simpl. destruct s1; nra.
  - rewrite !SF2R_sign.
    pose proof (mantissa_pos m1). pose proof (pow2_pos e1).
    pose proof (mantissa_pos m2). pose proof (pow2_pos e2).
    pose proof (mag_cmp x y s1 s2 m1 m2 e1 e2 Ex Ey) as Hc. cbv zeta in Hc.
    unfold SFcompare.
    destruct s1, s2; [| nra | nra |].
    + destruct (e1 ?= e2); [destruct (Pos.compare_cont Eq m1 m2)| |]; simpl; lra.
    + destruct (e1 ?= e2); [destruct (Pos.compare_cont Eq m1 m2)| |]; simpl; lra.
Qed.

Lemma ltb_F2R (x y : float) :
  is_finite x = true -> is_finite y = true ->
  (x <? y)%float = true <-> (F2R x < F2R y)%R.
Proof.
  intros Hx Hy. pose proof (compare_F2R x y Hx Hy) as Hc.
  rewrite ltb_spec. unfold SFltb.
  destruct (SFcompare (Prim2SF x) (Prim2SF y)) as [[]|]; [| | |done];
    split; try done; intros; lra.
Qed.

Lemma leb_F2R (x y : float) :
  is_finite x = true -> is_finite y = true ->
  (x <=? y)%float = true <-> (F2R x <= F2R y)%R.
Proof.
  intros Hx Hy. pose proof (compare_F2R x y Hx Hy) as Hc.
  rewrite leb_spec. unfold SFleb.
  destruct (SFcompare (Prim2SF x) (Prim2SF y)) as [[]|]; [| | |done];
    split; try done; intros; lra.
Qed.

(** A float compared with a finite one is finite unless it is an infinity
    on the far side. *)
Lemma leb_finite (x lo hi : float) :
  is_finite lo = true -> is_finite hi = true ->
  (lo <=? x)%float = true -> (x <=? hi)%float = true -> is_finite x = true.
Proof.
  rewrite !leb_spec. unfold SFleb, is_finite.
  destruct (Prim2SF x) as [s|s| |s m e]; try done.
  destruct (Prim2SF lo) as [sl|sl| |sl ml el], (Prim2SF hi) as [sh|sh| |sh mh eh];
    try done; destruct s; simpl; try done;
    try destruct sl; try destruct sh; simpl; done.
Qed.

(** [int(f)] for a finite, non-negative [f]: the integer part. *)
Lemma int_of_float_floor (f : float) (k : Z) :
  is_finite f = true -> 0 <= k <= max_int64 ->
  (IZR k <= F2R f < IZR k + 1)%R ->
  int_of_float f = k.
Proof.
  unfold is_finite, F2R, int_of_float. intros Hf Hk HV.
  destruct (Prim2SF f) as [s|s| |s m e]; try discriminate.
  - simpl in HV. destruct HV as [H1 H2].
    apply le_IZR in H1. rewrite <- plus_IZR in H2. apply lt_IZR in H2. lia.
  - rewrite SF2R_sign in HV. pose proof (mantissa_pos m). pose proof (pow2_pos e).
    assert (0 <= IZR k)%R by (apply IZR_le; lia).
    destruct s; [nra|]. simpl cond_Zopp.
    assert (Z.shiftl (Zpos m) e = k) as ->.
    { destruct (Z.le_gt_cases 0 e) as [He|He].
      - rewrite Z.shiftl_mul_pow2 by done.
        rewrite pow2_IZR, <- mult_IZR in HV by done.
        destruct HV as [H2 H3]. rewrite Rmult_1_l in H2, H3.
        apply le_IZR in H2. rewrite <- plus_IZR in H3. apply lt_IZR in H3. lia.
      - rewrite Z.shiftl_div_pow2 by lia.
        pose proof (pow2_opp e) as Hopp. pose proof (pow2_pos (- e)) as Hg.
        rewrite (pow2_IZR (- e)) in Hopp, Hg by lia.
        destruct HV as [H2 H3]. rewrite Rmult_1_l in H2, H3.
        assert (IZR (k * 2 ^ (- e)) <= IZR (Zpos m))%R as Hlo.
        { rewrite mult_IZR.
          assert (IZR k * IZR (2 ^ (- e)) <= IZR (Zpos m) * pow2 e * IZR (2 ^ (- e)))%R
            as Hmul by (apply Rmult_le_compat_r; lra).
          rewrite Rmult_assoc, Hopp in Hmul. lra. }
        assert (IZR (Zpos m) < IZR ((k + 1) * 2 ^ (- e)))%R as Hhi.
        { rewrite mult_IZR, plus_IZR.
          assert (IZR (Zpos m) * pow2 e * IZR (2 ^ (- e)) < (IZR k + 1) * IZR (2 ^ (- e)))%R
            as Hmul by (apply Rmult_lt_compat_r; lra).
          rewrite Rmult_assoc, Hopp in Hmul. lra. }
        apply le_IZR in Hlo. apply lt_IZR in Hhi.
        assert (0 < 2 ^ (- e)) by (apply Z.pow_pos_nonneg; lia).
        symmetry. apply (Z.div_unique _ _ _ (Zpos m - k * 2 ^ (- e))); lia. }
    unfold in_int64, min_int64, max_int64 in *.
    destruct (- 2 ^ 63 <=? k) eqn:Hlo63; [|apply Z.leb_gt in Hlo63; lia].
    destruct (k <=? 2 ^ 63 - 1) eqn:Hhi63; [done|apply Z.leb_gt in Hhi63; lia].
Qed.

(** The rounded product of two non-negative floats is not below an integer
    that the exact product is not below (integers are floats up to
    [2^53]). *)
Lemma mul_ge_int (x y : float) (k : Z) :
  is_finite x = true -> is_finite y = true ->
  (0 <= F2R x)%R -> (0 <= F2R y)%R ->
  (F2R x * F2R y < pow2 53)%R ->
  (IZR k <= F2R x * F2R y)%R -> (IZR k <= F2R (x * y))%R.
Proof.
  intros Hx Hy Hx0 Hy0 HV Hk. unfold F2R in *. rewrite mul_spec. unfold SF64mul, SFmul.
  unfold is_finite in Hx, Hy.
  destruct (Prim2SF x) as [sx|sx| |sx mx ex] eqn:Ex; try discriminate;
    destruct (Prim2SF y) as [sy|sy| |sy my ey] eqn:Ey; try discriminate;
    try (simpl in *; lra).
  destruct (valid_finite x sx mx ex Ex) as (Hex & Hdx & Hnx).
  destruct (valid_finite y sy my ey Ey) as (Hey & Hdy & Hny).
  rewrite !SF2R_sign in *.
  pose proof (mantissa_pos mx). pose proof (mantissa_pos my).
  pose proof (pow2_pos ex). pose proof (pow2_pos ey).
  set (A := (IZR (Zpos mx) * pow2 ex)%R) in *. set (B := (IZR (Zpos my) * pow2 ey)%R) in *.
  assert (0 < A)%R as HA by (unfold A; nra).
  assert (0 < B)%R as HB by (unfold B; nra).
  destruct sx; [lra|]. destruct sy; [lra|]. simpl xorb.
  rewrite !Rmult_1_l in *.
  set (W := (A * B)%R) in *.
  assert (W = IZR (Zpos (mx * my)) * pow2 (ex + ey))%R as HW.
  { unfold W, A, B. rewrite Pos2Z.inj_mul, mult_IZR, pow2_add. ring. }
  assert (0 < W)%R as HWpos by (unfold W; nra).
  assert (ex + ey <= 0) as HE.
  { destruct (Z.le_gt_cases (ex + ey) 0) as [|Hgt]; [done|exfalso].
    pose proof (digits_lower (Zpos mx) ltac:(lia)) as Hlx.
    pose proof (digits_lower (Zpos my) ltac:(lia)) as Hly.
    simpl Zdigits2 in Hlx, Hly. rewrite Hnx in Hlx by lia. rewrite Hny in Hly by lia.
    change (53 - 1) with 52 in Hlx, Hly.
    pose proof (pow2_le 53 (52 + 52 + (ex + ey)) ltac:(lia)) as Hle.
    rewrite !pow2_add in Hle. pose proof (pow2_pos 52).
    assert (pow2 52 * pow2 ex <= A)%R by (unfold A; nra).
    assert (pow2 52 * pow2 ey <= B)%R by (unfold B; nra).
    assert (0 < pow2 52 * pow2 ex)%R by nra.
    assert (0 < pow2 52 * pow2 ey)%R by nra.
    assert (pow2 52 * pow2 ex * (pow2 52 * pow2 ey) <= W)%R by (unfold W; nra).
    nra. }
  destruct (round_signed false (Zpos (mx * my)) (ex + ey) loc_Exact W) as (_ & _ & _ & Hint).
  - lia.
  - lia.
  - split; [done|]. apply Rlt_le_trans with (pow2 53); [done|]. apply pow2_le. lia.
  - rewrite plus_IZR, <- HW. pose proof (pow2_pos (ex + ey)). nra.
  - intros _. split; [done|lia].
  - done.
  - apply Hint; try done. apply digits_of_bound; [lia|lia|]. by rewrite <- HW.
Qed.

Lemma new_location_exact (n r : Z) : new_location n r = loc_Exact <-> r = 0.
Proof.
  unfold new_location, new_location_even, new_location_odd.
  destruct (Z.even n); destruct (Z.eqb_spec r 0); split; try done.
Qed.

(** The quotient [SFdiv_core_binary] hands to the rounding: the integer
    part of the real quotient at exponent [E], with at least 53 bits unless
    [E] is at the least exponent. *)
Lemma div_core (mx my : positive) (ex ey : Z) :
  let V := (IZR (Zpos mx) * pow2 ex / (IZR (Zpos my) * pow2 ey))%R in
  (V < pow2 1023)%R ->
  exists (q E : Z) (l : location),
    SFdiv_core_binary prec emax (Zpos mx) ex (Zpos my) ey = (q, E, l)
    /\ 0 <= q /\ E <= 971
    /\ (IZR q * pow2 E <= V < IZR (q + 1) * pow2 E)%R
    /\ (l = loc_Exact -> V = (IZR q * pow2 E)%R /\ 0 < q)
    /\ (l <> loc_Exact -> E <= fexp prec emax (Zdigits2 q + E)).
Proof.
  intros V HV. unfold SFdiv_core_binary.
  set (d1 := Zdigits2 (Zpos mx)). set (d2 := Zdigits2 (Zpos my)).
  set (D := d1 + ex - (d2 + ey)).
  set (E := Z.min (fexp prec emax D) (ex - ey)).
  set (s := ex - ey - E).
  assert (0 <= s) as Hs by (unfold s, E; lia).
  set (m' := match s with 0 => Zpos mx | Zpos _ => Z.shiftl (Zpos mx) s | Zneg _ => 0 end).
  assert (m' = Zpos mx * 2 ^ s) as Hm'.
  { unfold m'. destruct s as [|p|p] eqn:Hsp; [simpl; lia| |lia].
    by rewrite Z.shiftl_mul_pow2. }
  pose proof (Z_div_mod m' (Zpos my) ltac:(lia)) as Hdiv.
  destruct (Z.div_eucl m' (Zpos my)) as [q r]. destruct Hdiv as [Hqr Hr].
  exists q, E, (new_location (Zpos my) r). split; [done|].
  assert (0 < 2 ^ s) as Hpow by (by apply Z.pow_pos_nonneg).
  assert (0 < m') as Hm'pos by (rewrite Hm'; lia).
  assert (0 <= q) as Hq by nia.
  pose proof (mantissa_pos mx) as Hmx. pose proof (mantissa_pos my) as Hmy.
  pose proof (pow2_pos ex) as Hpex. pose proof (pow2_pos ey) as Hpey.
  pose proof (pow2_pos E) as HpE.
  assert (V * IZR (Zpos my) = IZR m' * pow2 E)%R as HVm.
  { unfold V. rewrite Hm', mult_IZR, <- (pow2_IZR s) by done.
    replace ex with (s + E + ey) at 1 by (unfold s; lia). rewrite !pow2_add.
    field. split; lra. }
  assert (IZR m' = IZR (Zpos my) * IZR q + IZR r)%R as HmR.
  { rewrite Hqr, plus_IZR, mult_IZR. done. }
  assert (0 <= IZR r < IZR (Zpos my))%R as HrR.
  { split; [apply IZR_le; lia|apply IZR_lt; lia]. }
  assert (0 < V)%R as HVpos.
  { unfold V. apply Rdiv_lt_0_compat; nra. }
  assert (V * IZR (Zpos my) = (IZR q * pow2 E) * IZR (Zpos my) + IZR r * pow2 E)%R as HV2.
  { rewrite HVm, HmR. ring. }
  assert (IZR q * pow2 E <= V < IZR (q + 1) * pow2 E)%R as Hbounds.
  { rewrite plus_IZR. split.
    - apply Rmult_le_reg_r with (IZR (Zpos my)); [lra|]. rewrite HV2. nra.
    - apply Rmult_lt_reg_r with (IZR (Zpos my)); [lra|]. rewrite HV2. nra. }
  assert (D <= 1024) as HD.
  { destruct (Z.le_gt_cases D 1024) as [|Hgt]; [done|exfalso].
    pose proof (digits_lower (Zpos mx) ltac:(lia)) as Hl. fold d1 in Hl.
    pose proof (digits_upper (Zpos my) ltac:(lia)) as Hu. fold d2 in Hu.
    pose proof (pow2_le 1023 (d1 - 1 + ex - (d2 + ey)) ltac:(unfold D in Hgt; lia)) as Hle.
    pose proof (pow2_pos (d2 + ey)) as Hp2.
    assert (pow2 (d1 - 1 + ex - (d2 + ey)) * pow2 (d2 + ey) = pow2 (d1 - 1) * pow2 ex)%R as Heq.
    { rewrite <- !pow2_add. f_equal. lia. }
    assert (IZR (Zpos my) * pow2 ey < pow2 (d2 + ey))%R as Hden.
    { rewrite pow2_add. apply Rmult_lt_compat_r; lra. }
    assert (pow2 (d1 - 1) * pow2 ex <= IZR (Zpos mx) * pow2 ex)%R as Hnum
      by (apply Rmult_le_compat_r; lra).
    assert (V * (IZR (Zpos my) * pow2 ey) = IZR (Zpos mx) * pow2 ex)%R as HVd.
    { unfold V. field. split; lra. }
    assert (0 < IZR (Zpos my) * pow2 ey)%R by nra.
    nra. }
  split; [done|]. split; [unfold E, fexp, SpecFloat.emin, prec, emax; lia|].
  split; [done|]. split.
  - intros Hl. apply new_location_exact in Hl. subst r.
    split; [|nia].
    apply Rmult_eq_reg_r with (IZR (Zpos my)); [|lra]. rewrite HV2. simpl. ring.
  - intros _.
    destruct (Z.le_gt_cases (fexp prec emax D) (-1074)) as [Hmin|Hnorm].
    { unfold E, fexp, SpecFloat.emin, prec, emax in *. lia. }
    assert (E <= D - 53) as HED by (unfold E, fexp, SpecFloat.emin, prec, emax in *; lia).
    assert (2 ^ 52 <= q) as Hq52.
    { pose proof (digits2_pos_lower mx) as Hl. pose proof (digits2_pos_bound my) as Hu.
      change (Zpos (digits2_pos mx)) with d1 in Hl.
      change (Zpos (digits2_pos my)) with d2 in Hu.
      assert (0 < d1) by (unfold d1; simpl; lia).
      assert (0 < d2) by (unfold d2; simpl; lia).
      assert (d2 + 53 - d1 <= s) as Hs53 by (unfold s, D in *; lia).
      assert (2 ^ (52 + d2) <= 2 ^ (d1 - 1 + s)) as Hp by (apply Z.pow_le_mono_r; lia).
      rewrite !Z.pow_add_r in Hp by lia.
      assert (2 ^ (d1 - 1) * 2 ^ s <= Zpos mx * 2 ^ s) as Hp2
        by (apply Z.mul_le_mono_nonneg_r; lia).
      destruct (Z.le_gt_cases (2 ^ 52) q) as [|Hlt]; [done|exfalso].
      assert (Zpos my * (q + 1) <= Zpos my * 2 ^ 52) as Hp3
        by (apply Z.mul_le_mono_nonneg_l; lia).
      assert (Zpos my * 2 ^ 52 < 2 ^ d2 * 2 ^ 52) as Hp4
        by (apply Z.mul_lt_mono_pos_r; lia).
      lia. }
    assert (53 <= Zdigits2 q) as Hdq.
    { destruct (Z.le_gt_cases 53 (Zdigits2 q)) as [|Hlt]; [done|exfalso].
      assert (Zdigits2 q <= 52) as H52 by lia.
      apply (Zdigits2_le q 52) in H52; lia. }
    unfold fexp, SpecFloat.emin, prec, emax. lia.
Qed.

(** Division of a finite float by a finite, non-zero one: one rounding of
    the exact quotient. *)
Lemma div_rounds (x y : float) :
  is_finite x = true -> is_finite y = true -> F2R y <> 0%R ->
  (Rabs (F2R x / F2R y) < pow2 1023)%R ->
  rounds (Prim2SF (x / y)) (F2R x / F2R y) tau.
Proof.
  intros Hx Hy Hy0 HV. rewrite div_spec. unfold SF64div, SFdiv.
  unfold is_finite in Hx, Hy. unfold F2R in *.
  pose proof tau_pos as Htau.
  destruct (Prim2SF x) as [sx|sx| |sx mx ex] eqn:Ex; try discriminate;
    destruct (Prim2SF y) as [sy|sy| |sy my ey] eqn:Ey; try discriminate;
    try (by simpl in Hy0).
  - apply rounds_zero; [|lra]. simpl SF2R at 1. unfold Rdiv. ring.
  - rewrite !SF2R_sign in *.
    pose proof (mantissa_pos mx). pose proof (mantissa_pos my).
    pose proof (pow2_pos ex). pose proof (pow2_pos ey).
    set (A := (IZR (Zpos mx) * pow2 ex)%R) in *. set (B := (IZR (Zpos my) * pow2 ey)%R) in *.
    assert (0 < A)%R as HA by (unfold A; nra).
    assert (0 < B)%R as HB by (unfold B; nra).
    assert ((if sx then -1 else 1) * A / ((if sy then -1 else 1) * B)
            = (if xorb sx sy then - (A / B) else A / B))%R as HVeq.
    { destruct sx, sy; simpl; field; lra. }
    rewrite HVeq in *.
    assert (0 < A / B)%R as HWpos by (by apply Rdiv_lt_0_compat).
    assert (A / B < pow2 1023)%R as HWlt.
    { destruct (xorb sx sy); [rewrite Rabs_Ropp in HV|]; by rewrite Rabs_pos_eq in HV by lra. }
    destruct (div_core mx my ex ey HWlt) as (q & E & l & -> & Hq & HE & Hb & Hexact & Hinexact).
    by destruct (round_signed (xorb sx sy) q E l (A / B)%R Hq HE (conj HWpos HWlt)
                   Hb Hexact Hinexact) as (Hres & _).
Qed.

Lemma sqrt_ge (g x : R) : (0 <= g)%R -> (g * g <= x)%R -> (g <= R_sqrt.sqrt x)%R.
Proof.
  intros Hg Hx. rewrite <- (sqrt_square g Hg). by apply sqrt_le_1_alt.
Qed.

Lemma sqrt_lt (g x : R) : (0 <= g)%R -> (0 <= x < g * g)%R -> (R_sqrt.sqrt x < g)%R.
Proof.
  intros Hg Hx. rewrite <- (sqrt_square g Hg). by apply sqrt_lt_1_alt.
Qed.

Lemma sqrt_exp_bounds (d ex : Z) :
  0 < d <= 53 -> -1074 <= ex <= 971 ->
  let E := Z.min (fexp prec emax (Z.div2 (d + ex + 1))) (Z.div2 ex) in
  E <= (d + ex + 1) / 2 - 53 /\ 2 * E <= ex /\ -1074 <= E /\ E <= 971.
Proof.
  intros Hd Hex. cbv zeta. rewrite !Z.div2_div.
  unfold fexp, SpecFloat.emin, prec, emax.
  pose proof (Z.div_mod (d + ex + 1) 2 ltac:(lia)).
  pose proof (Z.mod_pos_bound (d + ex + 1) 2 ltac:(lia)).
  pose proof (Z.div_mod ex 2 ltac:(lia)).
  pose proof (Z.mod_pos_bound ex 2 ltac:(lia)).
  lia.
Qed.

(** The root [SFsqrt_core_binary] hands to the rounding: the integer part
    of the real square root at exponent [E], with at least 53 bits. *)
Lemma sqrt_core (mx : positive) (ex : Z) :
  -1074 <= ex <= 971 -> Zpos (digits2_pos mx) <= 53 ->
  let V := R_sqrt.sqrt (IZR (Zpos mx) * pow2 ex) in
  exists (q E : Z) (l : location),
    SFsqrt_core_binary prec emax (Zpos mx) ex = (q, E, l)
    /\ 0 <= q /\ E <= 971
    /\ (0 < V < pow2 1023)%R
    /\ (IZR q * pow2 E <= V < IZR (q + 1) * pow2 E)%R
    /\ (l = loc_Exact -> V = (IZR q * pow2 E)%R /\ 0 < q)
    /\ (l <> loc_Exact -> E <= fexp prec emax (Zdigits2 q + E)).
Proof.
  intros Hex Hdx V. unfold SFsqrt_core_binary.
  set (d := Zdigits2 (Zpos mx)).
  assert (0 < d <= 53) as Hd by (unfold d; simpl; lia).
  set (E := Z.min (fexp prec emax (Z.div2 (d + ex + 1))) (Z.div2 ex)).
  pose proof (sqrt_exp_bounds d ex Hd Hex) as (HE1 & HE2 & HE3 & HE4). fold E in HE1, HE2, HE3, HE4.
  set (s := ex - 2 * E).
  assert (105 - d <= s) as Hs.
  { pose proof (Z.div_mod (d + ex + 1) 2 ltac:(lia)).
    pose proof (Z.mod_pos_bound (d + ex + 1) 2 ltac:(lia)). unfold s. lia. }
  set (m' := match s with 0 => Zpos mx | Zpos _ => Z.shiftl (Zpos mx) s | Zneg _ => 0 end).
  assert (m' = Zpos mx * 2 ^ s) as Hm'.
  { unfold m'. destruct s as [|p|p] eqn:Hsp; [lia| |lia].
    by rewrite Z.shiftl_mul_pow2. }
  assert (0 < 2 ^ s) as Hpow by (apply Z.pow_pos_nonneg; lia).
  assert (2 ^ 104 <= m') as Hm104.
  { pose proof (digits2_pos_lower mx) as Hl. change (Zpos (digits2_pos mx)) with d in Hl.
    assert (2 ^ 104 <= 2 ^ (d - 1 + s)) as Hp by (apply Z.pow_le_mono_r; lia).
    rewrite Z.pow_add_r in Hp by lia.
    assert (2 ^ (d - 1) * 2 ^ s <= Zpos mx * 2 ^ s) by (apply Z.mul_le_mono_nonneg_r; lia).
    lia. }
  pose proof (Z.sqrtrem_spec m' ltac:(lia)) as Hsq.
  destruct (Z.sqrtrem m') as [q r]. destruct Hsq as [Hqr Hr].
  exists q, E, (if r =? 0 then loc_Exact
                else loc_Inexact (if r <=? q then Lt else Gt)).
  split; [done|].
  assert (0 <= q) as Hq by lia.
  assert (2 ^ 52 <= q) as Hq52.
  { destruct (Z.le_gt_cases (2 ^ 52) q) as [|Hlt]; [done|exfalso].
    assert (q + 1 <= 2 ^ 52) as Hq1 by lia.
    assert ((q + 1) * (q + 1) <= 2 ^ 52 * 2 ^ 52) as Hsq2
      by (apply Z.mul_le_mono_nonneg; lia).
    change (2 ^ 52 * 2 ^ 52) with (2 ^ 104) in Hsq2. lia. }
  pose proof (mantissa_pos mx) as Hmx. pose proof (pow2_pos ex) as Hpex.
  pose proof (pow2_pos E) as HpE.
  set (x := (IZR (Zpos mx) * pow2 ex)%R) in *.
  assert (0 < x)%R as Hx by (unfold x; nra).
  assert (x = (IZR (q * q) + IZR r) * (pow2 E * pow2 E))%R as Hxq.
  { unfold x. rewrite <- plus_IZR, <- Hqr, Hm', mult_IZR, <- (pow2_IZR s) by lia.
    rewrite <- pow2_add, Rmult_assoc, <- pow2_add. f_equal. f_equal. unfold s. lia. }
  rewrite mult_IZR in Hxq.
  assert (0 <= IZR q)%R as HqR by (apply IZR_le; lia).
  assert (0 <= IZR r <= 2 * IZR q)%R as HrR.
  { split; [apply IZR_le; lia|]. rewrite <- (mult_IZR 2). apply IZR_le. lia. }
  assert (IZR q * pow2 E <= V < IZR (q + 1) * pow2 E)%R as Hb.
  { rewrite plus_IZR. split.
    - apply sqrt_ge; [nra|]. rewrite Hxq. nra.
    - apply sqrt_lt; [nra|]. split; [lra|]. rewrite Hxq. nra. }
  assert (0 < V)%R as HVpos by (by apply sqrt_lt_R0).
  assert (V < pow2 1023)%R as HV.
  { apply Rlt_trans with (pow2 512); [|apply pow2_lt; lia].
    pose proof (pow2_pos 512). apply sqrt_lt; [lra|]. split; [lra|].
    rewrite <- pow2_add. change (512 + 512) with 1024.
    pose proof (digits_upper (Zpos mx) ltac:(lia)) as Hu. fold d in Hu.
    pose proof (pow2_le d 53 ltac:(lia)).
    pose proof (pow2_le (53 + ex) 1024 ltac:(lia)) as Hle. rewrite pow2_add in Hle.
    assert (x < pow2 53 * pow2 ex)%R by (unfold x; apply Rmult_lt_compat_r; lra).
    lra. }
  split; [done|]. split; [done|]. split; [done|]. split; [done|]. split.
  - destruct (Z.eqb_spec r 0) as [->|Hne]; [|done]. intros _. split; [|lia].
    unfold V. rewrite Hxq. replace ((IZR q * IZR q + IZR 0) * (pow2 E * pow2 E))%R
      with ((IZR q * pow2 E) * (IZR q * pow2 E))%R by (simpl; ring).
    apply sqrt_square. nra.
  - intros _.
    assert (53 <= Zdigits2 q) as Hdq.
    { destruct (Z.le_gt_cases 53 (Zdigits2 q)) as [|Hlt]; [done|exfalso].
      assert (Zdigits2 q <= 52) as H52 by lia.
      apply (Zdigits2_le q 52) in H52; lia. }
    unfold fexp, SpecFloat.emin, prec, emax. lia.
Qed.

(** The square root of a finite, non-negative float: one rounding of the
    exact root. *)
Lemma sqrt_rounds (x : float) :
  is_finite x = true -> (0 <= F2R x)%R ->
  rounds (Prim2SF (PrimFloat.sqrt x)) (R_sqrt.sqrt (F2R x)) tau.
Proof.
  intros Hx Hx0. rewrite sqrt_spec. unfold SF64sqrt, SFsqrt.
  unfold is_finite in Hx. unfold F2R in *. pose proof tau_pos as Htau.
  destruct (Prim2SF x) as [sx|sx| |sx mx ex] eqn:Ex; try discriminate.
  - apply rounds_zero; [|lra]. simpl. apply sqrt_0.
  - destruct (valid_finite x sx mx ex Ex) as (Hex & Hdx & _).
    rewrite SF2R_sign in *.
    pose proof (mantissa_pos mx). pose proof (pow2_pos ex).
    destruct sx; [nra|]. rewrite Rmult_1_l.
    destruct (sqrt_core mx ex Hex Hdx) as (q & E & l & -> & Hq & HE & HV & Hb & Hexact & Hinexact).
    by destruct (round_signed false q E l _ Hq HE HV Hb Hexact Hinexact) as (Hres & _).
Qed.

End RealFacts.

Module FlatBounds.
Import F64 F64Facts RealFacts.

Lemma eta_eq : eta = (/ 4503599627370496)%R.
Proof.
  unfold eta. pose proof (pow2_neg 52) as H.
  change (2 ^ 52) with 4503599627370496 in H. lra.
Qed.

Lemma tau_le : (tau <= / 1000000000000000000000000000000)%R.
Proof.
  apply Rle_trans with (pow2 (-100)); [apply pow2_le; lia|].
  pose proof (pow2_neg 100) as H.
  change (2 ^ 100) with 1267650600228229401496703205376 in H. lra.
Qed.

(** One more term of the sum of a flat vector: the relative error stays
    below [200000 * eta]. *)
Lemma sum_step (s s' X c : R) :
  (0 <= c)%R -> (0 <= X <= 99999 * c)%R ->
  (Rabs (s - X) <= 200000 * eta * X)%R ->
  (Rabs (s' - (s + c)) <= eta * Rabs (s + c) + 0)%R ->
  (Rabs (s' - (X + c)) <= 200000 * eta * (X + c))%R.
Proof.
  rewrite eta_eq. intros Hc HX Hs Hs'.
  apply Rabs_le_inv in Hs.
  assert (0 <= s + c)%R as Hpos by lra.
  rewrite (Rabs_pos_eq _ Hpos) in Hs'. apply Rabs_le_inv in Hs'.
  apply Rabs_le. lra.
Qed.

(** One more term of the sum of squares. *)
Lemma sumsq_step (ss ss' Y p : R) :
  (0 <= p)%R -> (0 <= Y <= 99999 * p)%R ->
  (0 <= ss <= (1 + 200000 * eta) * Y)%R ->
  (Rabs (ss' - (ss + p)) <= eta * Rabs (ss + p) + 0)%R ->
  (ss' <= (1 + 200000 * eta) * (Y + p))%R.
Proof.
  rewrite eta_eq. intros Hp HY Hss Hss'.
  assert (0 <= ss + p)%R as Hpos by lra.
  rewrite (Rabs_pos_eq _ Hpos) in Hss'. apply Rabs_le_inv in Hss'. lra.
Qed.

Lemma div_by_count (s n X c b : R) :
  (1 <= n)%R -> X = (n * c)%R -> (Rabs (s - X) <= b * X)%R -> (Rabs (s / n - c) <= b * c)%R.
Proof.
  intros Hn -> Hs. apply Rabs_le_inv in Hs. apply Rabs_le.
  assert (s / n * n = s)%R as Hq by (field; lra).
  set (q := (s / n)%R) in *. rewrite <- Hq in Hs.
  split.
  - apply Rmult_le_reg_r with n; [lra|]. lra.
  - apply Rmult_le_reg_r with n; [lra|]. lra.
Qed.

(** From the mean to the deviation of a flat vector with entries in
    [[0, 2]]: every step is one rounding, and the deviation stays below
    [9e-11]. *)
Lemma flat_dev (c q m d : R) :
  (0 <= c <= 2)%R ->
  (Rabs (q - c) <= 200000 * eta * c)%R ->
  (Rabs (m - q) <= eta * Rabs q + tau)%R ->
  (Rabs (d - (c - m)) <= eta * Rabs (c - m) + 0)%R ->
  (0 <= q <= 3)%R
  /\ (Rabs (c - m) <= 8889 / 100000000000000)%R
  /\ (Rabs d <= 889 / 10000000000000)%R
  /\ (0 <= d * d <= 7904 / 1000000000000000000000000)%R.
Proof.
  pose proof tau_le as Htau. pose proof tau_pos as Htau0. rewrite eta_eq.
  intros Hc Hq Hm Hd.
  apply Rabs_le_inv in Hq.
  assert (0 <= q <= 3)%R as Hq0 by lra.
  rewrite (Rabs_pos_eq q) in Hm by lra. apply Rabs_le_inv in Hm.
  assert (Rabs (c - m) <= 8889 / 100000000000000)%R as Hcm.
  { apply Rabs_le. lra. }
  assert (Rabs d <= 889 / 10000000000000)%R as Hdb.
  { apply Rabs_le_inv in Hd. pose proof (Rabs_pos (c - m)).
    apply Rabs_le. lra. }
  split; [done|]. split; [done|]. split; [done|].
  apply Rabs_le_inv in Hdb. split; nra.
Qed.

Lemma flat_chain (c q m d p w v r sd : R) :
  (0 <= c <= 2)%R ->
  (Rabs (q - c) <= 200000 * eta * c)%R ->
  (Rabs (m - q) <= eta * Rabs q + tau)%R ->
  (Rabs (d - (c - m)) <= eta * Rabs (c - m) + 0)%R ->
  (Rabs (p - d * d) <= eta * Rabs (d * d) + tau)%R ->
  (0 <= w <= (1 + 200000 * eta) * p)%R ->
  (Rabs (v - w) <= eta * Rabs w + tau)%R ->
  (0 <= v)%R -> (0 <= r)%R -> (r * r = v)%R ->
  (Rabs (sd - r) <= eta * Rabs r + tau)%R ->
  (sd < 9 / 100000000000)%R.
Proof.
  intros Hc Hq Hm Hd Hp Hw Hv Hv0 Hr0 Hr Hsd.
  destruct (flat_dev c q m d Hc Hq Hm Hd) as (_ & _ & _ & Hdd).
  pose proof tau_le as Htau. pose proof tau_pos as Htau0. rewrite eta_eq in *.
  rewrite (Rabs_pos_eq (d * d)) in Hp by lra. apply Rabs_le_inv in Hp.
  rewrite (Rabs_pos_eq w) in Hv by lra. apply Rabs_le_inv in Hv.
  assert (v <= 7905 / 1000000000000000000000000)%R as Hvb by lra.
  assert (r <= 8892 / 100000000000000)%R as Hrb.
  { destruct (Rle_lt_dec r (8892 / 100000000000000)) as [|Hgt]; [done|exfalso]. nra. }
  rewrite (Rabs_pos_eq r Hr0) in Hsd. apply Rabs_le_inv in Hsd. lra.
Qed.

End FlatBounds.

Module FlatVector.
Import F64 F64Facts RealFacts FlatBounds Video VideoProofs.

Lemma fold_replicate_S {A B : Type} (f : A -> B -> A) (n : nat) (c : B) (a : A) :
  fold_left f (replicate (S n) c) a = f (fold_left f (replicate n c) a) c.
Proof. by rewrite replicate_S_end, fold_left_app. Qed.

Lemma F2R_zero : F2R 0%float = 0%R.
Proof. reflexivity. Qed.

Lemma F2R_one : F2R 1%float = 1%R.
Proof.
  unfold F2R. change (Prim2SF 1%float) with (S754_finite false 4503599627370496 (-52)).
  rewrite SF2R_sign. pose proof (pow2_neg 52) as H.
  change (2 ^ 52) with 4503599627370496 in H. lra.
Qed.

Lemma big_enough : (1000000 < pow2 1023)%R.
Proof.
  apply Rlt_le_trans with (pow2 20); [|apply pow2_le; lia].
  rewrite (pow2_IZR 20) by lia. change (2 ^ 20) with 1048576. lra.
Qed.

Lemma count_le (k : nat) (b : Z) : Z.of_nat k <= b -> (0 <= INR k <= IZR b)%R.
Proof.
  intros H. split; [apply pos_INR|]. rewrite INR_IZR_INZ. by apply IZR_le.
Qed.

(** The sum of a flat vector of [k] entries, each [c] in [[0, 2]]. *)
Lemma sum_flat (c : float) (k : nat) :
  is_finite c = true -> (0 <= F2R c <= 2)%R -> Z.of_nat k <= flatLimit ->
  is_finite (sumOf (replicate k c)) = true
  /\ (Rabs (F2R (sumOf (replicate k c)) - INR k * F2R c)
      <= 200000 * eta * (INR k * F2R c))%R.
Proof.
  intros Hc Hcr. unfold sumOf, flatLimit. induction k as [|k IH]; intros Hk.
  - simpl. split; [done|]. rewrite F2R_zero, Rmult_0_l, Rminus_diag, Rabs_R0. lra.
  - destruct IH as [Hfin Herr]; [lia|].
    rewrite fold_replicate_S. set (S0 := fold_left PrimFloat.add (replicate k c) 0%float) in *.
    pose proof (count_le k 99999 ltac:(lia)) as HkR.
    assert (0 <= INR k * F2R c <= 99999 * F2R c)%R as HX by nra.
    pose proof big_enough as Hbig. pose proof eta_eq as Heta.
    assert (Rabs (F2R S0 + F2R c) < pow2 1023)%R as Hsmall.
    { apply Rabs_le_inv in Herr. apply Rabs_def1; rewrite Heta in Herr; lra. }
    destruct (add_rounds S0 c Hfin Hc Hsmall) as (Hf & Hround & _).
    split; [by apply finite_is_finite|].
    rewrite S_INR. replace ((INR k + 1) * F2R c)%R with (INR k * F2R c + F2R c)%R by ring.
    apply (sum_step (F2R S0) _ (INR k * F2R c) (F2R c)); [lra|done|done|exact Hround].
Qed.

(** The sum of squares of a flat vector: [k] times the same square [p]. *)
Lemma sumsq_flat (c mean : float) (k : nat) :
  let p := ((c - mean) * (c - mean))%float in
  is_finite p = true -> (0 <= F2R p <= 1)%R -> Z.of_nat k <= flatLimit ->
  is_finite (sumSqOf (replicate k c) mean) = true
  /\ (0 <= F2R (sumSqOf (replicate k c) mean)
      <= (1 + 200000 * eta) * (INR k * F2R p))%R.
Proof.
  intros p Hp Hpr. unfold sumSqOf, flatLimit. induction k as [|k IH]; intros Hk.
  - simpl. split; [done|]. rewrite F2R_zero, Rmult_0_l, Rmult_0_r. lra.
  - destruct IH as [Hfin Herr]; [lia|].
    rewrite fold_replicate_S. set (S0 := fold_left (sqStep mean) (replicate k c) 0%float) in *.
    change (sqStep mean S0 c) with (S0 + p)%float.
    pose proof (count_le k 99999 ltac:(lia)) as HkR.
    assert (0 <= INR k * F2R p <= 99999 * F2R p)%R as HY by nra.
    pose proof big_enough as Hbig. pose proof eta_eq as Heta.
    assert (Rabs (F2R S0 + F2R p) < pow2 1023)%R as Hsmall.
    { apply Rabs_def1; rewrite Heta in Herr; lra. }
    destruct (add_rounds S0 p Hfin Hp Hsmall) as (Hf & Hround & Hsign & _).
    split; [by apply finite_is_finite|].
    rewrite S_INR. replace ((INR k + 1) * F2R p)%R with (INR k * F2R p + F2R p)%R by ring.
    split; [apply Hsign; lra|].
    apply (sumsq_step (F2R S0) _ (INR k * F2R p) (F2R p)); [lra|done|done|exact Hround].
Qed.

Lemma F2R_two : F2R 2%float = 2%R.
Proof.
  unfold F2R. change (Prim2SF 2%float) with (S754_finite false 4503599627370496 (-51)).
  rewrite SF2R_sign. pose proof (pow2_neg 51) as H.
  change (2 ^ 51) with 2251799813685248 in H. lra.
Qed.

Lemma guard_value : (9 / 100000000000 < F2R 1e-10%float)%R.
Proof.
  unfold F2R. change (Prim2SF 1e-10%float) with (S754_finite false 7737125245533627 (-86)).
  rewrite SF2R_sign. pose proof (pow2_neg 86) as H.
  change (2 ^ 86) with 77371252455336267181195264 in H. lra.
Qed.

(** The deviation computed for a flat vector of at most [flatLimit]
    entries in [[0, 2]] is below the guard [1e-10]. *)
Lemma std_flat (c : float) (k : nat) :
  (0 <=? c)%float = true -> (c <=? 2)%float = true ->
  (0 < k)%nat -> Z.of_nat k <= flatLimit ->
  (stdOf (replicate k c) <? 1e-10)%float = true.
Proof.
  intros Hc0 Hc2 Hk0 Hk.
  assert (is_finite c = true) as Hfc by (by apply (leb_finite c 0 2)).
  assert (0 <= F2R c <= 2)%R as Hcr.
  { split.
    - rewrite <- F2R_zero. by apply leb_F2R.
    - rewrite <- F2R_two. by apply leb_F2R. }
  destruct (sum_flat c k Hfc Hcr Hk) as [HfS HS].
  unfold stdOf, meanOf. rewrite length_replicate.
  set (S0 := sumOf (replicate k c)) in *.
  destruct (float_of_int_exact (Z.of_nat k)) as [Hfn Hvn].
  { unfold flatLimit in Hk. lia. }
  set (nf := float_of_int (Z.of_nat k)) in *.
  rewrite <- INR_IZR_INZ in Hvn.
  assert (1 <= INR k)%R as Hn1.
  { change 1%R with (INR 1). apply le_INR. lia. }
  pose proof big_enough as Hbig. pose proof eta_eq as Heta.
  pose proof tau_le as Htau. pose proof tau_pos as Htau0.
  (* the mean *)
  pose proof (div_by_count (F2R S0) (INR k) _ (F2R c) (200000 * eta) Hn1 eq_refl HS) as Hq.
  set (q := (F2R S0 / INR k)%R) in *.
  assert (0 <= q <= 3)%R as Hq3.
  { apply Rabs_le_inv in Hq. rewrite Heta in Hq. lra. }
  destruct (div_rounds S0 nf HfS Hfn) as (Hfm & Hm & _).
  { rewrite Hvn. lra. }
  { rewrite Hvn. fold q. rewrite Rabs_pos_eq; lra. }
  rewrite Hvn in Hm. fold q in Hm. apply finite_is_finite in Hfm.
  set (mean := (S0 / nf)%float) in *. fold (F2R mean) in Hm.
  (* the difference and its square *)
  assert (Rabs (F2R c - F2R mean) < pow2 1023)%R as Hdsmall.
  { rewrite (Rabs_pos_eq q) in Hm by lra. apply Rabs_le_inv in Hm. rewrite Heta in Hm.
    apply Rabs_def1; lra. }
  destruct (sub_rounds c mean Hfc Hfm Hdsmall) as (Hfd & Hd & _).
  apply finite_is_finite in Hfd.
  set (d := (c - mean)%float) in *. fold (F2R d) in Hd.
  destruct (flat_dev (F2R c) q (F2R mean) (F2R d) Hcr Hq Hm Hd) as (_ & Hcm & Hdb & Hdd).
  assert (Rabs (F2R d * F2R d) < pow2 1023)%R as Hpsmall.
  { rewrite Rabs_pos_eq; lra. }
  destruct (mul_rounds d d Hfd Hfd Hpsmall) as (Hfp & Hp & Hpsign & _).
  apply finite_is_finite in Hfp.
  set (p := (d * d)%float) in *. fold (F2R p) in Hp, Hpsign.
  assert (0 <= F2R p <= 1)%R as Hp01.
  { split; [apply Hpsign; lra|].
    rewrite (Rabs_pos_eq (F2R d * F2R d)) in Hp by lra.
    apply Rabs_le_inv in Hp. rewrite Heta in Hp. lra. }
  (* the sum of squares and the variance *)
  destruct (sumsq_flat c mean k Hfp Hp01 Hk) as [HfSS HSS].
  fold d in HSS. fold p in HSS.
  set (SS := sumSqOf (replicate k c) mean) in *.
  set (w := (F2R SS / INR k)%R).
  assert (w * INR k = F2R SS)%R as Hwk by (unfold w; field; lra).
  assert (0 <= w <= (1 + 200000 * eta) * F2R p)%R as Hw.
  { rewrite <- Hwk in HSS. rewrite Heta in *. split.
    - apply Rmult_le_reg_r with (INR k); [lra|]. lra.
    - apply Rmult_le_reg_r with (INR k); [lra|]. lra. }
  destruct (div_rounds SS nf HfSS Hfn) as (Hfv & Hv & Hvsign & _).
  { rewrite Hvn. lra. }
  { rewrite Hvn. fold w. rewrite Rabs_pos_eq by lra. rewrite Heta in Hw. lra. }
  rewrite Hvn in Hv, Hvsign. fold w in Hv, Hvsign. apply finite_is_finite in Hfv.
  set (var := (SS / nf)%float) in *. fold (F2R var) in Hv, Hvsign.
  specialize (Hvsign ltac:(lra)).
  (* the root and the guard *)
  destruct (sqrt_rounds var Hfv Hvsign) as (Hfsd & Hsd & _).
  apply finite_is_finite in Hfsd.
  set (sd := PrimFloat.sqrt var) in *. fold (F2R sd) in Hsd.
  pose proof (flat_chain (F2R c) q (F2R mean) (F2R d) (F2R p) w (F2R var)
                (R_sqrt.sqrt (F2R var)) (F2R sd) Hcr Hq Hm Hd Hp Hw Hv Hvsign
                (sqrt_pos _) (sqrt_sqrt _ Hvsign) Hsd) as Hfinal.
  apply ltb_F2R; [done|done|]. pose proof guard_value. lra.
Qed.

(** A flat frame scores exactly 1 against every frame of its size. *)
Theorem flat_frame_scores_one (c : float) (k : nat) (b : list float) :
  (0 <=? c)%float = true -> (c <=? 2)%float = true ->
  (0 < k)%nat -> Z.of_nat k <= flatLimit ->
  length b = k ->
  (stdOf (replicate k c) <? 1e-10)%float = true
  /\ normalizedCrossCorrelation (replicate k c) b = 1%float
  /\ normalizedCrossCorrelation b (replicate k c) = 1%float.
Proof.
  intros Hc0 Hc2 Hk0 Hk Hb.
  pose proof (std_flat c k Hc0 Hc2 Hk0 Hk) as Hstd.
  split; [done|]. split.
  - apply ncc_flat; [by rewrite length_replicate| |by left].
    destruct k; [lia|done].
  - apply ncc_flat; [by rewrite length_replicate| |by right].
    destruct b; [simpl in Hb; lia|done].
Qed.

End FlatVector.

Module TokenFloor.
Import F64 F64Facts RealFacts GoLib Output OutputProofs.

Lemma F2R_13 :
  is_finite 1.3%float = true
  /\ F2R 1.3%float = (IZR 5854679515581645 * pow2 (-52))%R.
Proof. split; reflexivity. Qed.

Lemma pow2_m52 : (4503599627370496 * pow2 (-52) = 1)%R.
Proof. rewrite <- (pow2_opp 52). by rewrite (pow2_IZR 52). Qed.

(** [int(float64(w) * 1.3)] is [13 * w / 10] rounded down. *)
Lemma scaled_count_floor (w : Z) :
  0 <= w < 2 ^ 32 ->
  int_of_float (float_of_int w * 1.3)%float = 13 * w / 10.
Proof.
  intros Hw.
  destruct (float_of_int_exact w) as [Hfw Hvw].
  { split; [lia|]. eapply Z.lt_trans; [apply Hw|done]. }
  destruct F2R_13 as [Hfc Hvc].
  pose proof pow2_m52 as HP. pose proof (pow2_pos (-52)) as HPpos.
  set (P := pow2 (-52)) in *.
  assert (0 <= IZR w < 4294967296)%R as HwR.
  { split; [apply IZR_le; lia|]. apply IZR_lt. lia. }
  set (X := (IZR w * P)%R).
  assert (0 <= X <= IZR w)%R as HX.
  { unfold X. split; [nra|]. assert (P <= 1)%R by lra. nra. }
  assert (X * 4503599627370496 = IZR w)%R as HXw by (unfold X; nra).
  set (V := (F2R (float_of_int w) * F2R 1.3%float)%R).
  assert (10 * V = 13 * IZR w + 2 * X)%R as HV.
  { unfold V. rewrite Hvw, Hvc. fold P. unfold X. nra. }
  pose proof (Z.div_mod (13 * w) 10 ltac:(lia)) as Hdm.
  pose proof (Z.mod_pos_bound (13 * w) 10 ltac:(lia)) as Hr.
  set (k := 13 * w / 10) in *. set (r := (13 * w) mod 10) in *.
  assert (13 * IZR w = 10 * IZR k + IZR r)%R as HkR.
  { rewrite <- (mult_IZR 13), <- (mult_IZR 10), <- plus_IZR. by f_equal. }
  assert (0 <= IZR r <= 9)%R as HrR.
  { split; [apply IZR_le; lia|]. apply IZR_le. lia. }
  assert (0 <= k < 2 ^ 36) as Hk.
  { unfold k. split; [apply Z.div_pos; lia|].
    apply Z.div_lt_upper_bound; [lia|]. lia. }
  assert (V < pow2 53)%R as HV53.
  { rewrite (pow2_IZR 53) by lia. change (2 ^ 53) with 9007199254740992. lra. }
  assert (Rabs V < pow2 1023)%R as HV1023.
  { rewrite Rabs_pos_eq by lra. apply Rlt_le_trans with (pow2 53); [done|].
    apply pow2_le. lia. }
  destruct (mul_rounds (float_of_int w) 1.3%float Hfw Hfc HV1023) as (Hfin & Herr & _).
  fold V in Herr. rewrite (Rabs_pos_eq V) in Herr by lra.
  assert (IZR k <= F2R (float_of_int w * 1.3))%R as Hlo.
  { apply mul_ge_int; try done.
    - rewrite Hvw. lra.
    - rewrite Hvc. fold P. lra.
    - fold V. lra. }
  apply int_of_float_floor.
  - by apply finite_is_finite.
  - unfold max_int64. lia.
  - split; [done|].
    apply Rabs_le_inv in Herr. fold (F2R (float_of_int w * 1.3)%float) in Herr.
    assert (tau <= P)%R as Htau by (apply pow2_le; lia).
    assert (eta * V <= 2 * X)%R as HetaV.
    { unfold eta. fold P. assert (V <= 2 * IZR w)%R by lra.
      unfold X. nra. }
    assert (X < / 1000000)%R; [|lra].
    assert (X * 4503599627370496 < 4294967296)%R by lra. lra.
Qed.

Lemma sumTokens_floor (segs : list Segment) :
  Forall (fun seg => wordCount seg < 2 ^ 32) segs -> sumTokens segs = wordTokens segs.
Proof.
  induction 1 as [|seg segs Hseg _ IH]; [done|]. simpl. rewrite IH. f_equal.
  unfold segmentTokens. fold (wordCount seg). apply scaled_count_floor.
  unfold wordCount in *. lia.
Qed.

(** Each segment counts for 1.3 tokens a word, rounded down: the float
    product [float64(words) * 1.3] truncates to [13 * words / 10] (13 for ten
    words).  So a report that stays within [int] is estimated at 100, plus
    that count for each segment, plus 1000 for each keyframe. *)
Theorem estimate_formula :
  (forall seg : Segment,
      wordCount seg < 2 ^ 32 -> segmentTokens seg = 13 * wordCount seg / 10)
  /\ (forall result : Result,
        Forall (fun seg => wordCount seg < 2 ^ 32) (Segments result) ->
        100 + wordTokens (Segments result) + Z.of_nat (length (Keyframes result)) * 1000
          <= max_int64 ->
        EstimateTokens result
        = 100 + wordTokens (Segments result) + Z.of_nat (length (Keyframes result)) * 1000).
Proof.
  split.
  - intros seg Hseg. unfold segmentTokens. fold (wordCount seg).
    apply scaled_count_floor. unfold wordCount in *. lia.
  - intros result Hsegs Hmax.
    rewrite EstimateTokens_exact.
    + unfold tokensExact. by rewrite sumTokens_floor.
    + split.
      * eapply Forall_impl; [exact Hsegs|]. simpl. intros seg Hseg.
        eapply Z.lt_trans; [exact Hseg|done].
      * unfold tokensExact. by rewrite sumTokens_floor.
Qed.

End TokenFloor.

Module IntFloat.
Import F64 F64Facts RealFacts FlatBounds FlatVector.

Lemma round_valid_sign (p : positive) (e : Z) :
  valid_binary (binary_round prec emax true p e)
  = valid_binary (binary_round prec emax false p e).
Proof.
  unfold binary_round, binary_round_aux.
  destruct (shl_align p e _) as [mz ez].
  destruct (shr_fexp prec emax (Zpos mz) ez loc_Exact) as [mrs' e'].
  destruct (shr_fexp prec emax _ e' loc_Exact) as [mrs'' e''].
  destruct (shr_m mrs''); [done| |done].
  by destruct (e'' <=? emax - prec).
Qed.

Lemma normalize_valid (n : Z) :
  in_int64 n = true -> valid_binary (binary_normalize prec emax n 0 false) = true.
Proof.
  unfold in_int64, min_int64, max_int64. intros Hn.
  apply andb_true_iff in Hn as [Hlo Hhi].
  apply Z.leb_le in Hlo, Hhi.
  assert (forall p : positive, Zpos p < 2 ^ 63 ->
            valid_binary (binary_round prec emax false p 0) = true) as Hpos.
  { intros p Hp.
    pose proof (of_uint63_spec (Uint63.of_Z (Zpos p))) as Hs.
    rewrite Uint63.of_Z_spec in Hs. change Uint63.wB with (2 ^ 63) in Hs.
    rewrite Z.mod_small in Hs by lia. simpl in Hs.
    rewrite <- Hs. apply Prim2SF_valid. }
  destruct n as [|p|p]; [done|apply Hpos; lia|].
  simpl. rewrite round_valid_sign.
  destruct (decide (Zpos p < 2 ^ 63)) as [Hp|Hp]; [by apply Hpos|].
  assert (p = 9223372036854775808%positive) as -> by lia.
  by vm_compute.
Qed.

Lemma float_of_int64_spec (n : Z) :
  in_int64 n = true ->
  Prim2SF (float_of_int64 n) = binary_normalize prec emax n 0 false.
Proof. intros Hn. apply Prim2SF_SF2Prim. by apply normalize_valid. Qed.

(** The conversion agrees with the one used for lengths. *)
Lemma float_of_int64_nonneg (n : Z) :
  0 <= n <= max_int64 -> float_of_int64 n = float_of_int n.
Proof.
  unfold max_int64. intros Hn. unfold float_of_int64, float_of_int.
  rewrite <- (SF2Prim_Prim2SF (of_uint63 (Uint63.of_Z n))).
  rewrite of_uint63_spec, Uint63.of_Z_spec. change Uint63.wB with (2 ^ 63).
  by rewrite Z.mod_small by lia.
Qed.

Lemma float_of_int64_rounds (n : Z) :
  in_int64 n = true ->
  rounds (Prim2SF (float_of_int64 n)) (IZR n) 0
  /\ (Z.abs n < 2 ^ 53 -> F2R (float_of_int64 n) = IZR n).
Proof.
  intros Hn. unfold F2R. rewrite float_of_int64_spec by done.
  unfold in_int64, min_int64, max_int64 in Hn.
  apply andb_true_iff in Hn as [Hlo Hhi]. apply Z.leb_le in Hlo, Hhi.
  assert (IZR n * pow2 0 = IZR n)%R as H0 by (rewrite pow2_0; ring).
  assert (Rabs (IZR n * pow2 0) < pow2 1023)%R as HV.
  { rewrite H0. apply Rlt_le_trans with (pow2 64); [|apply pow2_le; lia].
    rewrite pow2_IZR by lia. apply Rabs_def1.
    - apply IZR_lt. lia.
    - rewrite <- opp_IZR. apply IZR_lt. lia. }
  destruct (normalize_rounds n 0 false ltac:(lia) HV) as [Hr Hexact].
  rewrite H0 in Hr, Hexact. done.
Qed.

End IntFloat.

Module ProgressClamp.
Import F64 GoLib Video F64Facts RealFacts FlatBounds FlatVector IntFloat.

Lemma wrap64_in_int64 (z : Z) : in_int64 (wrap64 z) = true.
Proof.
  unfold in_int64, wrap64, min_int64, max_int64.
  pose proof (Z.mod_pos_bound (z + 2 ^ 63) (2 ^ 64) ltac:(done)).
  apply andb_true_iff. split; apply Z.leb_le; lia.
Qed.

Lemma div_between (x y lo hi : R) :
  (0 < y)%R -> (lo * y <= x <= hi * y)%R -> (lo <= x / y <= hi)%R.
Proof.
  intros Hy [Hlo Hhi]. pose proof (Rinv_0_lt_compat y Hy) as Hi.
  assert (y * / y = 1)%R as H1 by (apply Rinv_r; lra).
  unfold Rdiv. split.
  - replace lo with (lo * y * / y)%R by (rewrite Rmult_assoc, H1; ring).
    apply Rmult_le_compat_r; lra.
  - replace hi with (hi * y * / y)%R by (rewrite Rmult_assoc, H1; ring).
    apply Rmult_le_compat_r; lra.
Qed.

Lemma int64_float (n : Z) :
  in_int64 n = true ->
  is_finite (float_of_int64 n) = true
  /\ (Rabs (F2R (float_of_int64 n) - IZR n) <= eta * Rabs (IZR n))%R
  /\ (Rabs (IZR n) <= 9223372036854775808)%R.
Proof.
  intros Hn. destruct (float_of_int64_rounds n Hn) as [(Hf & Herr & _) _].
  split; [by apply finite_is_finite|]. split; [unfold F2R; lra|].
  unfold in_int64, min_int64, max_int64 in Hn.
  apply andb_true_iff in Hn as [Hlo Hhi]. apply Z.leb_le in Hlo, Hhi.
  apply Rabs_le. split.
  - rewrite <- opp_IZR. apply IZR_le. lia.
  - apply IZR_le. lia.
Qed.

(** The quotient [float64(currentTime) / float64(totalDuration)] for a
    positive total: one rounding of a real of magnitude at most [2^65];
    negative, and not close to zero, when the time is negative. *)
Lemma percent_facts (cur total : Z) :
  in_int64 cur = true -> 0 < total <= max_int64 ->
  let x := float_of_int64 cur in
  let y := float_of_int64 total in
  is_finite (x / y) = true
  /\ (cur < 0 -> (F2R (x / y)%float < 0)%R)
  /\ (0 <= cur -> (0 <= F2R (x / y)%float)%R).
Proof.
  intros Hc Ht x y.
  assert (in_int64 total = true) as Hti.
  { unfold in_int64, min_int64, max_int64 in *.
    apply andb_true_iff. split; apply Z.leb_le; lia. }
  destruct (int64_float cur Hc) as (Hfx & Hex & Hbx).
  destruct (int64_float total Hti) as (Hfy & Hey & Hby).
  fold x in Hfx, Hex. fold y in Hfy, Hey.
  pose proof eta_eq as Heta. pose proof tau_le as Htau. pose proof tau_pos as Htau0.
  assert (1 <= IZR total)%R as HT by (apply IZR_le; lia).
  rewrite (Rabs_pos_eq (IZR total)) in Hey, Hby by lra.
  apply Rabs_le_inv in Hex, Hey.
  assert (eta * IZR total <= IZR total / 2)%R as HeT by (rewrite Heta; lra).
  assert (eta * Rabs (IZR cur) <= Rabs (IZR cur) / 2)%R as HeC.
  { pose proof (Rabs_pos (IZR cur)). rewrite Heta. lra. }
  assert (/ 2 <= F2R y <= 18446744073709551616)%R as HY by lra.
  assert (- 18446744073709551616 <= F2R x <= 18446744073709551616)%R as HX.
  { apply Rabs_le_inv in Hbx.
    unfold Rabs in HeC, Hex. destruct (Rcase_abs (IZR cur)); lra. }
  assert (- 36893488147419103232 <= F2R x / F2R y <= 36893488147419103232)%R as HV.
  { apply div_between; lra. }
  assert (Rabs (F2R x / F2R y) < pow2 1023)%R as Hsmall.
  { apply Rlt_le_trans with (pow2 66); [|apply pow2_le; lia].
    rewrite pow2_IZR by lia. change (2 ^ 66) with 73786976294838206464.
    apply Rabs_def1; lra. }
  destruct (div_rounds x y Hfx Hfy ltac:(lra) Hsmall) as (Hfin & Herr & Hpos & _).
  split; [by apply finite_is_finite|].
  split.
  2:{ intros Hnn. apply Hpos.
      assert (0 <= IZR cur)%R as HC by (apply IZR_le; lia).
      rewrite (Rabs_pos_eq (IZR cur)) in Hex, HeC by lra.
      apply (div_between _ _ 0 36893488147419103232); lra. }
  intros Hneg.
  assert (IZR cur <= -1)%R as HC by (apply IZR_le; lia).
  rewrite (Rabs_left (IZR cur)) in Hex, HeC by lra.
  assert (F2R x <= - / 2)%R as HX' by lra.
  assert (F2R x / F2R y <= - / 36893488147419103232)%R as HV'.
  { apply (div_between _ _ (- 36893488147419103232)); lra. }
  fold (F2R (x / y)) in Herr. apply Rabs_le_inv in Herr.
  rewrite (Rabs_left (F2R x / F2R y)) in Herr by lra.
  rewrite Heta in Herr. lra.
Qed.

(** Every value [parseFFmpegProgress] reports for a positive total duration
    is a finite number not above one; there is no bound from below: a
    negative [out_time_us] is reported as a negative progress. *)
Theorem progress_never_above_one (total : Z) :
  0 < total <= max_int64 ->
  (forall stdout : string,
     Forall (fun p => is_finite p = true /\ (p <=? 1)%float = true)
            (parseFFmpegProgress stdout total))
  /\ (forall (usStr : string) (us : Z),
        ParseInt usStr = Some us -> min_int64 <= us * Microsecond < 0 ->
        exists p, progressOfLine total ("out_time_us=" ++ usStr) = Some p
                  /\ (p <? 0)%float = true).
Proof.
  intros Ht. split.
  - intros stdout. apply Forall_forall. intros p Hp.
    unfold parseFFmpegProgress in Hp.
    apply list_elem_of_omap in Hp as (line & _ & Hline).
    unfold progressOfLine in Hline.
    destruct (HasPrefix line _); [|done].
    destruct (ParseInt _) as [us|]; [|done].
    set (cur := wrap64 (us * Microsecond)) in Hline.
    destruct (percent_facts cur total (wrap64_in_int64 _) Ht) as (Hfin & _ & _).
    simpl in Hfin.
    set (percent := (float_of_int64 cur / float_of_int64 total)%float) in *.
    destruct (1 <? percent)%float eqn:Hgt; injection Hline as <-; [done|].
    split; [done|].
    apply leb_F2R; [done..|].
    apply Rnot_lt_le. intros Hlt.
    apply (ltb_F2R 1 percent) in Hlt; [congruence|done..].
  - intros usStr us Hus Hrange.
    unfold progressOfLine.
    change (HasPrefix ("out_time_us=" ++ usStr) "out_time_us=") with true.
    change (TrimPrefix ("out_time_us=" ++ usStr) "out_time_us=") with usStr.
    cbv iota. rewrite Hus. rewrite wrap64_small by (unfold max_int64; lia).
    assert (in_int64 (us * Microsecond) = true) as Hin.
    { unfold in_int64, min_int64, max_int64 in *.
      apply andb_true_iff. split; apply Z.leb_le; lia. }
    destruct (percent_facts (us * Microsecond) total Hin Ht) as (Hfin & Hneg & _).
    simpl in Hfin, Hneg. specialize (Hneg ltac:(lia)).
    set (percent := (float_of_int64 (us * Microsecond) / float_of_int64 total)%float) in *.
    assert ((1 <? percent)%float = false) as ->.
    { apply not_true_is_false. intros Hgt.
      apply ltb_F2R in Hgt; [|done..]. rewrite F2R_one in Hgt. lra. }
    exists percent. split; [done|].
    apply ltb_F2R; [done..|]. rewrite F2R_zero. lra.
Qed.

End ProgressClamp.

Module GrayRange.
Import F64 F64Facts RealFacts FlatBounds FlatVector Video.

Lemma F2R_c299 : F2R 0.299%float = (5386305154335113 / 18014398509481984)%R.
Proof.
  unfold F2R. change (Prim2SF 0.299%float) with (S754_finite false 5386305154335113 (-54)).
  rewrite SF2R_sign. pose proof (pow2_neg 54) as H.
  change (2 ^ 54) with 18014398509481984 in H. lra.
Qed.

Lemma F2R_c587 : F2R 0.587%float = (5287225962532962 / 9007199254740992)%R.
Proof.
  unfold F2R. change (Prim2SF 0.587%float) with (S754_finite false 5287225962532962 (-53)).
  rewrite SF2R_sign. pose proof (pow2_neg 53) as H.
  change (2 ^ 53) with 9007199254740992 in H. lra.
Qed.

Lemma F2R_c114 : F2R 0.114%float = (8214565720323785 / 72057594037927936)%R.
Proof.
  unfold F2R. change (Prim2SF 0.114%float) with (S754_finite false 8214565720323785 (-56)).
  rewrite SF2R_sign. pose proof (pow2_neg 56) as H.
  change (2 ^ 56) with 72057594037927936 in H. lra.
Qed.

Lemma F2R_65535 : F2R 65535%float = 65535%R.
Proof.
  unfold F2R. change (Prim2SF 65535%float) with (S754_finite false 9007061815787520 (-37)).
  rewrite SF2R_sign. pose proof (pow2_neg 37) as H.
  change (2 ^ 37) with 137438953472 in H. lra.
Qed.

Lemma F2R_bound : F2R 1.000000000001%float = (4503599627375000 / 4503599627370496)%R.
Proof.
  unfold F2R.
  change (Prim2SF 1.000000000001%float) with (S754_finite false 4503599627375000 (-52)).
  rewrite SF2R_sign. pose proof (pow2_neg 52) as H.
  change (2 ^ 52) with 4503599627370496 in H. lra.
Qed.

(** A channel times its weight: finite, non-negative, close to the exact
    product. *)
Lemma weighted (c : float) (q : R) (r : Z) :
  is_finite c = true -> F2R c = q -> (0 <= q <= 1)%R -> 0 <= r <= 65535 ->
  is_finite (c * float_of_int r) = true
  /\ (0 <= F2R (c * float_of_int r)%float)%R
  /\ (F2R (c * float_of_int r)%float <= q * IZR r + eta * (q * IZR r) + tau)%R.
Proof.
  intros Hc Hq Hq01 Hr.
  destruct (float_of_int_exact r ltac:(lia)) as [Hfr Hvr].
  assert (0 <= IZR r <= 65535)%R as HR by (split; apply IZR_le; lia).
  assert (0 <= q * IZR r <= 65535)%R as HP by nra.
  pose proof big_enough as Hbig.
  destruct (mul_rounds c (float_of_int r) Hc Hfr) as (Hf & Herr & Hpos & _).
  { rewrite Hq, Hvr, Rabs_pos_eq; lra. }
  rewrite Hq, Hvr in Herr, Hpos. fold (F2R (c * float_of_int r)) in Herr, Hpos.
  split; [by apply finite_is_finite|]. split; [lra|].
  apply Rabs_le_inv in Herr. rewrite Rabs_pos_eq in Herr; lra.
Qed.

(** A sum of two finite, non-negative floats of moderate size. *)
Lemma plus_bound (x y : float) (B : R) :
  is_finite x = true -> is_finite y = true ->
  (0 <= F2R x)%R -> (0 <= F2R y)%R -> (F2R x + F2R y <= B)%R -> (B <= 1000000)%R ->
  is_finite (x + y) = true
  /\ (0 <= F2R (x + y)%float <= B + eta * B)%R.
Proof.
  intros Hx Hy Hx0 Hy0 HB HB'.
  pose proof big_enough as Hbig. pose proof eta_pos as Heta.
  destruct (add_rounds x y Hx Hy) as (Hf & Herr & Hpos & _).
  { rewrite Rabs_pos_eq; lra. }
  fold (F2R (x + y)) in Herr, Hpos.
  split; [by apply finite_is_finite|].
  apply Rabs_le_inv in Herr. rewrite Rabs_pos_eq in Herr by lra.
  split; [lra|]. nra.
Qed.

Lemma div_between_pos (x y hi : R) :
  (0 < y)%R -> (0 <= x <= hi * y)%R -> (0 <= x / y <= hi)%R.
Proof.
  intros Hy [Hlo Hhi]. pose proof (Rinv_0_lt_compat y Hy) as Hi.
  assert (y * / y = 1)%R as H1 by (apply Rinv_r; lra).
  unfold Rdiv. split; [nra|].
  replace hi with (hi * y * / y)%R by (rewrite Rmult_assoc, H1; ring).
  apply Rmult_le_compat_r; lra.
Qed.

Lemma grayValue_bounds (r g b : Z) :
  0 <= r <= 65535 -> 0 <= g <= 65535 -> 0 <= b <= 65535 ->
  is_finite (grayValue r g b) = true
  /\ (0 <= F2R (grayValue r g b) <= 1 + / 1000000000000)%R.
Proof.
  intros Hr Hg Hb. unfold grayValue.
  pose proof eta_eq as Heta. pose proof tau_le as Htau. pose proof tau_pos as Htau0.
  assert (0 <= IZR r <= 65535)%R as HR by (split; apply IZR_le; lia).
  assert (0 <= IZR g <= 65535)%R as HG by (split; apply IZR_le; lia).
  assert (0 <= IZR b <= 65535)%R as HB by (split; apply IZR_le; lia).
  destruct (weighted 0.299 _ r eq_refl F2R_c299) as (Hf1 & H10 & H1); [lra|done|].
  destruct (weighted 0.587 _ g eq_refl F2R_c587) as (Hf2 & H20 & H2); [lra|done|].
  destruct (weighted 0.114 _ b eq_refl F2R_c114) as (Hf3 & H30 & H3); [lra|done|].
  set (t1 := (0.299 * float_of_int r)%float) in *.
  set (t2 := (0.587 * float_of_int g)%float) in *.
  set (t3 := (0.114 * float_of_int b)%float) in *.
  rewrite Heta in H1, H2, H3.
  destruct (plus_bound t1 t2 (F2R t1 + F2R t2) Hf1 Hf2 H10 H20)
    as (Hf12 & H12); [lra..|].
  set (s1 := (t1 + t2)%float) in *.
  rewrite Heta in H12.
  destruct (plus_bound s1 t3 (F2R s1 + F2R t3) Hf12 Hf3 ltac:(lra) H30)
    as (Hfs & Hs); [lra..|].
  set (s2 := (s1 + t3)%float) in *.
  rewrite Heta in Hs.
  assert (F2R s2 <= 65535 + / 10000000000)%R as Hs2 by lra.
  assert (0 <= F2R s2 / 65535 <= 1 + / 100000000000000)%R as HV.
  { apply div_between_pos; lra. }
  destruct (div_rounds s2 65535 Hfs eq_refl) as (Hf & Herr & Hpos & _).
  { rewrite F2R_65535. lra. }
  { rewrite F2R_65535, Rabs_pos_eq by lra. pose proof big_enough. lra. }
  rewrite F2R_65535 in Herr, Hpos. fold (F2R (s2 / 65535)) in Herr, Hpos.
  split; [by apply finite_is_finite|].
  apply Rabs_le_inv in Herr. rewrite Rabs_pos_eq in Herr by lra.
  rewrite Heta in Herr. split; [lra|]. lra.
Qed.

End GrayRange.

Module UniformFrames.
Import F64 F64Facts RealFacts FlatBounds FlatVector Video VideoProofs GrayRange.

Lemma map_const {A B} (c : B) (l : list A) : map (fun _ => c) l = replicate (length l) c.
Proof. induction l as [|a l IH]; [done|]. simpl. by rewrite IH. Qed.

Lemma concat_replicate_replicate {A} (n m : nat) (c : A) :
  concat (replicate n (replicate m c)) = replicate (n * m) c.
Proof.
  induction n as [|n IH]; [done|]. simpl. by rewrite IH, replicate_add.
Qed.

Lemma grayValue_float_bounds (r g b : Z) :
  0 <= r <= 65535 -> 0 <= g <= 65535 -> 0 <= b <= 65535 ->
  is_finite (grayValue r g b) = true
  /\ (0 <=? grayValue r g b)%float = true
  /\ (grayValue r g b <=? 1.000000000001)%float = true.
Proof.
  intros Hr Hg Hb. destruct (grayValue_bounds r g b Hr Hg Hb) as [Hf Hv].
  split; [done|]. split.
  - apply leb_F2R; [done..|]. rewrite F2R_zero. lra.
  - apply leb_F2R; [done..|]. rewrite F2R_bound. lra.
Qed.

Lemma length_rows {A} (f : Z -> list A) (n : nat) (l : list Z) :
  (forall y, length (f y) = n) -> length (concat (map f l)) = (length l * n)%nat.
Proof.
  intros Hf. induction l as [|y l IH]; [done|].
  simpl. by rewrite length_app, Hf, IH.
Qed.

(** Every entry of a frame's vector is a finite number between 0 and
    1.000000000001, and the vector has one entry per pixel; the entry of a
    white pixel is just below 1. *)
Theorem gray_entries_in_range (img : Image) :
  channelsInRange img -> MinX img <= MaxX img -> MinY img <= MaxY img ->
  length (toGray img) = Z.to_nat ((MaxX img - MinX img) * (MaxY img - MinY img))
  /\ Forall (fun v => is_finite v = true
                      /\ (0 <=? v)%float = true
                      /\ (v <=? 1.000000000001)%float = true) (toGray img)
  /\ grayValue 65535 65535 65535 = 0.99999999999999989%float.
Proof.
  intros Hch Hx Hy. split; [|split; [|by vm_compute]].
  - unfold toGray. rewrite (length_rows _ (Z.to_nat (MaxX img - MinX img))).
    + rewrite length_seqZ, Z2Nat.inj_mul by lia. lia.
    + intros y. unfold grayRow. by rewrite length_map, length_seqZ.
  - unfold toGray. apply Forall_concat, Forall_map, Forall_forall.
    intros y _. unfold grayRow. apply Forall_map, Forall_forall.
    intros x _. simpl. specialize (Hch x y).
    destruct (At img x y) as [[r g] b]. destruct Hch as (Hr & Hg & Hb).
    by apply grayValue_float_bounds.
Qed.

(** A frame of one colour scores exactly 1 against every frame of its
    size, on either side of the comparison. *)
Theorem uniform_frame_scores_one (img : Image) (r g b : Z) (other : list float) :
  (forall x y, At img x y = (r, g, b)) ->
  0 <= r <= 65535 -> 0 <= g <= 65535 -> 0 <= b <= 65535 ->
  MinX img < MaxX img -> MinY img < MaxY img ->
  (MaxX img - MinX img) * (MaxY img - MinY img) <= flatLimit ->
  length other = length (toGray img) ->
  toGray img
    = replicate (Z.to_nat ((MaxX img - MinX img) * (MaxY img - MinY img)))
                (grayValue r g b)
  /\ normalizedCrossCorrelation (toGray img) other = 1%float
  /\ normalizedCrossCorrelation other (toGray img) = 1%float.
Proof.
  intros Hat Hr Hg Hb Hx Hy Hsize Hlen.
  set (k := Z.to_nat ((MaxX img - MinX img) * (MaxY img - MinY img))).
  assert (toGray img = replicate k (grayValue r g b)) as Heq.
  { unfold toGray, grayRow.
    rewrite (map_ext _ (fun _ => replicate (Z.to_nat (MaxX img - MinX img)) (grayValue r g b))).
    - rewrite map_const, concat_replicate_replicate, length_seqZ.
      f_equal. unfold k. rewrite Z2Nat.inj_mul by lia. lia.
    - intros y.
      rewrite (map_ext _ (fun _ => grayValue r g b)) by (intros x; by rewrite Hat).
      by rewrite map_const, length_seqZ. }
  split; [done|]. rewrite Heq in Hlen |- *.
  rewrite length_replicate in Hlen.
  destruct (grayValue_float_bounds r g b Hr Hg Hb) as (Hfin & H0 & H1).
  assert ((grayValue r g b <=? 2)%float = true) as H2.
  { destruct (grayValue_bounds r g b Hr Hg Hb) as [_ Hv].
    apply leb_F2R; [done..|]. rewrite F2R_two. lra. }
  assert (0 < k)%nat as Hk0 by (unfold k; nia).
  assert (Z.of_nat k <= flatLimit) as Hk by (unfold k; lia).
  pose proof (std_flat _ k H0 H2 Hk0 Hk) as Hstd.
  split.
  - apply ncc_flat; [by rewrite length_replicate| |by left].
    destruct k; [lia|done].
  - apply ncc_flat; [by rewrite length_replicate| |by right].
    destruct other; [simpl in Hlen; lia|done].
Qed.

End UniformFrames.

Module DurationFormat.
Import F64 GoLib Audio Output F64Facts.

Lemma Round_seconds (d : Z) :
  0 <= d <= max_int64 - Second ->
  Round d Second = (d + 500000000) / Second * Second.
Proof.
  unfold max_int64, Round, Second, Millisecond, lessThanHalf. intros Hd.
  change (1000 * 1000000) with 1000000000 in *.
  change (1000000000 <=? 0) with false. cbv iota.
  rewrite Z.rem_mod_nonneg by lia.
  pose proof (Z.mod_pos_bound d 1000000000 ltac:(lia)) as Hr.
  pose proof (Z.div_mod d 1000000000 ltac:(lia)) as Hd'.
  set (q := d / 1000000000) in *. set (r := d mod 1000000000) in *.
  assert ((d <? 0) = false) as -> by (apply Z.ltb_ge; lia).
  rewrite (Z.mod_small r) by lia.
  rewrite (Z.mod_small (r + r)) by lia.
  change (1000000000 mod 2 ^ 64) with 1000000000.
  destruct (r + r <? 1000000000) eqn:Hhalf.
  - apply Z.ltb_lt in Hhalf.
    rewrite wrap64_small by (unfold min_int64, max_int64; lia).
    replace (d + 500000000) with (q * 1000000000 + (r + 500000000)) by lia.
    rewrite Z.div_add_l by lia. rewrite (Z.div_small (r + 500000000)) by lia. lia.
  - apply Z.ltb_ge in Hhalf.
    rewrite wrap64_small by (unfold min_int64, max_int64; lia).
    assert ((d <? d + 1000000000 - r) = true) as -> by (apply Z.ltb_lt; lia).
    replace (d + 500000000) with ((q + 1) * 1000000000 + (r - 500000000)) by lia.
    rewrite Z.div_add_l by lia. rewrite (Z.div_small (r - 500000000)) by lia. lia.
Qed.

Lemma two_digits (n : Z) : 0 <= n < 60 -> String.length (formatInt02 n) = 2%nat.
Proof.
  intros Hn.
  assert (Forall (fun k => String.length (formatInt02 k) = 2%nat) (seqZ 0 60)) as H
    by (by vm_compute; repeat constructor).
  rewrite Forall_forall in H. apply H, elem_of_seqZ. lia.
Qed.

(** [formatDuration] shows the duration rounded to the nearest second,
    halves up: hours (only from one hour on), then minutes and seconds
    below sixty on two digits each. *)
Theorem formatDuration_fields (d : Z) :
  0 <= d <= max_int64 - Second ->
  let total := (d + 500000000) / Second in
  formatDuration d
  = (if 3600 <=? total
     then (formatInt (total / 3600) ++ ":" ++ formatInt02 (total / 60 mod 60)
             ++ ":" ++ formatInt02 (total mod 60))%string
     else (formatInt (total / 60) ++ ":" ++ formatInt02 (total mod 60))%string)
  /\ String.length (formatInt02 (total / 60 mod 60)) = 2%nat
  /\ String.length (formatInt02 (total mod 60)) = 2%nat.
Proof.
  intros Hd total. split.
  - unfold formatDuration. rewrite Round_seconds by done. fold total.
    unfold max_int64, Hour, Minute, Second, Millisecond in *.
    change (60 * (60 * (1000 * 1000000))) with 3600000000000.
    change (60 * (1000 * 1000000)) with 60000000000.
    change (1000 * 1000000) with 1000000000 in *.
    assert (0 <= total <= 9223372036) as Ht.
    { unfold total, Second, Millisecond. change (1000 * 1000000) with 1000000000.
      split; [apply Z.div_pos; lia|].
      apply Z.lt_succ_r, Z.div_lt_upper_bound; lia. }
    clearbody total.
    assert (Z.quot (total * 1000000000) 3600000000000 = total / 3600) as ->.
    { rewrite Z.quot_div_nonneg by lia.
      replace 3600000000000 with (3600 * 1000000000) by done.
      rewrite Z.div_mul_cancel_r by lia. done. }
    pose proof (Z.div_mod total 3600 ltac:(lia)) as H1.
    pose proof (Z.mod_pos_bound total 3600 ltac:(lia)) as H2.
    assert (0 <= total / 3600) as H3 by (apply Z.div_pos; lia).
    rewrite (wrap64_small (total / 3600 * _)) by (unfold min_int64, max_int64; lia).
    rewrite wrap64_small by (unfold min_int64, max_int64; lia).
    replace (total * 1000000000 - total / 3600 * 3600000000000)
      with (total mod 3600 * 1000000000) by lia.
    assert (Z.quot (total mod 3600 * 1000000000) 60000000000 = total mod 3600 / 60) as ->.
    { rewrite Z.quot_div_nonneg by lia.
      replace 60000000000 with (60 * 1000000000) by done.
      rewrite Z.div_mul_cancel_r by lia. done. }
    pose proof (Z.mod_pos_bound (total / 60) 60 ltac:(lia)) as H4.
    pose proof (Z.mod_pos_bound total 60 ltac:(lia)) as H5.
    pose proof (Z.div_mod total 60 ltac:(lia)) as H6.
    pose proof (Z.div_mod (total / 60) 60 ltac:(lia)) as H7.
    assert (total mod 3600 = 60 * (total / 60 mod 60) + total mod 60) as Hr.
    { symmetry. apply Z.mod_unique_pos with (q := total / 60 / 60); lia. }
    assert (total mod 3600 / 60 = total / 60 mod 60) as Hm.
    { symmetry. apply Z.div_unique_pos with (r := total mod 60); lia. }
    assert (total mod 3600 - total mod 3600 / 60 * 60 = total mod 60) as Hs by lia.
    rewrite (wrap64_small (total mod 3600 / 60 * _)) by (unfold min_int64, max_int64; lia).
    rewrite wrap64_small by (unfold min_int64, max_int64; lia).
    replace (total mod 3600 * 1000000000 - total mod 3600 / 60 * 60000000000)
      with (total mod 60 * 1000000000) by lia.
    rewrite Z.quot_div_nonneg, Z.div_mul by lia.
    rewrite Hm.
    destruct (3600 <=? total) eqn:Hh.
    + apply Z.leb_le in Hh.
      assert ((0 <? total / 3600) = true) as ->; [|done].
      apply Z.ltb_lt. apply Z.div_str_pos. lia.
    + apply Z.leb_gt in Hh.
      assert ((0 <? total / 3600) = false) as ->.
      { apply Z.ltb_ge. rewrite Z.div_small; lia. }
      rewrite Z.mod_small; [done|].
      split; [apply Z.div_pos; lia|]. apply Z.div_lt_upper_bound; lia.
  - split; apply two_digits; apply Z.mod_pos_bound; lia.
Qed.

End DurationFormat.

Module DecimalFacts.
Import F64 GoLib F64Facts.

Definition allDigits (s : string) : Prop :=
  Forall (fun c => isDigit c = true) (list_ascii_of_string s).

Lemma uint_digits (u : Decimal.uint) : allDigits (NilEmpty.string_of_uint u).
Proof. induction u; simpl; constructor; done. Qed.

Lemma digits_acc (u : Decimal.uint) (acc : positive) :
  digitsValue (NilEmpty.string_of_uint u) (Zpos acc) = Some (Zpos (Pos.of_uint_acc u acc)).
Proof.
  revert acc. induction u; intros acc; simpl; [done|..];
    (etrans; [|apply IHu]); f_equal; unfold digitValue; simpl; lia.
Qed.

Lemma digits_zero (u : Decimal.uint) :
  digitsValue (NilEmpty.string_of_uint u) 0 = Some (Z.of_N (Pos.of_uint u)).
Proof.
  induction u; simpl; [done|by apply IHu|..];
    (etrans; [|apply digits_acc]); done.
Qed.

Lemma formatInt_pos (p : positive) :
  formatInt (Zpos p) = NilEmpty.string_of_uint (Pos.to_uint p).
Proof.
  unfold formatInt. simpl. unfold NilZero.string_of_uint.
  pose proof (DecimalPos.Unsigned.to_uint_nonnil p). by destruct (Pos.to_uint p).
Qed.

Lemma formatInt_digits (n : Z) :
  0 <= n -> allDigits (formatInt n) /\ digitsValue (formatInt n) 0 = Some n
            /\ formatInt n <> EmptyString.
Proof.
  intros Hn. destruct n as [|p|p]; [|clear Hn|lia].
  - split; [by repeat constructor|done].
  - rewrite formatInt_pos. split; [apply uint_digits|]. split.
    + by rewrite digits_zero, DecimalPos.Unsigned.of_to.
    + pose proof (DecimalPos.Unsigned.to_uint_nonnil p). by destruct (Pos.to_uint p).
Qed.

Lemma allDigits_app (a b : string) : allDigits a -> allDigits b -> allDigits (a ++ b).
Proof.
  unfold allDigits. induction a as [|c a IH]; [done|].
  simpl. intros Ha Hb. inv Ha. constructor; [done|]. by apply IH.
Qed.

Lemma zeros_digits (k : nat) : allDigits (repeatByte "0" k).
Proof. induction k; [constructor|]. by constructor. Qed.

Lemma zeros_value (k : nat) (s : string) :
  digitsValue (repeatByte "0" k ++ s) 0 = digitsValue s 0.
Proof. induction k; [done|]. simpl. done. Qed.

(** A padded non-negative number is read back by [Atoi]. *)
Lemma formatInt04_digits (n : Z) :
  0 <= n -> allDigits (formatInt04 n) /\ digitsValue (formatInt04 n) 0 = Some n
            /\ formatInt04 n <> EmptyString.
Proof.
  intros Hn. destruct (formatInt_digits n Hn) as (Hd & Hv & Hne).
  unfold formatInt04. assert ((n <? 0) = false) as -> by (apply Z.ltb_ge; lia).
  unfold padZeros. split; [|split].
  - apply allDigits_app; [apply zeros_digits|done].
  - by rewrite zeros_value.
  - destruct (repeatByte "0" _); [done|]. done.
Qed.

Lemma AtoiValue_digits (s : string) (n : Z) :
  allDigits s -> s <> EmptyString -> digitsValue s 0 = Some n -> 0 <= n <= max_int64 ->
  AtoiValue s = n.
Proof.
  intros Hd Hne Hv Hn. unfold AtoiValue.
  destruct s as [|c r]; [done|].
  inv Hd. rename H1 into Hc.
  assert (Ascii.eqb c "+" = false) as ->.
  { destruct (Ascii.eqb_spec c "+") as [->|]; done. }
  assert (Ascii.eqb c "-" = false) as ->.
  { destruct (Ascii.eqb_spec c "-") as [->|]; done. }
  cbn [isEmpty]. rewrite Hv.
  unfold in_int64, min_int64, max_int64 in *.
  assert ((- 2 ^ 63 <=? n) && (n <=? 2 ^ 63 - 1) = true) as ->; [|done].
  apply andb_true_iff. split; apply Z.leb_le; lia.
Qed.

End DecimalFacts.

Module FrameListing.
Import F64 GoLib Video F64Facts DecimalFacts.

Lemma digitPrefix_app (ds rest : string) :
  allDigits ds ->
  match rest with String c _ => isDigit c = false | EmptyString => True end ->
  digitPrefix (ds ++ rest) = (ds, rest).
Proof.
  intros Hd Hrest. induction ds as [|c ds IH].
  - simpl. destruct rest as [|c r]; [done|]. simpl. by rewrite Hrest.
  - inv Hd. simpl. rewrite H1, IH by done. done.
Qed.

Lemma matchFrameName_numbered (ds : string) :
  allDigits ds -> ds <> EmptyString -> matchFrameName (ds ++ ".png") = Some ds.
Proof.
  intros Hd Hne. unfold matchFrameName. rewrite digitPrefix_app by done.
  destruct ds; [done|]. done.
Qed.

Lemma frameOfEntry_numbered (dir : string) (i : Z) :
  0 <= i <= max_int64 -> frameOfEntry dir (frameFile i) = Some (numberedFrame dir i).
Proof.
  intros Hi. destruct (formatInt04_digits i ltac:(lia)) as (Hd & Hv & Hne).
  unfold frameOfEntry, frameFile. cbn [IsDir Name].
  rewrite matchFrameName_numbered by done. cbv zeta.
  rewrite (AtoiValue_digits _ i) by done.
  unfold numberedFrame. do 2 f_equal.
  rewrite (wrap64_small (i - 1)); [done|].
  unfold min_int64, max_int64 in *. lia.
Qed.

Lemma omap_numbered (dir : string) (l : list Z) :
  Forall (fun i => 0 <= i <= max_int64) l ->
  omap (frameOfEntry dir) (map frameFile l) = map (numberedFrame dir) l.
Proof.
  induction 1 as [|i l Hi _ IH]; [done|].
  simpl. rewrite frameOfEntry_numbered by done. f_equal. exact IH.
Qed.

Lemma seqZ_sorted (len : nat) (m : Z) : StronglySorted Z.le (seqZ m (Z.of_nat len)).
Proof.
  revert m. induction len as [|len IH]; intros m; [constructor|].
  rewrite seqZ_cons by lia.
  replace (Z.pred (Z.of_nat (S len))) with (Z.of_nat len) by lia.
  constructor; [apply IH|].
  apply Forall_forall. intros x Hx. apply elem_of_seqZ in Hx. lia.
Qed.

Lemma numbered_sorted (dir : string) (l : list Z) :
  StronglySorted Z.le l -> StronglySorted indexLe (map (numberedFrame dir) l).
Proof.
  induction 1 as [|i l _ IH Hi]; [constructor|].
  simpl. constructor; [done|].
  apply Forall_map. by eapply Forall_impl; [exact Hi|].
Qed.

(** When the directory holds the files ffmpeg writes for frames [1] to
    [n], in any order, [ExtractFrames] returns exactly those frames in the
    order of their numbers, frame [i] at [i - 1] seconds. *)
Theorem extract_frames_numbered (run : ExtractRun) (dir : string)
    (listing : list DirEntry) (n : Z) (res : ExtractError + list Frame) :
  tempDir run = Some dir -> pipeOk run = true -> startOk run = true ->
  waitOk run = true -> entries run = Some listing ->
  1 <= n <= max_int64 ->
  listing ≡ₚ map frameFile (seqZ 1 n) ->
  ExtractFrames run res <-> res = inr (map (numberedFrame dir) (seqZ 1 n)).
Proof.
  intros Hdir Hpipe Hstart Hwait Hent Hn Hperm.
  unfold ExtractFrames. rewrite Hdir, Hpipe, Hstart, Hwait, Hent. cbn [negb].
  assert (omap (frameOfEntry dir) listing ≡ₚ map (numberedFrame dir) (seqZ 1 n)) as Hfr.
  { rewrite Hperm, omap_numbered; [done|].
    apply Forall_forall. intros i Hi. apply elem_of_seqZ in Hi. lia. }
  assert (StronglySorted indexLe (map (numberedFrame dir) (seqZ 1 n))) as Hsorted.
  { apply numbered_sorted. rewrite <- (Z2Nat.id n) by lia. apply seqZ_sorted. }
  assert (map (numberedFrame dir) (seqZ 1 n) <> []) as Hne.
  { rewrite seqZ_cons by lia. done. }
  split.
  - intros (sorted & [Hp Hs] & ->).
    assert (sorted = map (numberedFrame dir) (seqZ 1 n)) as ->.
    { apply (StronglySorted_unique_strong indexLe).
      - intros x1 x2 Hx1 Hx2 H12 H21.
        rewrite <- Hp, Hfr in Hx1.
        apply list_elem_of_fmap in Hx1 as (i1 & -> & _).
        apply list_elem_of_fmap in Hx2 as (i2 & -> & _).
        unfold indexLe in *. simpl in *. f_equal. lia.
      - apply Sorted.Sorted_StronglySorted; [|done].
        intros a b c. unfold indexLe. lia.
      - done.
      - by rewrite <- Hp. }
    by destruct (map (numberedFrame dir) (seqZ 1 n)).
  - intros ->. exists (map (numberedFrame dir) (seqZ 1 n)). split.
    + split; [done|]. by apply StronglySorted_Sorted.
    + by destruct (map (numberedFrame dir) (seqZ 1 n)).
Qed.

Lemma digitsValue_nonneg (s : string) (acc v : Z) :
  0 <= acc -> digitsValue s acc = Some v -> 0 <= v.
Proof.
  revert acc. induction s as [|c s IH]; intros acc Hacc; simpl.
  - intros [= <-]. done.
  - destruct (isDigit c); [|done]. apply IH. unfold digitValue. lia.
Qed.

Lemma digitPrefix_digits (s : string) :
  allDigits (fst (digitPrefix s)).
Proof.
  induction s as [|c s IH]; simpl; [constructor|].
  destruct (isDigit c) eqn:Hc; [|constructor].
  destruct (digitPrefix s) as [ds rest]. by constructor.
Qed.

Lemma AtoiValue_nonneg (s : string) : allDigits s -> 0 <= AtoiValue s <= max_int64.
Proof.
  intros Hd. unfold AtoiValue, max_int64.
  destruct s as [|c r]; [done|].
  inversion Hd as [|? ? Hc _]; subst.
  assert (Ascii.eqb c "+" = false) as ->.
  { destruct (Ascii.eqb_spec c "+") as [->|]; done. }
  assert (Ascii.eqb c "-" = false) as ->.
  { destruct (Ascii.eqb_spec c "-") as [->|]; done. }
  cbn [isEmpty].
  destruct (digitsValue (String c r) 0) as [v|] eqn:Hv; [|done].
  apply digitsValue_nonneg in Hv; [|done].
  unfold in_int64, min_int64, max_int64.
  destruct ((- 2 ^ 63 <=? v) && (v <=? 2 ^ 63 - 1)) eqn:Hin; [|lia].
  apply andb_true_iff in Hin as [_ Hhi]. apply Z.leb_le in Hhi. lia.
Qed.

Lemma frameOfEntry_frame (dir : string) (entry : DirEntry) (f : Frame) :
  frameOfEntry dir entry = Some f ->
  IsDir entry = false
  /\ 0 <= FrameIndex f <= max_int64
  /\ FrameTimestamp f = wrap64 ((FrameIndex f - 1) * Second)
  /\ FramePath f = (dir ++ "/" ++ Name entry)%string.
Proof.
  unfold frameOfEntry. destruct (IsDir entry); [done|].
  unfold matchFrameName. pose proof (digitPrefix_digits (Name entry)) as Hd.
  destruct (digitPrefix (Name entry)) as [ds rest]. simpl in Hd.
  destruct (isEmpty ds); [done|]. destruct (rest =? ".png")%string; [|done].
  intros [= <-]. simpl. pose proof (AtoiValue_nonneg ds Hd) as Hi.
  split; [done|]. split; [done|]. split; [|done].
  rewrite (wrap64_small (AtoiValue ds - 1)); [done|].
  unfold min_int64, max_int64 in *. lia.
Qed.

#[local] Instance indexLe_dec (a b : Frame) : Decision (indexLe a b).
Proof. unfold indexLe. apply _. Defined.

#[local] Instance indexLe_total : Total indexLe.
Proof. intros a b. unfold indexLe. lia. Qed.

(** [ExtractFrames] always has an outcome.  The frames of a successful one
    are at least one, in the order of their indices; every index is between
    0 and the largest [int], and the timestamp is the index less one, in
    seconds (wrapped to 64 bits). *)
Theorem extract_frames_invariants (run : ExtractRun) :
  (exists res, ExtractFrames run res)
  /\ (forall frames, ExtractFrames run (inr frames) ->
        frames <> []
        /\ Sorted indexLe frames
        /\ Forall (fun f => 0 <= FrameIndex f <= max_int64
                            /\ FrameTimestamp f = wrap64 ((FrameIndex f - 1) * Second))
                  frames)
  /\ (forall listing, tempDir run <> None -> pipeOk run = true -> startOk run = true ->
        waitOk run = true -> entries run = Some listing ->
        ExtractFrames run (inl NoFrames)
        <-> Forall (fun entry => IsDir entry = true
                                 \/ matchFrameName (Name entry) = None) listing).
Proof.
  unfold ExtractFrames. split; [|split].
  - destruct (tempDir run) as [dir|]; [|by eexists].
    destruct (pipeOk run); [|by eexists].
    destruct (startOk run); [|by eexists].
    destruct (waitOk run); [|by eexists].
    destruct (entries run) as [listing|]; [|by eexists]. cbn [negb].
    eexists. exists (merge_sort indexLe (omap (frameOfEntry dir) listing)).
    split; [|done]. split.
    + by rewrite merge_sort_Permutation.
    + apply Sorted_merge_sort. apply _.
  - intros frames.
    destruct (tempDir run) as [dir|]; [|done].
    destruct (pipeOk run); [|done].
    destruct (startOk run); [|done].
    destruct (waitOk run); [|done].
    destruct (entries run) as [listing|]; [|done]. cbn [negb].
    intros (sorted & [Hp Hs] & Hres).
    destruct sorted as [|f sorted]; [done|]. injection Hres as ->.
    split; [done|]. split; [done|].
    rewrite <- Hp. apply Forall_forall. intros g Hg.
    apply list_elem_of_omap in Hg as (entry & _ & Hg).
    apply frameOfEntry_frame in Hg as (_ & Hi & Ht & _). done.
  - intros listing Hdir -> -> -> ->.
    destruct (tempDir run) as [dir|]; [|done]. cbn [negb].
    split.
    + intros (sorted & [Hp _] & Hres).
      destruct sorted as [|f sorted]; [|done].
      apply Permutation_nil_r in Hp.
      apply Forall_forall. intros entry Hentry.
      destruct (frameOfEntry dir entry) as [f|] eqn:Hf.
      * assert (f ∈ omap (frameOfEntry dir) listing) as Hin
          by (apply list_elem_of_omap; eauto).
        rewrite Hp in Hin. by apply not_elem_of_nil in Hin.
      * unfold frameOfEntry in Hf. destruct (IsDir entry); [by left|right].
        by destruct (matchFrameName (Name entry)).
    + intros Hall. exists []. split; [|done]. split; [|constructor].
      assert (omap (frameOfEntry dir) listing = []) as ->; [|done].
      induction Hall as [|entry listing Hentry _ IH]; [done|].
      simpl. unfold frameOfEntry at 1.
      destruct Hentry as [->| ->]; [done|]. by destruct (IsDir entry).
Qed.

End FrameListing.

Module IntegerSums.
Import F64 F64Facts RealFacts FlatBounds FlatVector IntFloat.

(** Rounding a positive scaled integer below [2^53] does not go below an
    integer that the value is not below. *)
Lemma round_ge_int (p : positive) (e k : Z) :
  -1074 <= e <= 0 ->
  (IZR (Zpos p) * pow2 e < pow2 53)%R ->
  (IZR k <= IZR (Zpos p) * pow2 e)%R ->
  (IZR k <= SF2R (binary_round prec emax false p e))%R.
Proof.
  intros He Hp Hk. unfold binary_round.
  pose proof (shl_align_value p e (fexp prec emax (Zpos (digits2_pos p) + e))) as [Hval Hexp].
  pose proof (shl_align_spec p e (fexp prec emax (Zpos (digits2_pos p) + e))) as [Hdig Hle].
  destruct (shl_align p e _) as [mz ez]. simpl in Hval, Hexp, Hdig, Hle.
  pose proof (pow2_pos e) as Hpe.
  assert (0 < IZR (Zpos p))%R as Hpp by (apply IZR_lt; lia).
  assert (0 < IZR (Zpos p) * pow2 e)%R as HW by nra.
  destruct (round_signed false (Zpos mz) ez loc_Exact (IZR (Zpos p) * pow2 e))
    as (_ & _ & _ & Hint).
  - lia.
  - lia.
  - split; [done|]. apply Rlt_le_trans with (pow2 53); [done|]. apply pow2_le. lia.
  - rewrite Hval, plus_IZR. pose proof (pow2_pos ez). rewrite <- Hval. nra.
  - intros _. split; [by rewrite Hval|lia].
  - done.
  - apply Hint; try done; [|lia].
    simpl Zdigits2. rewrite Hdig.
    change (Zpos (digits2_pos p)) with (Zdigits2 (Zpos p)).
    apply digits_of_bound; [lia|lia|done].
Qed.

(** The rounded sum of two non-negative floats is not below an integer
    that the exact sum is not below. *)
Lemma add_ge_int (x y : float) (k : Z) :
  is_finite x = true -> is_finite y = true ->
  (0 <= F2R x)%R -> (0 <= F2R y)%R ->
  (F2R x + F2R y < pow2 53)%R ->
  (IZR k <= F2R x + F2R y)%R -> (IZR k <= F2R (x + y))%R.
Proof.
  intros Hx Hy Hx0 Hy0 HV Hk. unfold F2R in *. rewrite add_spec. unfold SF64add, SFadd.
  unfold is_finite in Hx, Hy.
  destruct (Prim2SF x) as [sx|sx| |sx mx ex] eqn:Ex; try discriminate;
    destruct (Prim2SF y) as [sy|sy| |sy my ey] eqn:Ey; try discriminate.
  - simpl in Hk |- *. destruct sx, sy; simpl; lra.
  - simpl in Hk |- *. lra.
  - simpl in Hk |- *. lra.
  - destruct (valid_finite x sx mx ex Ex) as (Hex & Hdx & Hnx).
    destruct (valid_finite y sy my ey Ey) as (Hey & Hdy & Hny).
    pose proof (aligned_value x sx mx ex (Z.min ex ey) Ex ltac:(lia)) as Hvx.
    pose proof (aligned_value y sy my ey (Z.min ex ey) Ey ltac:(lia)) as Hvy.
    unfold F2R in Hvx, Hvy. rewrite Ex in Hvx. rewrite Ey in Hvy.
    rewrite !SF2R_sign in Hx0, Hy0.
    pose proof (mantissa_pos mx). pose proof (mantissa_pos my).
    pose proof (pow2_pos ex). pose proof (pow2_pos ey).
    assert (0 < IZR (Zpos mx) * pow2 ex)%R as HA by nra.
    assert (0 < IZR (Zpos my) * pow2 ey)%R as HB by nra.
    destruct sx; [lra|]. destruct sy; [lra|].
    simpl cond_Zopp in *.
    rewrite <- Hvx, <- Hvy in HV, Hk.
    rewrite <- Rmult_plus_distr_r, <- plus_IZR in HV, Hk.
    rewrite !SF2R_sign, !Rmult_1_l in Hvx, Hvy.
    set (mx' := fst (shl_align mx ex (Z.min ex ey))) in *.
    set (my' := fst (shl_align my ey (Z.min ex ey))) in *.
    change (Zpos mx' + Zpos my') with (Zpos (mx' + my')) in *.
    simpl binary_normalize.
    apply round_ge_int; [|done..].
    split; [lia|].
    destruct (Z.le_gt_cases (Z.min ex ey) 0) as [|Hgt]; [done|exfalso].
    pose proof (digits_lower (Zpos mx) ltac:(lia)) as Hlx.
    simpl Zdigits2 in Hlx. rewrite Hnx in Hlx by lia.
    change (53 - 1) with 52 in Hlx.
    pose proof (pow2_le 1 ex ltac:(lia)) as Hle.
    assert (pow2 1 = 2)%R as Htwo by (unfold pow2; simpl; lra).
    pose proof (pow2_add 52 1) as H53. change (52 + 1) with 53 in H53.
    pose proof (pow2_pos 52).
    rewrite Pos2Z.inj_add, plus_IZR, Rmult_plus_distr_r, Hvx, Hvy in HV.
    assert (pow2 52 * pow2 1 <= IZR (Zpos mx) * pow2 ex)%R.
    { apply Rmult_le_compat; lra. }
    lra.
Qed.

End IntegerSums.

Module TerminalDuration.
Import F64 F64Facts RealFacts FlatBounds FlatVector IntFloat IntegerSums.
Import GoLib Audio Main.

Lemma small_int_float (n : Z) :
  0 <= n < 2 ^ 53 ->
  is_finite (float_of_int64 n) = true /\ F2R (float_of_int64 n) = IZR n.
Proof.
  intros Hn.
  assert (in_int64 n = true) as Hin.
  { unfold in_int64, min_int64, max_int64. apply andb_true_iff.
    split; apply Z.leb_le; lia. }
  destruct (float_of_int64_rounds n Hin) as [(Hf & _) Hex].
  split; [by apply finite_is_finite|]. apply Hex. lia.
Qed.

(** The whole units [int(d.Hours())] and the like compute: the quotient,
    for a duration of at most [2^51] nanoseconds less two units. *)
Lemma whole_units (d c : Z) (cf : float) :
  0 < c -> 0 <= d -> d + 2 * c <= 2 ^ 51 ->
  is_finite cf = true -> F2R cf = IZR c ->
  int_of_float (float_of_int64 (Z.quot d c) + float_of_int64 (Z.rem d c) / cf) = d / c.
Proof.
  intros Hc Hd Hsmall Hfc Hvc.
  rewrite Z.quot_div_nonneg, Z.rem_mod_nonneg by lia.
  pose proof (Z.div_mod d c ltac:(lia)) as Hdm.
  pose proof (Z.mod_pos_bound d c ltac:(lia)) as Hr.
  assert (0 <= d / c) as Hq by (apply Z.div_pos; lia).
  set (q := d / c) in *. set (r := d mod c) in *.
  assert (c * (q + 2) <= 2 ^ 51) as Hcq by lia.
  assert (q < 2 ^ 51 /\ c < 2 ^ 51) as [Hq51 Hc51] by nia.
  destruct (small_int_float q ltac:(lia)) as [HfA HvA].
  destruct (small_int_float r ltac:(lia)) as [HfR HvR].
  set (A := float_of_int64 q) in *. set (Rf := float_of_int64 r) in *.
  pose proof eta_eq as Heta. pose proof tau_le as Htau. pose proof tau_pos as Htau0.
  assert (1 <= IZR c)%R as HC by (apply IZR_le; lia).
  set (u := (/ IZR c)%R).
  assert (0 < u)%R as Hu by (apply Rinv_0_lt_compat; lra).
  assert (IZR c * u = 1)%R as Hcu by (apply Rinv_r; lra).
  assert (0 <= IZR q)%R as HQ by (apply IZR_le; lia).
  assert (0 <= IZR r <= IZR c - 1)%R as HR.
  { split; [apply IZR_le; lia|]. rewrite <- minus_IZR. apply IZR_le. lia. }
  assert (IZR q + 2 <= 2251799813685248 * u)%R as H1.
  { assert (IZR c * (IZR q + 2) <= 2251799813685248)%R as Hm.
    { rewrite <- plus_IZR, <- mult_IZR. apply IZR_le.
      change (2 ^ 51) with 2251799813685248 in Hcq. lia. }
    apply (Rmult_le_compat_r u) in Hm; [|lra].
    replace (IZR c * (IZR q + 2) * u)%R with (IZR c * u * (IZR q + 2))%R in Hm by ring.
    rewrite Hcu in Hm. lra. }
  set (V := (IZR r / IZR c)%R).
  assert (0 <= V <= 1 - u)%R as HV.
  { unfold V, Rdiv. fold u. split; [nra|].
    replace (1 - u)%R with ((IZR c - 1) * u)%R by (rewrite Rmult_minus_distr_r, Hcu; ring).
    apply Rmult_le_compat_r; lra. }
  pose proof big_enough as Hbig.
  destruct (div_rounds Rf cf HfR Hfc) as (HfB & HeB & HB0 & _).
  { rewrite Hvc. lra. }
  { rewrite HvR, Hvc. fold V. rewrite Rabs_pos_eq; lra. }
  rewrite HvR, Hvc in HeB, HB0. fold V in HeB, HB0.
  fold (F2R (Rf / cf)) in HeB, HB0. apply finite_is_finite in HfB.
  set (B := (Rf / cf)%float) in *.
  apply Rabs_le_inv in HeB. rewrite (Rabs_pos_eq V) in HeB by lra.
  rewrite Heta in HeB.
  assert (0 <= F2R B <= 1)%R as HB by lra.
  assert (pow2 53 = 9007199254740992)%R as H53.
  { rewrite pow2_IZR by lia. done. }
  assert (IZR q < 2251799813685248)%R as HQ51.
  { apply IZR_lt. change (2 ^ 51) with 2251799813685248 in Hq51. lia. }
  destruct (add_rounds A B HfA HfB) as (HfS & HeS & _).
  { rewrite HvA, Rabs_pos_eq by lra.
    apply Rlt_le_trans with (pow2 53); [lra|]. apply pow2_le. lia. }
  pose proof (add_ge_int A B q HfA HfB ltac:(lra) ltac:(lra)) as Hlow.
  rewrite HvA in Hlow, HeS. specialize (Hlow ltac:(lra) ltac:(lra)).
  fold (F2R (A + B)) in HeS. apply finite_is_finite in HfS.
  apply Rabs_le_inv in HeS. rewrite Rabs_pos_eq in HeS by lra.
  rewrite Heta in HeS.
  apply int_of_float_floor; [done| |].
  - unfold max_int64. lia.
  - split; [done|]. lra.
Qed.

Lemma F2R_hour : F2R 3600000000000%float = IZR Hour.
Proof.
  unfold F2R.
  change (Prim2SF 3600000000000%float) with (S754_finite false 7372800000000000 (-11)).
  rewrite SF2R_sign. pose proof (pow2_neg 11) as H.
  change (2 ^ 11) with 2048 in H.
  change (IZR Hour) with 3600000000000%R. lra.
Qed.

Lemma F2R_minute : F2R 60000000000%float = IZR Minute.
Proof.
  unfold F2R.
  change (Prim2SF 60000000000%float) with (S754_finite false 7864320000000000 (-17)).
  rewrite SF2R_sign. pose proof (pow2_neg 17) as H.
  change (2 ^ 17) with 131072 in H.
  change (IZR Minute) with 60000000000%R. lra.
Qed.

Lemma F2R_second : F2R 1000000000%float = IZR Second.
Proof.
  unfold F2R.
  change (Prim2SF 1000000000%float) with (S754_finite false 8388608000000000 (-23)).
  rewrite SF2R_sign. pose proof (pow2_neg 23) as H.
  change (2 ^ 23) with 8388608 in H.
  change (IZR Second) with 1000000000%R. lra.
Qed.

(** For a duration of up to [2 * 10^15] nanoseconds (23 days), the floating
    point computation of [formatDuration] in package main is exact: whole
    hours, minutes below sixty and seconds below sixty, cut, not rounded;
    hours and minutes appear only when not zero. *)
Theorem terminal_duration_exact (d : Z) :
  0 <= d <= 2000000000000000 ->
  int_of_float (Hours d) = d / Hour
  /\ int_of_float (Minutes d) = d / Minute
  /\ int_of_float (Seconds d) = d / Second
  /\ Main.formatDuration d
     = (if 0 <? d / Hour
        then (formatInt (d / Hour) ++ "h " ++ formatInt (d / Minute mod 60) ++ "m "
                ++ formatInt (d / Second mod 60) ++ "s")%string
        else if 0 <? d / Minute mod 60
        then (formatInt (d / Minute mod 60) ++ "m "
                ++ formatInt (d / Second mod 60) ++ "s")%string
        else (formatInt (d / Second mod 60) ++ "s")%string).
Proof.
  intros Hd.
  assert (int_of_float (Hours d) = d / Hour) as Hh.
  { apply whole_units; [done|lia| |done|apply F2R_hour].
    change Hour with 3600000000000. change (2 ^ 51) with 2251799813685248. lia. }
  assert (int_of_float (Minutes d) = d / Minute) as Hm.
  { apply whole_units; [done|lia| |done|apply F2R_minute].
    change Minute with 60000000000. change (2 ^ 51) with 2251799813685248. lia. }
  assert (int_of_float (Seconds d) = d / Second) as Hs.
  { apply whole_units; [done|lia| |done|apply F2R_second].
    change Second with 1000000000. change (2 ^ 51) with 2251799813685248. lia. }
  split; [done|]. split; [done|]. split; [done|].
  unfold Main.formatDuration. rewrite Hh, Hm, Hs.
  assert (0 <= d / Minute) by (apply Z.div_pos; [lia|done]).
  assert (0 <= d / Second) by (apply Z.div_pos; [lia|done]).
  by rewrite !Z.rem_mod_nonneg by lia.
Qed.

End TerminalDuration.

Module OutputPaths.
Import F64 GoLib Main StringFacts.

Lemma extLoop_spec (reversed acc : string) :
  extLoop reversed acc = EmptyString
  \/ exists r1 r2, reversed = String.append r1 (String "." r2)
                   /\ extLoop reversed acc = String "." (String.append (rev r1) acc).
Proof.
  revert acc. induction reversed as [|c r IH]; intros acc; simpl; [by left|].
  destruct (Ascii.eqb_spec c "/") as [->|Hslash]; [by left|].
  destruct (Ascii.eqb_spec c ".") as [->|Hdot].
  - right. by exists EmptyString, r.
  - destruct (IH (String c acc)) as [H|(r1 & r2 & -> & H)]; [by left|right].
    exists (String c r1), r2. split; [done|].
    rewrite H, rev_cons, append_assoc. done.
Qed.

(** The extension is a suffix of the path, empty or starting with a dot. *)
Lemma Ext_suffix (path : string) :
  exists base, path = String.append base (Ext path)
               /\ (Ext path = EmptyString \/ exists e, Ext path = String "." e).
Proof.
  unfold Ext. destruct (extLoop_spec (rev path) EmptyString) as [H|(r1 & r2 & Hrev & H)].
  - exists path. rewrite H, append_nil_r. split; [done|by left].
  - exists (rev r2). rewrite H, append_nil_r. split; [|right; by eexists].
    rewrite <- (rev_involutive path), Hrev, rev_app, rev_cons, append_assoc. done.
Qed.

Lemma HasPrefix_app (a b : string) : HasPrefix (String.append a b) a = true.
Proof. induction a as [|c a IH]; simpl; [done|]. by rewrite Ascii.eqb_refl. Qed.

Lemma HasPrefix_inv (s p : string) :
  HasPrefix s p = true -> exists x, s = String.append p x.
Proof.
  revert s. induction p as [|c p IH]; intros s; simpl; [by exists s|].
  destruct s as [|d s]; [done|].
  destruct (Ascii.eqb_spec d c) as [->|]; [|done]. simpl.
  intros H. destruct (IH s H) as [x ->]. by exists x.
Qed.

Lemma dropBytes_app (a b : string) : dropBytes (String.length a) (String.append a b) = b.
Proof. induction a as [|c a IH]; simpl; done. Qed.

Lemma TrimSuffix_app (base suffix : string) :
  TrimSuffix (String.append base suffix) suffix = base.
Proof.
  unfold TrimSuffix. rewrite rev_app, HasPrefix_app.
  rewrite <- (length_rev suffix), dropBytes_app. apply rev_involutive.
Qed.

Lemma TrimSuffix_cases (s suffix : string) :
  TrimSuffix s suffix = s
  \/ exists base, s = String.append base suffix /\ TrimSuffix s suffix = base.
Proof.
  destruct (HasPrefix (rev s) (rev suffix)) eqn:H.
  - right. apply HasPrefix_inv in H as [x Hx]. exists (rev x).
    assert (s = String.append (rev x) suffix) as ->.
    { rewrite <- (rev_involutive s), Hx, rev_app, rev_involutive. done. }
    split; [done|apply TrimSuffix_app].
  - left. unfold TrimSuffix. by rewrite H.
Qed.

Lemma append_inv_head (p x y : string) :
  String.append p x = String.append p y -> x = y.
Proof. induction p as [|c p IH]; simpl; [done|]. intros [= H]. by apply IH. Qed.

(** Without [-o], the report goes beside the input, its extension replaced
    by [_memorex.md], and the frames into the directory of the same name
    ending in [_memorex_frames]; the report is never written over the
    input.  With or without [-o], the frames directory is never the path
    of the report. *)
Theorem output_paths :
  (forall inputPath : string,
     exists base,
       inputPath = String.append base (Ext inputPath)
       /\ outputPathOf EmptyString inputPath = String.append base "_memorex.md"
       /\ framesDirOf (outputPathOf EmptyString inputPath)
          = String.append base "_memorex_frames"
       /\ outputPathOf EmptyString inputPath <> inputPath)
  /\ (forall outputPath : string, framesDirOf outputPath <> outputPath).
Proof.
  split.
  - intros inputPath. destruct (Ext_suffix inputPath) as (base & Hbase & Hext).
    exists base. split; [done|].
    assert (outputPathOf EmptyString inputPath = String.append base "_memorex.md") as Hout.
    { unfold outputPathOf. cbn [isEmpty]. cbv zeta.
      rewrite Hbase at 1. by rewrite TrimSuffix_app. }
    rewrite Hout. split; [done|]. split.
    + unfold framesDirOf.
      change (String.append base "_memorex.md")
        with (String.append base (String.append "_memorex" ".md")).
      rewrite <- append_assoc, TrimSuffix_app, append_assoc. done.
    + intros H. remember (Ext inputPath) as ext eqn:E. clear E Hout.
      rewrite Hbase in H. apply append_inv_head in H.
      destruct Hext as [He|[e He]]; rewrite He in H; discriminate.
  - intros outputPath. unfold framesDirOf.
    destruct (TrimSuffix_cases outputPath ".md") as [->|(base & -> & ->)].
    + intros H. apply (f_equal String.length) in H.
      rewrite length_append in H. simpl in H. lia.
    + intros H. apply append_inv_head in H. discriminate.
Qed.

End OutputPaths.

Module ProgressValues.
Import F64 F64Facts RealFacts FlatBounds FlatVector IntFloat ProgressClamp.
Import GoLib Audio DecimalFacts.

Lemma clamped_fraction (written total : Z) :
  0 <= written <= max_int64 -> 0 < total <= max_int64 ->
  let pct := (float_of_int64 written / float_of_int64 total)%float in
  let p := if (1 <? pct)%float then 1%float else pct in
  is_finite p = true /\ (0 <=? p)%float = true /\ (p <=? 1)%float = true.
Proof.
  intros Hw Ht pct p.
  assert (in_int64 written = true) as Hin.
  { unfold in_int64, min_int64, max_int64 in *.
    apply andb_true_iff. split; apply Z.leb_le; lia. }
  destruct (percent_facts written total Hin Ht) as (Hfin & _ & Hpos).
  simpl in Hfin, Hpos. fold pct in Hfin, Hpos. specialize (Hpos ltac:(lia)).
  unfold p. destruct (1 <? pct)%float eqn:Hgt; [done|].
  split; [done|]. split.
  - apply leb_F2R; [done..|]. by rewrite F2R_zero.
  - apply leb_F2R; [done..|]. apply Rnot_lt_le. intros Hlt.
    apply (ltb_F2R 1 pct) in Hlt; [congruence|done..].
Qed.

Definition totalRead (steps : list ReadStep) : Z :=
  foldr (fun step acc => readN step + acc) 0 steps.

Lemma copyLoop_progress (contentLength : Z) (steps : list ReadStep) (written : Z) :
  0 < contentLength <= max_int64 ->
  Forall (fun step => 0 <= readN step) steps ->
  0 <= written -> written + totalRead steps <= max_int64 ->
  Forall (fun p => is_finite p = true /\ (0 <=? p)%float = true /\ (p <=? 1)%float = true)
         (copyLoop contentLength steps written).1.
Proof.
  intros Hcl Hsteps. revert written.
  induction Hsteps as [|step rest Hn Hrest IH]; intros written Hw Hsum; [constructor|].
  simpl in Hsum. simpl.
  assert (0 <= totalRead rest) as Hrest0.
  { clear -Hrest. induction Hrest; simpl; lia. }
  destruct (0 <? readN step) eqn:Hpos.
  - destruct (writeOk step); [|constructor].
    rewrite (wrap64_small (written + readN step))
      by (unfold min_int64, max_int64 in *; lia).
    destruct (readErr step).
    + specialize (IH (written + readN step) ltac:(lia) ltac:(lia)).
      destruct (copyLoop contentLength rest (written + readN step)) as [more ending].
      simpl. constructor; [|done]. apply clamped_fraction; [lia|done].
    + simpl. constructor; [|constructor]. apply clamped_fraction; [lia|done].
    + simpl. constructor; [|constructor]. apply clamped_fraction; [lia|done].
  - destruct (readErr step); [|constructor..].
    apply IH; [done|]. apply Z.ltb_ge in Hpos. lia.
Qed.

Lemma copyLoop_done (contentLength : Z) (steps : list ReadStep) (written : Z) :
  (copyLoop contentLength steps written).2 = CopyDone ->
  exists step, step ∈ steps /\ readErr step = ReadEOF.
Proof.
  revert written. induction steps as [|step rest IH]; intros written; [done|].
  simpl. destruct (0 <? readN step).
  - destruct (writeOk step); [|done].
    destruct (readErr step) eqn:Herr.
    + specialize (IH (wrap64 (written + readN step))).
      destruct (copyLoop contentLength rest _) as [more ending]. simpl in *.
      intros Hend. destruct (IH Hend) as (s & Hs & He).
      exists s. split; [by right|done].
    + intros _. exists step. split; [by left|done].
    + done.
  - destruct (readErr step) eqn:Herr.
    + intros Hend. destruct (IH written Hend) as (s & Hs & He).
      exists s. split; [by right|done].
    + intros _. exists step. split; [by left|done].
    + done.
Qed.

(** The progress [downloadModel] reports is always a finite number between
    0 and 1, whatever length the server announces; and the model is
    installed only after the copy ended at the end of the body with every
    write, the close and the rename done. *)
Theorem download_progress_in_range (d : Download) :
  Forall (fun step => 0 <= readN step) (steps d) ->
  totalRead (steps d) <= max_int64 ->
  ContentLength d <= max_int64 ->
  Forall (fun p => is_finite p = true /\ (0 <=? p)%float = true /\ (p <=? 1)%float = true)
         (downloadModel d).1
  /\ ((downloadModel d).2 = Installed ->
      mkdirOk d = true /\ getOk d = true /\ StatusCode d = 200 /\ tempOk d = true
      /\ closeOk d = true /\ renameOk d = true
      /\ exists step, step ∈ steps d /\ readErr step = ReadEOF).
Proof.
  intros Hsteps Hsum Hlen. unfold downloadModel.
  destruct (mkdirOk d); [|by split]. destruct (getOk d); [|by split].
  destruct (StatusCode d =? 200) eqn:Hcode; [|by split].
  apply Z.eqb_eq in Hcode. cbn [negb].
  destruct (tempOk d); [|by split]. cbn [negb].
  set (contentLength := if ContentLength d <=? 0 then ModelSize else ContentLength d).
  assert (0 < contentLength <= max_int64) as Hcl.
  { unfold contentLength. destruct (ContentLength d <=? 0) eqn:Hle.
    - by unfold ModelSize, max_int64.
    - apply Z.leb_gt in Hle. lia. }
  pose proof (copyLoop_progress contentLength (steps d) 0 Hcl Hsteps ltac:(done) ltac:(lia))
    as Hprog.
  pose proof (copyLoop_done contentLength (steps d) 0) as Hdone.
  destruct (copyLoop contentLength (steps d) 0) as [progress ending].
  simpl in Hprog, Hdone.
  destruct ending; try (by split).
  destruct (closeOk d); [|by split]. destruct (renameOk d); [|by split].
  cbn [negb]. simpl. split; [done|]. intros _. eauto 10.
Qed.

Lemma skipReSpace_digits (s : string) :
  match s with String c _ => isDigit c = true | EmptyString => True end ->
  skipReSpace s = s.
Proof.
  destruct s as [|c s]; [done|]. intros Hc. simpl.
  assert (isReSpace c = false) as ->; [|done].
  unfold isDigit, isReSpace in *. apply andb_true_iff in Hc as [H1 H2].
  apply Nat.leb_le in H1.
  repeat (apply orb_false_iff; split); apply Nat.eqb_neq; lia.
Qed.

Lemma Atoi_range (s : string) (v : Z) : Atoi s = Some v -> min_int64 <= v <= max_int64.
Proof.
  unfold Atoi.
  destruct (match s with
            | String c r =>
                if Ascii.eqb c "+" then (false, r)
                else if Ascii.eqb c "-" then (true, r) else (false, s)
            | EmptyString => (false, s)
            end) as [neg body].
  destruct (isEmpty body); [done|].
  destruct (digitsValue body 0) as [w|]; [|done].
  destruct (in_int64 _) eqn:Hin; [|done]. intros [= <-].
  unfold in_int64 in Hin. apply andb_true_iff in Hin as [H1 H2].
  apply Z.leb_le in H1, H2. done.
Qed.

Lemma findProgress_here (s digits : string) :
  matchProgressHere s = Some digits -> findProgress s = Some digits.
Proof. intros H. destruct s; cbn [findProgress]; by rewrite H. Qed.

Lemma whisper_value (pct : Z) :
  0 <= pct <= max_int64 ->
  is_finite (float_of_int64 pct / 100) = true
  /\ (0 <=? float_of_int64 pct / 100)%float = true
  /\ (100 < pct -> (1 <? float_of_int64 pct / 100)%float = true).
Proof.
  intros Hp.
  assert (in_int64 pct = true) as Hin.
  { unfold in_int64, min_int64, max_int64 in *.
    apply andb_true_iff. split; apply Z.leb_le; lia. }
  destruct (int64_float pct Hin) as (Hfx & Hex & Hbx).
  assert (0 <= IZR pct)%R as HP by (apply IZR_le; lia).
  rewrite (Rabs_pos_eq (IZR pct)) in Hex, Hbx by done.
  apply Rabs_le_inv in Hex.
  pose proof eta_eq as Heta. pose proof tau_le as Htau. pose proof tau_pos as Htau0.
  rewrite Heta in Hex.
  assert (F2R 100%float = 100%R) as H100.
  { unfold F2R. change (Prim2SF 100%float) with (S754_finite false 7036874417766400 (-46)).
    rewrite SF2R_sign. pose proof (pow2_neg 46) as H.
    change (2 ^ 46) with 70368744177664 in H. lra. }
  set (x := float_of_int64 pct) in *.
  assert (0 <= F2R x <= 18446744073709551616)%R as HX by lra.
  destruct (div_rounds x 100 Hfx eq_refl) as (Hfin & Herr & Hpos & _).
  { rewrite H100. lra. }
  { rewrite H100, Rabs_pos_eq by lra.
    apply Rlt_le_trans with (pow2 64); [|apply pow2_le; lia].
    rewrite pow2_IZR by lia. change (2 ^ 64) with 18446744073709551616. lra. }
  rewrite H100 in Herr, Hpos. fold (F2R (x / 100)) in Herr, Hpos.
  apply finite_is_finite in Hfin.
  split; [done|]. split.
  - apply leb_F2R; [done..|]. rewrite F2R_zero. apply Hpos. lra.
  - intros Hbig. apply ltb_F2R; [done..|]. rewrite F2R_one.
    assert (101 <= IZR pct)%R by (apply IZR_le; lia).
    apply Rabs_le_inv in Herr. rewrite Rabs_pos_eq in Herr by lra.
    rewrite Heta in Herr. lra.
Qed.

(** [parseWhisperProgress] never reports a negative number, an infinity or
    a NaN; it does not cut at 1: a percentage above 100 is reported as a
    progress above 1. *)
Theorem whisper_progress_values :
  (forall stderr : string,
     Forall (fun p => is_finite p = true /\ (0 <=? p)%float = true)
            (parseWhisperProgress stderr))
  /\ (forall (digits : string) (pct : Z),
        allDigits digits -> Atoi digits = Some pct -> 100 < pct ->
        exists p, whisperProgressOfLine ("progress = " ++ digits ++ "%") = Some p
                  /\ (1 <? p)%float = true).
Proof.
  split.
  - intros stderr. apply Forall_forall. intros p Hp.
    unfold parseWhisperProgress in Hp.
    apply list_elem_of_omap in Hp as (line & _ & Hline).
    unfold whisperProgressOfLine in Hline.
    destruct (findProgress line) as [digits|] eqn:Hfind; [|done].
    destruct (Atoi digits) as [pct|] eqn:Hpct; [|done].
    injection Hline as <-.
    assert (allDigits digits) as Hd.
    { clear Hpct. induction line as [|c line IH]; simpl in Hfind.
      - by destruct (matchProgressHere EmptyString) eqn:E.
      - destruct (matchProgressHere (String c line)) as [ds|] eqn:Hm; [|by apply IH].
        injection Hfind as ->. unfold matchProgressHere in Hm.
        destruct (HasPrefix _ _); [|done].
        destruct (skipReSpace _) as [|c1 s1]; [done|].
        destruct (Ascii.eqb_spec c1 "=") as [->|Hne].
        + pose proof (FrameListing.digitPrefix_digits (skipReSpace s1)) as Hds.
          destruct (digitPrefix (skipReSpace s1)) as [ds rest]. simpl in Hds.
          destruct (isEmpty ds); [done|].
          destruct rest as [|c2 rest]; [done|].
          destruct (Ascii.eqb_spec c2 "%") as [->|Hne2]; [by injection Hm as <-|].
          by destruct c2 as [[] [] [] [] [] [] [] []].
        + by destruct c1 as [[] [] [] [] [] [] [] []]. }
    assert (0 <= pct <= max_int64) as Hrange.
    { pose proof (FrameListing.AtoiValue_nonneg digits Hd) as Hv.
      unfold Atoi in Hpct. unfold AtoiValue in Hv.
      destruct digits as [|c r]; [done|].
      destruct (Ascii.eqb c "+"), (Ascii.eqb c "-");
        destruct (isEmpty _); try done;
        destruct (digitsValue _ 0) as [v|]; try done;
        destruct (in_int64 _); by simplify_eq. }
    destruct (whisper_value pct Hrange) as (Hf & H0 & _). done.
  - intros digits pct Hd Hpct Hbig.
    unfold whisperProgressOfLine.
    assert (digits <> EmptyString) as Hne by (by intros ->).
    assert (findProgress ("progress = " ++ digits ++ "%") = Some digits) as ->.
    { apply findProgress_here. unfold matchProgressHere.
      change (HasPrefix _ "progress") with true.
      change (TrimPrefix _ "progress") with (String " " (String "=" (String " " (digits ++ "%"))))%string.
      change (skipReSpace (String " " (String "=" (String " " (digits ++ "%")))))
        with (String "=" (String " " (digits ++ "%")))%string.
      cbv iota.
      change (skipReSpace (String " " (digits ++ "%"))) with (skipReSpace (digits ++ "%")).
      rewrite skipReSpace_digits.
      - rewrite FrameListing.digitPrefix_app by done.
        destruct digits; done.
      - destruct digits as [|c r]; [done|]. by inv Hd. }
    rewrite Hpct. eexists. split; [done|].
    pose proof (Atoi_range _ _ Hpct) as Hrange.
    apply whisper_value; [lia|done].
Qed.

End ProgressValues.

Module HiddenChange.
Import F64 F64Facts RealFacts FlatBounds FlatVector Video VideoProofs.

(** A flat frame hides a change: with a threshold of at most 1, the loop of
    [DetectKeyframes] adds neither a frame whose vector is constant nor
    the frame that follows it, whatever these two frames and the one
    before them show. *)
Theorem flat_frame_hides_change (load : string -> option (list float))
    (threshold c : float) (k : nat) (prevGray nextGray : list float)
    (flat next : Frame) (rest : list Frame) (i : nat) (keyframes : list Keyframe) :
  (threshold <=? 1)%float = true ->
  (0 <=? c)%float = true -> (c <=? 2)%float = true ->
  (0 < k)%nat -> Z.of_nat k <= flatLimit ->
  length prevGray = k -> length nextGray = k ->
  load (FramePath flat) = Some (replicate k c) ->
  load (FramePath next) = Some nextGray ->
  compareLoop load threshold prevGray (flat :: next :: rest) i keyframes
  = compareLoop load threshold nextGray rest (S (S i)) keyframes.
Proof.
  intros Ht Hc0 Hc2 Hk0 Hk Hprev Hnext Hflat Hload.
  pose proof (std_flat c k Hc0 Hc2 Hk0 Hk) as Hstd.
  pose proof (leb_ltb_false 1 threshold Ht) as Hlt.
  assert (normalizedCrossCorrelation prevGray (replicate k c) = 1%float) as H1.
  { apply ncc_flat; [by rewrite length_replicate| |by right].
    destruct prevGray; [simpl in Hprev; lia|done]. }
  assert (normalizedCrossCorrelation (replicate k c) nextGray = 1%float) as H2.
  { apply ncc_flat; [by rewrite length_replicate| |by left].
    destruct k; [lia|done]. }
  cbn [compareLoop]. rewrite Hflat. cbv zeta. rewrite H1, Hlt.
  rewrite Hload. cbv zeta. by rewrite H2, Hlt.
Qed.

End HiddenChange.

Module FileNames.
Import F64 GoLib Video F64Facts StringFacts DecimalFacts.

Lemma append_inv_tail (a b t : string) :
  String.append a t = String.append b t -> a = b.
Proof.
  intros H. apply (f_equal rev) in H. rewrite !rev_app in H.
  assert (forall p x y, String.append p x = String.append p y -> x = y) as Hhead.
  { induction p as [|ch p IH]; simpl; [done|]. intros x y [= Hxy]. by apply IH. }
  apply Hhead in H. apply (f_equal rev) in H. by rewrite !rev_involutive in H.
Qed.

(** [strconv.Atoi] reads back what [%04d] prints. *)
Lemma Atoi_formatInt04 (n : Z) : in_int64 n = true -> Atoi (formatInt04 n) = Some n.
Proof.
  intros Hin. pose proof Hin as Hr.
  unfold in_int64, min_int64, max_int64 in Hr.
  apply andb_true_iff in Hr as [Hlo Hhi]. apply Z.leb_le in Hlo, Hhi.
  destruct (Z.ltb_spec n 0) as [Hneg|Hpos].
  - unfold formatInt04. assert ((n <? 0) = true) as -> by (by apply Z.ltb_lt).
    destruct (formatInt_digits (- n) ltac:(lia)) as (Hd & Hv & Hne).
    unfold Atoi. change (Ascii.eqb "-" "+") with false. change (Ascii.eqb "-" "-") with true.
    cbv iota.
    assert (isEmpty (padZeros 3 (formatInt (- n))) = false) as ->.
    { unfold padZeros. destruct (repeatByte "0" _); simpl; [|done].
      by destruct (formatInt (- n)). }
    unfold padZeros. rewrite zeros_value, Hv. cbv zeta.
    rewrite Z.opp_involutive, Hin. done.
  - destruct (formatInt04_digits n Hpos) as (Hd & Hv & Hne).
    unfold Atoi. destruct (formatInt04 n) as [|ch r] eqn:E; [done|].
    inversion Hd as [|? ? Hc _]; subst.
    assert (Ascii.eqb ch "+" = false) as ->.
    { destruct (Ascii.eqb_spec ch "+") as [->|]; done. }
    assert (Ascii.eqb ch "-" = false) as ->.
    { destruct (Ascii.eqb_spec ch "-") as [->|]; done. }
    cbn [isEmpty]. rewrite Hv. cbv zeta. by rewrite Hin.
Qed.

(** The index of a keyframe can be read back from the name of its file, so
    keyframes of different indices never share a file name. *)
Theorem keyframe_file_names_distinct (i j : Z) :
  in_int64 i = true -> in_int64 j = true ->
  (exists digits, keyframeFileName i = ("frame_" ++ digits ++ ".jpg")%string
                  /\ Atoi digits = Some i)
  /\ (keyframeFileName i = keyframeFileName j -> i = j).
Proof.
  intros Hi Hj. split.
  - exists (formatInt04 i). split; [done|]. by apply Atoi_formatInt04.
  - unfold keyframeFileName. intros H.
    assert (formatInt04 i = formatInt04 j) as Heq.
    { simpl in H. injection H as H. by apply append_inv_tail in H. }
    pose proof (Atoi_formatInt04 i Hi) as H1. rewrite Heq, (Atoi_formatInt04 j Hj) in H1.
    by injection H1.
Qed.

End FileNames.

(** ** Constant vectors *)

Module FlatScores.
Import F64 F64Facts Video VideoProofs FlatVector.

(** C5 (amended). NCC degeneracy: vectors of different lengths and empty
    vectors score exactly 0; two constant vectors of the same length, from
    1 to 100000 entries, score exactly 1 when the entries of one of them
    lie between 0 and 2, as every luminance value does. *)
Theorem ncc_degenerate :
  (forall a b : list float, length a <> length b -> normalizedCrossCorrelation a b = 0%float)
  /\ normalizedCrossCorrelation [] [] = 0%float
  /\ (forall (c d : float) (n : nat),
        (0 < n)%nat -> Z.of_nat n <= flatLimit ->
        (0 <=? c)%float = true -> (c <=? 2)%float = true ->
        normalizedCrossCorrelation (replicate n c) (replicate n d) = 1%float
        /\ normalizedCrossCorrelation (replicate n d) (replicate n c) = 1%float).
Proof.
  split; [|split].
  - intros a b Hlen. unfold normalizedCrossCorrelation.
    by rewrite (proj2 (Nat.eqb_neq _ _) Hlen).
  - done.
  - intros c d n Hn Hlimit Hc0 Hc2.
    pose proof (std_flat c n Hc0 Hc2 Hn Hlimit) as Hflat.
    split; apply ncc_flat; rewrite ?length_replicate; auto; by destruct n; [lia|].
Qed.

Lemma ncc_degenerate_witness :
  normalizedCrossCorrelation (replicate 3 0.1%float) (replicate 3 0.25%float) = 1%float
  /\ normalizedCrossCorrelation (replicate 3 0.25%float) (replicate 3 0.1%float) = 1%float.
Proof.
  apply (proj2 (proj2 ncc_degenerate) 0.1%float 0.25%float 3%nat).
  - lia.
  - vm_compute. discriminate.
  - reflexivity.
  - reflexivity.
Defined.

(** C5, as stated, fails: two finite constant vectors of length three that
    score -1. *)
Lemma ncc_constant_counterexample :
  ~ (forall (c d : float) (n : nat),
        (0 < n)%nat -> is_finite c = true -> is_finite d = true ->
        normalizedCrossCorrelation (replicate n c) (replicate n d) = 1%float).
Proof.
  intros H.
  specialize (H 9007199254740954%float 9007199254740958%float 3%nat
                ltac:(lia) eq_refl eq_refl).
  vm_compute in H. discriminate H.
Qed.

End FlatScores.

(** ** The order of keyframes and of segments *)

Module SegmentOrder.
Import F64 F64Facts ListFacts GoLib Audio Recognizer Examples.
Import VideoProofs AudioProofs StringFacts TrimFacts ScanFacts LineParsing ProgressValues.






Lemma containsByte_app_false (c : ascii) (a b : string) :
  containsByte c (String.append a b) = false ->
  containsByte c a = false /\ containsByte c b = false.
Proof. rewrite containsByte_app. apply orb_false_iff. Qed.











End SegmentOrder.

Module Witnesses.
Import F64 GoLib Examples.
Import VideoExtras SegmentText LineParsing WhisperErrors TimestampShape OutputExtras.
Import FlatVector TokenFloor.
Import ProgressClamp UniformFrames DurationFormat FrameListing TerminalDuration ProgressValues.
Import HiddenChange FileNames OutputPaths.

Lemma detect_error_first_failure_witness :
  Video.DetectKeyframes loader [frame1; frame2; frame4] 0.85%float
  = Video.Err (Video.FailedFrame 2).
Proof.
  apply (proj1 (proj2 (detect_error_first_failure loader 0.85%float frame1 frame2 [frame4]))
           [frame2] frame4 [] pixelsA [pixelsB]).
  - reflexivity.
  - reflexivity.
  - repeat constructor.
  - reflexivity.
Defined.

Lemma detect_keyframes_subsequence_witness :
  (exists sel, keyframes13 = map Video.toKeyframe sel /\ sel `sublist_of` frames123)
  /\ (length keyframes13 <= length frames123)%nat
  /\ (frames123 <> [] -> (1 <= length keyframes13)%nat).
Proof.
  apply (detect_keyframes_subsequence loader frames123 0.5%float keyframes13).
  vm_compute. reflexivity.
Defined.

Lemma detect_threshold_nothing_below_witness :
  Video.DetectKeyframes loader (frame1 :: [frame2] ++ [frame3]) nan = Video.Ok keyframes13.
Proof.
  apply (detect_threshold_nothing_below loader nan frame1 [frame2] frame3
           pixelsA [pixelsB] pixelsB).
  - left. reflexivity.
  - reflexivity.
  - repeat constructor.
  - reflexivity.
  - apply (bool_decide_unpack _). vm_compute. reflexivity.
Defined.

Lemma segment_text_trimmed_witness :
  "Hello, world."%string <> EmptyString
  /\ TrimSpace "Hello, world." = "Hello, world."%string.
Proof.
  apply (proj1 segment_text_trimmed helloLine
           {| Audio.Start := 0; Audio.End_ := 3 * Audio.Second; Audio.Text := "Hello, world." |}).
  vm_compute. apply list_elem_of_here.
Defined.

Lemma plain_output_uses_file_witness :
  Audio.parseWhisperOutput (Audio.collectedOutput plainRun) = []
  /\ Audio.runWhisper plainRun
     = inr [ {| Audio.Start := 0; Audio.End_ := 0; Audio.Text := "Hello, world." |} ].
Proof.
  apply (plain_output_uses_file plainRun); reflexivity.
Defined.

Lemma parse_line_by_line_witness :
  Audio.parseWhisperOutput (String.append helloLine (String nl helloLine))
  = Audio.segmentOf (dropCR helloLine) ++ Audio.parseWhisperOutput helloLine.
Proof.
  apply (parse_line_by_line helloLine helloLine); vm_compute; reflexivity.
Defined.

Lemma parse_stops_at_long_line_witness :
  Audio.parseWhisperOutput (String.append longLine (String nl helloLine)) = [].
Proof.
  apply (parse_stops_at_long_line longLine (String nl helloLine)).
  - vm_compute. reflexivity.
  - vm_compute. discriminate.
Defined.

Lemma parseTimestamp_shape_witness :
  Audio.parseTimestamp "12:34" = None
  /\ Audio.parseTimestamp "1:02:03" = Some (Audio.durationOf 1 2 3 0)
  /\ Audio.parseTimestamp "1:02:03.5" = Some (Audio.durationOf 1 2 3 5)
  /\ Audio.parseTimestamp "1:02:03.5.9" = Some (Audio.durationOf 1 2 3 5).
Proof.
  split; [|split; [|split]].
  - apply (proj1 parseTimestamp_shape "12:34"%string). vm_compute. lia.
  - apply (proj1 (proj2 parseTimestamp_shape "1" "02" "03" 1 2 3 eq_refl eq_refl eq_refl)%string).
  - apply (proj1 (proj2 (proj2 parseTimestamp_shape "1" "02" "03" 1 2 3
                            eq_refl eq_refl eq_refl) "5" 5 eq_refl)%string).
  - apply (proj2 (proj2 (proj2 parseTimestamp_shape "1" "02" "03" 1 2 3
                            eq_refl eq_refl eq_refl) "5" 5 eq_refl) "9" eq_refl)%string.
Defined.

Lemma runWhisper_errors_witness :
  Audio.runWhisper (successfulRun helloLine (Some "ignored"%string))
  = inr [ {| Audio.Start := 0; Audio.End_ := 3 * Audio.Second; Audio.Text := "Hello, world." |} ].
Proof.
  apply (proj2 (runWhisper_errors (successfulRun helloLine (Some "ignored"%string))));
    reflexivity.
Defined.

Lemma estimate_order_independent_witness :
  Output.EstimateTokens twoSegments = Output.EstimateTokens twoSegmentsSwapped.
Proof.
  apply (estimate_order_independent twoSegments twoSegmentsSwapped).
  - apply perm_swap.
  - reflexivity.
Defined.

Lemma flat_frame_scores_one_witness :
  (Video.stdOf (replicate 3 0.5%float) <? 1e-10)%float = true
  /\ Video.normalizedCrossCorrelation (replicate 3 0.5%float) textured = 1%float
  /\ Video.normalizedCrossCorrelation textured (replicate 3 0.5%float) = 1%float.
Proof.
  apply (flat_frame_scores_one 0.5%float 3 textured); try reflexivity.
  - lia.
  - vm_compute. discriminate.
Defined.

Lemma estimate_formula_witness :
  Output.segmentTokens helloSegment = 13 * Output.wordCount helloSegment / 10.
Proof.
  apply (proj1 estimate_formula helloSegment). vm_compute. reflexivity.
Defined.

Lemma progress_never_above_one_witness :
  Forall (fun p => is_finite p = true /\ (p <=? 1)%float = true)
         (Video.parseFFmpegProgress ffmpegOutput 10000000000).
Proof.
  apply (proj1 (progress_never_above_one 10000000000
                  ltac:(vm_compute; split; [reflexivity|discriminate]))).
Defined.

Lemma gray_entries_in_range_witness :
  length (Video.toGray redImage) = 2%nat
  /\ Forall (fun v => is_finite v = true
                      /\ (0 <=? v)%float = true
                      /\ (v <=? 1.000000000001)%float = true) (Video.toGray redImage)
  /\ Video.grayValue 65535 65535 65535 = 0.99999999999999989%float.
Proof.
  apply (gray_entries_in_range redImage).
  - intros x y. simpl. lia.
  - simpl. lia.
  - simpl. lia.
Defined.

Lemma uniform_frame_scores_one_witness :
  Video.toGray blackImage = replicate 4 (Video.grayValue 0 0 0)
  /\ Video.normalizedCrossCorrelation (Video.toGray blackImage) pixelsB = 1%float
  /\ Video.normalizedCrossCorrelation pixelsB (Video.toGray blackImage) = 1%float.
Proof.
  apply (uniform_frame_scores_one blackImage 0 0 0 pixelsB).
  - reflexivity.
  - lia.
  - lia.
  - lia.
  - simpl. lia.
  - simpl. lia.
  - vm_compute. discriminate.
  - reflexivity.
Defined.

Lemma formatDuration_fields_witness :
  Output.formatDuration 59600000000 = "1:00"%string.
Proof.
  exact (proj1 (formatDuration_fields 59600000000 ltac:(vm_compute; split; discriminate))).
Defined.

Lemma extract_frames_numbered_witness :
  Video.ExtractFrames twoFilesRun
    (inr [Video.numberedFrame "/tmp/memorex-frames-1" 1;
          Video.numberedFrame "/tmp/memorex-frames-1" 2]).
Proof.
  apply (proj2 (extract_frames_numbered twoFilesRun "/tmp/memorex-frames-1" twoFiles 2 _
                  eq_refl eq_refl eq_refl eq_refl eq_refl
                  ltac:(vm_compute; split; discriminate) (perm_swap _ _ []))).
  reflexivity.
Defined.

Lemma extract_frames_invariants_witness :
  exists res, Video.ExtractFrames twoFilesRun res.
Proof. exact (proj1 (extract_frames_invariants twoFilesRun)). Defined.

Lemma terminal_duration_exact_witness :
  Main.formatDuration 3723500000000 = "1h 2m 3s"%string.
Proof.
  exact (proj2 (proj2 (proj2 (terminal_duration_exact 3723500000000
                                ltac:(vm_compute; split; discriminate))))).
Defined.

Lemma download_progress_in_range_witness :
  Forall (fun p => is_finite p = true /\ (0 <=? p)%float = true /\ (p <=? 1)%float = true)
         (Audio.downloadModel shortDownload).1.
Proof.
  apply (proj1 (download_progress_in_range shortDownload
                  ltac:(repeat constructor; vm_compute; discriminate)
                  ltac:(vm_compute; discriminate) ltac:(vm_compute; discriminate))).
Defined.

Lemma whisper_progress_values_witness :
  exists p, Audio.whisperProgressOfLine "progress = 250%" = Some p
            /\ (1 <? p)%float = true.
Proof.
  apply (proj2 whisper_progress_values "250"%string 250).
  - repeat constructor.
  - reflexivity.
  - lia.
Defined.

Lemma flat_frame_hides_change_witness :
  Video.compareLoop fadeLoader 0.85%float pixelsA [frame2; frame3] 1 [Video.toKeyframe frame1]
  = Video.compareLoop fadeLoader 0.85%float pixelsB [] 3 [Video.toKeyframe frame1].
Proof.
  apply (flat_frame_hides_change fadeLoader 0.85%float 0%float 4 pixelsA pixelsB
           frame2 frame3 [] 1 [Video.toKeyframe frame1]); try reflexivity.
  - lia.
  - vm_compute. discriminate.
Defined.

Lemma keyframe_file_names_distinct_witness :
  exists digits, Video.keyframeFileName 7 = ("frame_" ++ digits ++ ".jpg")%string
                 /\ Atoi digits = Some 7.
Proof.
  apply (proj1 (keyframe_file_names_distinct 7 12 eq_refl eq_refl)).
Defined.

Lemma output_paths_witness :
  Main.framesDirOf "notes.txt" <> "notes.txt"%string.
Proof. apply (proj2 output_paths "notes.txt"%string). Defined.

End Witnesses.
